(** * TachyFont: the incremental glyph cache manager

    A shallow embedding of [incrementalfont.js] (the manager object
    [tachyfont.IncrementalFont.obj]) and of the helpers of [tachyfont.js]
    it relies on, together with the properties of the load cycle.

    Conventions of the embedding:
    - a JavaScript number that holds an integer is a [Z]; [NaN], which only
      arises from [charCodeAt] past the end of a string, is [None];
    - a JavaScript string is the list of its UTF-16 code units;
    - an object used as a map from characters to numbers is a [gmap];
    - an object whose enumeration order matters is an association list in
      enumeration order;
    - a promise is modelled by the way it settles; a promise chain is a
      computation over the manager state, the persistent store and the
      history of calls made to the collaborators. *)

From Stdlib Require Import ZArith List Bool Lia String Sorted Permutation.
From stdpp Require Import base gmap list.
Import ListNotations.

Local Open Scope Z_scope.

(* ===================================================================== *)
(** ** JavaScript values *)
(* ===================================================================== *)

(** A JavaScript string: its UTF-16 code units. *)
Abbreviation jsstring := (list Z).

(** [s.charCodeAt(i)]; [None] stands for [NaN]. *)
Definition charCodeAt (s : jsstring) (i : nat) : option Z := nth_error s i.

(** An [Object<string, number>] keyed by characters. *)
Abbreviation charmap := (gmap (list Z) Z).

(** [!o[c]] for a lookup in an [Object<string, number>]. *)
Definition falsy (v : option Z) : bool :=
  match v with
  | None => true
  | Some n => n =? 0
  end.

(** [Array.prototype.slice]: a relative index counts from the end when it is
    negative and is clamped to the length. *)
Definition slice_index (len k : Z) : Z :=
  if k <? 0 then Z.max (len + k) 0 else Z.min k len.

Definition js_slice {A : Type} (l : list A) (start : Z) (stop : option Z)
  : list A :=
  let len := Z.of_nat (length l) in
  let from := slice_index len start in
  let to := match stop with
            | Some e => slice_index len e
            | None => len
            end in
  firstn (Z.to_nat (to - from)) (skipn (Z.to_nat from) l).

(** [a.sort(function(a, b) { return a - b; })] on an array of integers. *)
Fixpoint insert_numeric (x : Z) (l : list Z) : list Z :=
  match l with
  | [] => [x]
  | y :: l' => if x <=? y then x :: l else y :: insert_numeric x l'
  end.

Fixpoint sort_numeric (l : list Z) : list Z :=
  match l with
  | [] => []
  | x :: l' => insert_numeric x (sort_numeric l')
  end.

(* ===================================================================== *)
(** ** [tachyfont.js]: constants and character helpers *)
(* ===================================================================== *)

Definition MINIMUM_NON_OBFUSCATION_LENGTH : Z := 20.

Definition OBFUSCATION_RANGE : Z := 256.

(** [tachyfont.charToCode]: the code point of a character, a surrogate pair
    counting as one unit. *)
Definition charToCode (inputChar : jsstring) : option Z :=
  match charCodeAt inputChar 0 with
  | None => None
  | Some cc =>
      if (0xD800 <=? cc) && (cc <=? 0xDBFF) then
        match charCodeAt inputChar 1 with
        | None => None
        | Some cc1 =>
            let high := Z.shiftl (cc - 0xD800) 10 in
            let low := cc1 - 0xDC00 in
            Some (high + low + 0x10000)
        end
      else Some cc
  end.

(** Modelled from the spec: [tachyfont.utils.stringFromCodePoint], the
    inverse helper, is not part of the sources at hand.  The data model
    represents a code point "as its source character, correctly pairing
    surrogate halves": one code unit in the basic plane, a high and a low
    surrogate above it. *)
Definition stringFromCodePoint (codePoint : Z) : jsstring :=
  if codePoint <=? 0xFFFF then [codePoint]
  else
    let offset := codePoint - 0x10000 in
    [Z.shiftr offset 10 + 0xD800; Z.land offset 0x3FF + 0xDC00].

(** Modelled from the spec: [tachyfont.SparseBitArray] is not part of the
    sources at hand.  It is the "sparse boolean set over the Unicode
    codepoint space"; [NaN] is no code point and is never set. *)
Abbreviation SparseBitArray := (gset Z).

Definition setBit (bitNumber : Z) (bits : SparseBitArray) : SparseBitArray :=
  {[ bitNumber ]} ∪ bits.

Definition isSet (bits : SparseBitArray) (bitNumber : Z) : bool :=
  bool_decide (bitNumber ∈ bits).

(* ===================================================================== *)
(** ** [tachyfont.IncrementalFont.possibly_obfuscate] *)
(* ===================================================================== *)

(** [code_map] is an object keyed by code points.  Code points are array
    indices, which [Object.keys] enumerates in ascending numeric order, and
    every value equals its key: the object is kept as the ascending list of
    its keys.  (A key that is no array index, a negative number say, is
    enumerated after the indices, in the order of insertion: the order of
    the list is the order of the code for code points only.) *)
Fixpoint code_map_set (code : Z) (code_map : list Z) : list Z :=
  match code_map with
  | [] => [code]
  | k :: rest =>
      if code <? k then code :: code_map
      else if code =? k then code_map
      else k :: code_map_set code rest
  end.

(** The first loop: [code_map[code] = code] for every input code. *)
Definition code_map_of (codes : list Z) : list Z :=
  fold_left (fun m code => code_map_set code m) codes [].

(** [Math.floor(goog.math.uniformRandom(bottom, top + 1))]: an integer of the
    window [bottom .. top].  The random source is a parameter: [draw] is any
    integer and is reduced into the window. *)
Definition uniformRandomFloor (bottom top draw : Z) : Z :=
  bottom + draw mod (top + 1 - bottom).

Section Obfuscate.

(** The codes to pad, the loadable code points, and the draws of the
    random source, one per iteration. *)
Variable codes : list Z.
Variable loadableCodepoints : SparseBitArray.
Variable draws : nat -> Z.

(** The padding loop.  [tries] counts the iterations left before
    [i < max_tries] fails; [i] is the loop counter. *)
Fixpoint obfuscate_loop (tries : nat) (i : nat) (code_map : list Z)
    (alreadyRequestedChars : charmap) : list Z * charmap :=
  match tries with
  | O => (code_map, alreadyRequestedChars)
  | S tries' =>
      if Z.of_nat (length code_map) <? MINIMUM_NON_OBFUSCATION_LENGTH then
        match nth_error codes (Nat.modulo i (length codes)) with
        | None => obfuscate_loop tries' (S i) code_map alreadyRequestedChars
        | Some code =>
            let bottom0 := code - OBFUSCATION_RANGE / 2 in
            let bottom := if bottom0 <? 0 then 0 else bottom0 in
            let top := code + OBFUSCATION_RANGE / 2 in
            let newCode := uniformRandomFloor bottom top (draws i) in
            if negb (isSet loadableCodepoints newCode) then
              obfuscate_loop tries' (S i) code_map alreadyRequestedChars
            else
              let newChar := stringFromCodePoint newCode in
              match alreadyRequestedChars !! newChar with
              | None =>
                  obfuscate_loop tries' (S i)
                    (code_map_set newCode code_map)
                    (<[newChar := 1]> alreadyRequestedChars)
              | Some _ =>
                  obfuscate_loop tries' (S i) code_map alreadyRequestedChars
              end
        end
      else (code_map, alreadyRequestedChars)
  end.

End Obfuscate.

(** [possibly_obfuscate] returns the padded codes; its second component is
    [alreadyRequestedChars] as the call leaves it, since the argument is
    mutated in place. *)
Definition possibly_obfuscate (noObfuscate : bool) (draws : nat -> Z)
    (codes : list Z) (alreadyRequestedChars : charmap)
    (loadableCodepoints : SparseBitArray) : list Z * charmap :=
  if noObfuscate then (codes, alreadyRequestedChars)
  else if MINIMUM_NON_OBFUSCATION_LENGTH <=? Z.of_nat (length codes) then
    (codes, alreadyRequestedChars)
  else
    let code_map := code_map_of codes in
    let num_new_codes :=
      MINIMUM_NON_OBFUSCATION_LENGTH - Z.of_nat (length codes) in
    let max_tries := num_new_codes * 10 + 100 in
    obfuscate_loop codes loadableCodepoints draws
      (Z.to_nat max_tries) 0%nat code_map alreadyRequestedChars.

(* ===================================================================== *)
(** ** Promises, the collaborators and the manager state *)
(* ===================================================================== *)

(** The reason a promise rejects with, or the value an exception carries. *)
Inductive Err : Type :=
| Reason (msg : string)      (* [reject('...')] *)
| NoReason                   (* [reject()] *)
| TypeError                  (* a property read on [undefined] *)
| AssertionError             (* a failed [goog.asserts.assert] *)
| Failure (code : Z).        (* a fault raised by a collaborator *)

(** The way a promise settles. *)
Inductive outcome (A : Type) : Type :=
| Resolved (a : A)
| Rejected (e : Err).
Arguments Resolved {A} a.
Arguments Rejected {A} e.

Definition is_rejected {A : Type} (r : outcome A) : bool :=
  match r with
  | Resolved _ => false
  | Rejected _ => true
  end.

(** [tachyfont.typedef.FileInfo], as far as the manager reads it. *)
Record FileInfo : Type := mkFileInfo {
  cmapMapping : list Z;
  isTtf : bool;
  sha1_fingerprint : string
}.

(** [tachyfont.GlyphBundleResponse]. *)
Record GlyphBundleResponse : Type := mkBundle {
  glyphCount : Z;
  glyphData : list Z;
  signature : string
}.

Definition Metadata : Type := list Z.

(** The four compact stores, in the order of
    [tachyfont.Define.compactStoreNames]. *)
Record StoreValues : Type := mkStoreValues {
  stored_fontBytes : list Z;
  stored_fileInfo : FileInfo;
  stored_charList : charmap;
  stored_metadata : Metadata
}.

(** [tachyfont.typedef.FontTableData]. *)
Record FontTableData : Type := mkFontTableData {
  sfnt_fontData : list Z;
  table_fileInfo : FileInfo;
  table_charList : charmap;
  table_metadata : Metadata
}.

(** [tachyfont.typedef.CompactFontWorkingData]. *)
Record CompactFontWorkingData : Type := mkWorkingData {
  fontBytes : list Z;
  fileInfo : FileInfo;
  charList : charmap
}.

(** A [tachyfont.CompactCff] after injection: its font data and the
    character list of its table data, when there is one. *)
Record CompactCff : Type := mkCompactCff {
  cff_fontData : list Z;
  cff_charList : option charmap
}.

(** The font's database in the persistent store. *)
Inductive Database : Type :=
| NoDatabase                     (* never created, or deleted *)
| EmptyStores                    (* created or cleared, nothing stored *)
| Stores (values : StoreValues).

(** The calls the manager makes to its collaborators. *)
Inductive Call : Type :=
| GetPrecedingPromise
| RequestCodepoints (codes : list Z)
| RequestFontBase
| DeleteDatabase
| OpenIndexedDb
| GetStores
| PutStores
| ClearDataStores
| InjectChars (codes : list Z)
| SetFont.

(** What a cycle does that is visible outside the manager. *)
Inductive Event : Type :=
| Called (c : Call) (fulfilled : bool)
| ReportError (errorCode : string)
| AddLog (id : string) (numerator denominator : Z)
| CloseDb
| SetTimeoutLoadChars
| ResolveChained.

(** The collaborators and the page environment.  Every collaborator
    answers as a function of the history of the cycle so far, so that a
    collaborator may settle differently from one call to the next. *)
Record World : Type := mkWorld {
  ENABLE_ASSERTS : bool;
  noObfuscate : bool;
  random : list Event -> nat -> Z;
  elapsed : list Event -> Z;
  chained_getPrecedingPromise : list Event -> outcome unit;
  backend_requestCodepoints :
    list Event -> list Z -> outcome (option GlyphBundleResponse);
  backend_requestFontBase : list Event -> outcome (list Z);
  persist_deleteDatabase : list Event -> outcome unit;
  persist_openIndexedDb : list Event -> outcome unit;
  persist_getStores : list Event -> outcome unit;
  persist_putStores : list Event -> outcome unit;
  compactCff_clearDataStores : list Event -> outcome unit;
  compactCff_injectChars : list Event -> list Z -> outcome CompactCff;
  browser_setFont : list Event -> outcome string;
  transform_decodeBase : list Z -> outcome FontTableData
}.

(** [tachyfont.IncrementalFont.obj].  [compactCharList_] is the encapsulated
    promise of the character list; the list it resolved to is the live
    object every holder of the promise mutates. *)
Record obj : Type := mkObj {
  refetchedCompact_ : bool;
  blobUrl_ : option string;
  needToSetFont_ : bool;
  haveReadFileInfo_ : bool;
  isTtf_ : bool;
  sha1_fingerprint_ : string;
  loadableCodepoints_ : SparseBitArray;
  charsToLoad_ : list (jsstring * Z);
  maximumRequestSize_ : Z;
  compactCharList_ : outcome charmap
}.

(** [this.maximumRequestSize_ = params['req_size'] || 2200]. *)
Definition maximumRequestSize_of (req_size : option Z) : Z :=
  match req_size with
  | Some n => if n =? 0 then 2200 else n
  | None => 2200
  end.

(** The state a promise chain runs over. *)
Record State : Type := mkState {
  this : obj;
  idb : Database;
  history : list Event;
  timers : nat                   (* pending [setTimeout] calls of loadChars *)
}.

Definition Chain (A : Type) : Type := State -> outcome A * State.

Definition Promise_resolve {A : Type} (a : A) : Chain A :=
  fun s => (Resolved a, s).

Definition Promise_reject {A : Type} (e : Err) : Chain A :=
  fun s => (Rejected e, s).

(** [p.then(onFulfilled)]. *)
Definition then_ {A B : Type} (p : Chain A) (onFulfilled : A -> Chain B)
  : Chain B :=
  fun s =>
    match p s with
    | (Resolved a, s') => onFulfilled a s'
    | (Rejected e, s') => (Rejected e, s')
    end.

(** [p.thenCatch(onRejected)]. *)
Definition thenCatch {A : Type} (p : Chain A) (onRejected : Err -> Chain A)
  : Chain A :=
  fun s =>
    match p s with
    | (Resolved a, s') => (Resolved a, s')
    | (Rejected e, s') => onRejected e s'
    end.

(** [p.then(onFulfilled, onRejected)]: [onRejected] sees the rejections of
    [p] only. *)
Definition then2 {A B : Type} (p : Chain A) (onFulfilled : A -> Chain B)
    (onRejected : Err -> Chain B) : Chain B :=
  fun s =>
    match p s with
    | (Resolved a, s') => onFulfilled a s'
    | (Rejected e, s') => onRejected e s'
    end.

(** [p.thenAlways(onSettled)] returns [p] itself. *)
Definition thenAlways {A : Type} (p : Chain A) (onSettled : Chain unit)
  : Chain A :=
  fun s =>
    match p s with
    | (r, s') => (r, snd (onSettled s'))
    end.

(** A promise that is started and not returned: its effects happen, the
    enclosing callback returns [undefined].  The effects are placed here,
    before the chain goes on; in the code they are asynchronous and may
    come later, so the order of these effects against the later events of
    the chain is that of the model only. *)
Definition detached {A : Type} (p : Chain A) : Chain unit :=
  fun s => (Resolved tt, snd (p s)).

Notation "'let!' x ':=' p 'in' k" := (then_ p (fun x => k))
  (at level 10, x name, p at level 100, k at level 200).
Notation "p ';;' k" := (then_ p (fun _ => k))
  (at level 100, k at level 200, right associativity).

Definition gets {A : Type} (f : State -> A) : Chain A :=
  fun s => (Resolved (f s), s).

Definition modify_this (f : obj -> obj) : Chain unit :=
  fun s => (Resolved tt,
            mkState (f (this s)) (idb s) (history s) (timers s)).

Definition emit (e : Event) : Chain unit :=
  fun s => (Resolved tt,
            mkState (this s) (idb s) (history s ++ [e]) (timers s)).

(** A call to a collaborator: it settles as the world says, the call is
    recorded, and a fulfilled call has its effect on the database. *)
Definition call {A : Type} (c : Call) (answer : list Event -> outcome A)
    (effect : Database -> Database) : Chain A :=
  fun s =>
    match answer (history s) with
    | Resolved a =>
        (Resolved a,
         mkState (this s) (effect (idb s)) (history s ++ [Called c true])
           (timers s))
    | Rejected e =>
        (Rejected e,
         mkState (this s) (idb s) (history s ++ [Called c false]) (timers s))
    end.

(* ===================================================================== *)
(** ** [tachyfont.IncrementalFont]: the manager *)
(* ===================================================================== *)

(** [tachyfont.IncrementalFont.Error] and [tachyfont.IncrementalFont.Log]. *)
Definition FILE_ID : string := "EIF".
Definition LOAD_CHARS_GET_LOCK : string := "18".
Definition FINGERPRINT_MISMATCH : string := "42".
Definition DELETE_IDB : string := "44".
Definition INJECT_FONT_COMPACT : string := "49".
Definition INJECT_COMPACT : string := "51".
Definition SAVE_NEW_COMPACT : string := "57".
Definition INJECT_FONT_INJECT_CHARS : string := "59".
Definition REJECTED_GET_COMPACT_CHARLIST : string := "63".
Definition CALC_NEEDED_CHARS : string := "68".
Definition URL_GET_BASE : string := "LIFUB".
Definition MISS_COUNT : string := "LIFMC".
Definition MISS_RATE : string := "LIFMR".

(** The needed-characters loop of [calcNeededChars]: a character is needed
    when the font supports it and [tmp_charlist] does not hold it yet. *)
Fixpoint needed_loop (loadableCodepoints : SparseBitArray)
    (charArray : list jsstring) (tmp_charlist : charmap)
    (neededCodes : list Z) : list Z * charmap :=
  match charArray with
  | [] => (neededCodes, tmp_charlist)
  | c :: rest =>
      match charToCode c with
      | Some code =>
          if isSet loadableCodepoints code && falsy (tmp_charlist !! c) then
            needed_loop loadableCodepoints rest (<[c := 1]> tmp_charlist)
              (neededCodes ++ [code])
          else needed_loop loadableCodepoints rest tmp_charlist neededCodes
      | None => needed_loop loadableCodepoints rest tmp_charlist neededCodes
      end
  end.

(** The marking loop of [calcNeededChars]: [charlist[c] = 1] and
    [delete this.charsToLoad_[c]] for every code of the chunk. *)
Fixpoint mark_loop (neededCodes : list Z) (charlist : charmap)
    (charsToLoad : list (jsstring * Z)) : charmap * list (jsstring * Z) :=
  match neededCodes with
  | [] => (charlist, charsToLoad)
  | code :: rest =>
      let c := stringFromCodePoint code in
      mark_loop rest (<[c := 1]> charlist)
        (List.filter (fun kv => negb (bool_decide (fst kv = c))) charsToLoad)
  end.

(** The split at the request size. *)
Definition head_chunk (maximumRequestSize : Z) (neededCodes : list Z)
  : list Z :=
  if maximumRequestSize =? 0 then neededCodes
  else js_slice neededCodes 0 (Some maximumRequestSize).

Definition remaining_chunk (maximumRequestSize : Z) (neededCodes : list Z)
  : list Z :=
  if maximumRequestSize =? 0 then []
  else js_slice neededCodes maximumRequestSize None.

Definition set_compactCharList (o : obj) (r : outcome charmap) : obj :=
  mkObj (refetchedCompact_ o) (blobUrl_ o) (needToSetFont_ o)
    (haveReadFileInfo_ o) (isTtf_ o) (sha1_fingerprint_ o)
    (loadableCodepoints_ o) (charsToLoad_ o) (maximumRequestSize_ o) r.

Definition set_charsToLoad (o : obj) (l : list (jsstring * Z)) : obj :=
  mkObj (refetchedCompact_ o) (blobUrl_ o) (needToSetFont_ o)
    (haveReadFileInfo_ o) (isTtf_ o) (sha1_fingerprint_ o)
    (loadableCodepoints_ o) l (maximumRequestSize_ o) (compactCharList_ o).

Definition set_needToSetFont (o : obj) (b : bool) : obj :=
  mkObj (refetchedCompact_ o) (blobUrl_ o) b
    (haveReadFileInfo_ o) (isTtf_ o) (sha1_fingerprint_ o)
    (loadableCodepoints_ o) (charsToLoad_ o) (maximumRequestSize_ o)
    (compactCharList_ o).

Definition set_refetchedCompact (o : obj) (b : bool) : obj :=
  mkObj b (blobUrl_ o) (needToSetFont_ o)
    (haveReadFileInfo_ o) (isTtf_ o) (sha1_fingerprint_ o)
    (loadableCodepoints_ o) (charsToLoad_ o) (maximumRequestSize_ o)
    (compactCharList_ o).

Definition set_blobUrl (o : obj) (u : option string) : obj :=
  mkObj (refetchedCompact_ o) u (needToSetFont_ o)
    (haveReadFileInfo_ o) (isTtf_ o) (sha1_fingerprint_ o)
    (loadableCodepoints_ o) (charsToLoad_ o) (maximumRequestSize_ o)
    (compactCharList_ o).

Section Manager.

Variable w : World.

(** [tachyfont.IncrementalFont.reportError]. *)
Definition reportError (errNum : string) : Chain unit :=
  emit (ReportError (FILE_ID ++ errNum)%string).

Definition addLog (id : string) (numerator denominator : Z) : Chain unit :=
  emit (AddLog id numerator denominator).

(** [goog.asserts.assert]: throws when assertions are enabled. *)
Definition goog_asserts_assert (condition : State -> bool) : Chain unit :=
  fun s =>
    if ENABLE_ASSERTS w && negb (condition s)
    then (Rejected AssertionError, s)
    else (Resolved tt, s).

Definition assert_haveReadFileInfo : Chain unit :=
  goog_asserts_assert (fun s => haveReadFileInfo_ (this s)).

(** *** The collaborators, as the manager calls them *)

Definition getPrecedingPromise : Chain unit :=
  call GetPrecedingPromise (chained_getPrecedingPromise w) id.

Definition requestCodepoints (codes : list Z)
  : Chain (option GlyphBundleResponse) :=
  call (RequestCodepoints codes)
    (fun h => backend_requestCodepoints w h codes) id.

Definition requestFontBase : Chain (list Z) :=
  call RequestFontBase (backend_requestFontBase w) id.

(** Modelled from the spec: [tachyfont.Persist] is not part of the sources
    at hand.  [deleteDatabase] removes the database, [openIndexedDb]
    creates it when it is absent, [getStores] reads and [putStores]
    replaces the stored values as a unit and resolves with them. *)
Definition deleteDatabase : Chain unit :=
  call DeleteDatabase (persist_deleteDatabase w) (fun _ => NoDatabase).

Definition openIndexedDb : Chain unit :=
  call OpenIndexedDb (persist_openIndexedDb w)
    (fun d => match d with NoDatabase => EmptyStores | _ => d end).

Definition getStores_metadata : Chain (option Metadata) :=
  fun s =>
    call GetStores
      (fun h =>
         match persist_getStores w h with
         | Resolved _ =>
             Resolved match idb s with
                      | Stores v => Some (stored_metadata v)
                      | _ => None
                      end
         | Rejected e => Rejected e
         end) id s.

Definition putStores (newValues : StoreValues) : Chain StoreValues :=
  call PutStores
    (fun h =>
       match persist_putStores w h with
       | Resolved _ => Resolved newValues
       | Rejected e => Rejected e
       end)
    (fun _ => Stores newValues).

(** Modelled from the spec: [tachyfont.CompactCff] is not part of the
    sources at hand.  [clearDataStores] is the transform's
    [clear(fontInfo) -> ok]: the stores are left empty. *)
Definition clearDataStores : Chain unit :=
  call ClearDataStores (compactCff_clearDataStores w) (fun _ => EmptyStores).

Definition injectChars (neededCodes : list Z) : Chain CompactCff :=
  call (InjectChars neededCodes)
    (fun h => compactCff_injectChars w h neededCodes) id.

Definition setFont : Chain string :=
  call SetFont (browser_setFont w) id.

(** Modelled from the spec: [tachyfont.Promise.Encapsulated] is not part
    of the sources at hand.  The character list is "set once": resolving
    or rejecting a settled promise changes nothing, and the chains below
    run once the promise has settled. *)
Definition getCompactCharList : Chain charmap :=
  fun s => (compactCharList_ (this s), s).

Definition compactCharList_resolve (charlist : charmap) : Chain unit :=
  Promise_resolve tt.

(** *** [dropDb] *)
Definition dropDb : Chain unit :=
  thenCatch deleteDatabase
    (fun _ => reportError DELETE_IDB ;; Promise_reject NoReason).

(** *** [handleFingerprintMismatch] *)
Definition handleFingerprintMismatch {A : Type} : Chain A :=
  reportError FINGERPRINT_MISMATCH ;;
  (dropDb ;; Promise_reject (Reason "deleted database")).

(** *** [checkFingerprint] *)
Definition checkFingerprint (bundleResponse : option GlyphBundleResponse)
  : Chain (option GlyphBundleResponse) :=
  match bundleResponse with
  | None => Promise_resolve bundleResponse
  | Some bundle =>
      assert_haveReadFileInfo ;;
      (let! fingerprint := gets (fun s => sha1_fingerprint_ (this s)) in
       if String.eqb fingerprint (signature bundle)
       then Promise_resolve bundleResponse
       else Promise_reject (Reason "reject fingerprint"))
  end.

(** *** [fetchChars] *)
Definition fetchChars (requestedCodes : list Z)
  : Chain (option GlyphBundleResponse) :=
  if (length requestedCodes =? 0)%nat
  then Promise_reject (Reason "no chars to fetch")
  else
    thenCatch
      (let! bundleResponse := requestCodepoints requestedCodes in
       checkFingerprint bundleResponse)
      (fun _ => handleFingerprintMismatch).

(** *** [calcNeededChars] *)

(** The call of [possibly_obfuscate] on the live character list. *)
Definition obfuscate_step (neededCodes : list Z) (charlist : charmap)
    (loadableCodepoints : SparseBitArray) : Chain (list Z * charmap) :=
  fun s =>
    let r := possibly_obfuscate (noObfuscate w) (random w (history s))
               neededCodes charlist loadableCodepoints in
    (Resolved r,
     mkState (set_compactCharList (this s) (Resolved (snd r)))
       (idb s) (history s) (timers s)).

Definition mark_step (neededCodes : list Z) (charlist : charmap)
  : Chain unit :=
  modify_this (fun o =>
    let r := mark_loop neededCodes charlist (charsToLoad_ o) in
    set_charsToLoad (set_compactCharList o (Resolved (fst r))) (snd r)).

(** [setTimeout(function() { this.loadChars(); }.bind(this), 1)]. *)
Definition setTimeout_loadChars : Chain unit :=
  fun s =>
    (Resolved tt,
     mkState (this s) (idb s) (history s ++ [SetTimeoutLoadChars])
       (S (timers s))).

Definition calcNeededChars_then (charArray : list jsstring)
    (charlist : charmap) : Chain (list Z) :=
  let! loadable := gets (fun s => loadableCodepoints_ (this s)) in
  let neededCodes := fst (needed_loop loadable charArray charlist []) in
  let missCount := Z.of_nat (length neededCodes) in
  addLog MISS_COUNT missCount 1 ;;
  addLog MISS_RATE (missCount * 100) (Z.of_nat (length charArray)) ;;
  if (length neededCodes =? 0)%nat then Promise_resolve neededCodes
  else
    assert_haveReadFileInfo ;;
    (let! obfuscated := obfuscate_step neededCodes charlist loadable in
     let! maximumRequestSize :=
       gets (fun s => maximumRequestSize_ (this s)) in
     let remaining := remaining_chunk maximumRequestSize (fst obfuscated) in
     let chunk := head_chunk maximumRequestSize (fst obfuscated) in
     mark_step chunk (snd obfuscated) ;;
     (if (length remaining =? 0)%nat then Promise_resolve tt
      else setTimeout_loadChars) ;;
     Promise_resolve (sort_numeric chunk)).

Definition calcNeededChars : Chain (list Z) :=
  let! charArray := gets (fun s => map fst (charsToLoad_ (this s))) in
  if (length charArray =? 0)%nat then Promise_resolve []
  else
    let! charlist :=
      thenCatch getCompactCharList
        (fun e =>
           reportError REJECTED_GET_COMPACT_CHARLIST ;; Promise_reject e) in
    calcNeededChars_then charArray charlist.

(** *** [saveNewCompactFont] *)

(** The rejection handler of the transaction closes the database and builds
    a rejected promise that it does not return: the handler returns
    [undefined], here [None]. *)
Definition saveNewCompactFont (fontTableData : FontTableData)
  : Chain (option StoreValues) :=
  openIndexedDb ;;
  then2
    (let! getData := getStores_metadata in
     let newValues :=
       mkStoreValues (sfnt_fontData fontTableData)
         (table_fileInfo fontTableData)
         (table_charList fontTableData)
         (match getData with
          | Some metadata => metadata
          | None => table_metadata fontTableData
          end) in
     putStores newValues)
    (fun data => emit CloseDb ;; Promise_resolve (Some data))
    (fun e => emit CloseDb ;; Promise_resolve None).

(** *** [processFontbase] *)

(** [processUrlBase] and the compaction are the binary transform; they run
    synchronously and an exception of theirs rejects the enclosing
    callback. *)
Definition processFontbase (urlBaseBytes : list Z)
  : Chain CompactFontWorkingData :=
  (let! dt := gets (fun s => elapsed w (history s)) in
   addLog URL_GET_BASE dt 1) ;;
  match transform_decodeBase w urlBaseBytes with
  | Rejected e => Promise_reject e
  | Resolved compactFontTableData =>
      let! newData :=
        thenCatch (saveNewCompactFont compactFontTableData)
          (fun e =>
             reportError SAVE_NEW_COMPACT ;;
             (clearDataStores ;; Promise_reject e)) in
      match newData with
      | None => Promise_reject TypeError
      | Some values =>
          Promise_resolve
            (mkWorkingData (stored_fontBytes values)
               (stored_fileInfo values) (stored_charList values))
      end
  end.

(** *** [getCompactFontFromUrl] *)
Definition getCompactFontFromUrl : Chain CompactFontWorkingData :=
  let! urlBaseBytes := requestFontBase in
  processFontbase urlBaseBytes.

(** *** [injectCompact] *)
Definition injectCompact (neededCodes : list Z)
    (bundleResponse : GlyphBundleResponse) : Chain CompactCff :=
  let! compactCff :=
    thenCatch (injectChars neededCodes)
      (fun e =>
         reportError INJECT_FONT_INJECT_CHARS ;;
         (thenCatch deleteDatabase (fun _ => Promise_resolve tt) ;;
          Promise_reject e)) in
  assert_haveReadFileInfo ;;
  thenCatch
    (let! blobUrl := setFont in
     modify_this (fun o => set_blobUrl o (Some blobUrl)) ;;
     (match cff_charList compactCff with
      | Some charlist => compactCharList_resolve charlist
      | None => Promise_resolve tt
      end ;;
      Promise_resolve compactCff))
    (fun e => reportError INJECT_FONT_COMPACT ;; Promise_reject e).

(** *** [loadChars] *)

(** The callback that receives the bundle: the first injection is started
    and not returned, so the retry handler only sees a rejection of
    [getCompactCharList]. *)
Definition loadChars_inject (neededCodes : list Z)
    (bundleResponse : option GlyphBundleResponse) : Chain unit :=
  match bundleResponse with
  | None => Promise_reject (Reason "bundleResponse == null")
  | Some bundle =>
      (if glyphCount bundle =? 0 then Promise_resolve tt
       else modify_this (fun o => set_needToSetFont o true)) ;;
      thenCatch
        (thenCatch
           (getCompactCharList ;;
            detached (injectCompact neededCodes bundle))
           (fun e =>
              let! refetched :=
                gets (fun s => refetchedCompact_ (this s)) in
              if refetched then Promise_reject e
              else
                modify_this (fun o => set_refetchedCompact o true) ;;
                (let! compactWorkingData := getCompactFontFromUrl in
                 compactCharList_resolve (charList compactWorkingData)) ;;
                (injectCompact neededCodes bundle ;; Promise_resolve tt)))
        (fun e => reportError INJECT_COMPACT ;; clearDataStores)
  end.

(** [finishPrecedingCharsRequest.resolve()]. *)
Definition finishPrecedingCharsRequest_resolve : Chain unit :=
  emit ResolveChained.

Definition loadChars : Chain unit :=
  thenAlways
    (thenCatch
       (getPrecedingPromise ;;
        assert_haveReadFileInfo ;;
        thenCatch
          (let! fetched :=
             then2 calcNeededChars
               (fun neededCodes_ =>
                  if (length neededCodes_ =? 0)%nat
                  then Promise_reject (Reason "no chars to load")
                  else
                    let! bundleResponse := fetchChars neededCodes_ in
                    Promise_resolve (neededCodes_, bundleResponse))
               (fun e =>
                  reportError CALC_NEEDED_CHARS ;; Promise_reject e) in
           loadChars_inject (fst fetched) (snd fetched))
          (fun e => Promise_resolve tt))
       (fun e =>
          finishPrecedingCharsRequest_resolve ;;
          reportError LOAD_CHARS_GET_LOCK))
    finishPrecedingCharsRequest_resolve.

End Manager.

(* ===================================================================== *)
(** ** The page's event loop and observations on a cycle *)
(* ===================================================================== *)

(** Timers fire once the running chain has returned: each pending timer
    starts one further [loadChars]. *)
Fixpoint run_timers (w : World) (fuel : nat) (s : State) : State :=
  match fuel with
  | O => s
  | S fuel' =>
      match timers s with
      | O => s
      | S pending =>
          run_timers w fuel'
            (snd (loadChars w
                    (mkState (this s) (idb s) (history s) pending)))
      end
  end.

(** The needed codes a cycle starting in [s] computes from [charlist]. *)
Definition neededCodes_of (s : State) (charlist : charmap) : list Z :=
  fst (needed_loop (loadableCodepoints_ (this s))
         (map fst (charsToLoad_ (this s))) charlist []).

(** The two reports made before the obfuscation. *)
Definition miss_logs (s : State) (charlist : charmap) : list Event :=
  [AddLog MISS_COUNT (Z.of_nat (length (neededCodes_of s charlist))) 1;
   AddLog MISS_RATE (Z.of_nat (length (neededCodes_of s charlist)) * 100)
     (Z.of_nat (length (map fst (charsToLoad_ (this s)))))].

(** The result of the diff-and-obfuscate step of a cycle starting in [s]:
    the padded sequence and the character list as the padding leaves it. *)
Definition obfuscated_of (w : World) (s : State) (charlist : charmap)
  : list Z * charmap :=
  possibly_obfuscate (noObfuscate w)
    (random w (history s ++ miss_logs s charlist))
    (neededCodes_of s charlist) charlist (loadableCodepoints_ (this s)).

Definition is_fault (e : Event) : bool :=
  match e with
  | Called _ false => true
  | _ => false
  end.

Definition is_call (e : Event) : bool :=
  match e with
  | Called _ _ => true
  | _ => false
  end.

(** The events of the chain of cycles: taking the lock and releasing it. *)
Definition is_chain_event (e : Event) : bool :=
  match e with
  | Called GetPrecedingPromise _ | ResolveChained => true
  | _ => false
  end.

Definition is_report (e : Event) : bool :=
  match e with
  | ReportError _ => true
  | _ => false
  end.

Definition is_injection (e : Event) : bool :=
  match e with
  | Called (InjectChars _) _ => true
  | _ => false
  end.

Definition is_store_mutation (e : Event) : bool :=
  match e with
  | Called DeleteDatabase _ | Called PutStores _
  | Called ClearDataStores _ | Called (InjectChars _) _ => true
  | _ => false
  end.

(** Every rejection of a collaborator, the exempted ones apart, is followed
    by an error report. *)
Fixpoint faults_reported_except (exempt : Event -> bool)
    (events : list Event) : bool :=
  match events with
  | [] => true
  | e :: rest =>
      (if is_fault e && negb (exempt e) then existsb is_report rest
       else true)
      && faults_reported_except exempt rest
  end.

Definition every_fault_reported (events : list Event) : bool :=
  faults_reported_except (fun _ => false) events.

(** A history that holds a fault also holds a report. *)
Definition reports_faults (events : list Event) : Prop :=
  existsb is_fault events = true -> existsb is_report events = true.

(** The report the code makes when a collaborator called in a cycle
    rejects: the handler of the lock, [handleFingerprintMismatch] for the
    request, [dropDb] for the deletion of the database, and the two handlers
    of [injectCompact].  The other collaborators have no report in a cycle. *)
Definition report_of_fault (c : Call) : option string :=
  match c with
  | GetPrecedingPromise => Some LOAD_CHARS_GET_LOCK
  | RequestCodepoints _ => Some FINGERPRINT_MISMATCH
  | DeleteDatabase => Some DELETE_IDB
  | InjectChars _ => Some INJECT_FONT_INJECT_CHARS
  | SetFont => Some INJECT_FONT_COMPACT
  | _ => None
  end.

Definition is_report_of (errNum : string) (e : Event) : bool :=
  match e with
  | ReportError errorCode => String.eqb errorCode (FILE_ID ++ errNum)
  | _ => false
  end.

(** The deletion of the database that [injectCompact] starts right after it
    has reported a failed injection, and whose rejection it swallows. *)
Definition swallowed_deletion (previous : option Event) (e : Event) : bool :=
  match e, previous with
  | Called DeleteDatabase false, Some report =>
      is_report_of INJECT_FONT_INJECT_CHARS report
  | _, _ => false
  end.

(** Every rejection of a collaborator is followed by the report the code
    makes for it, the swallowed deletion apart; [previous] is the event
    before [events]. *)
Fixpoint faults_accounted (previous : option Event) (events : list Event)
  : bool :=
  match events with
  | [] => true
  | e :: rest =>
      match e with
      | Called c false =>
          swallowed_deletion previous e
          || match report_of_fault c with
             | Some errNum => existsb (is_report_of errNum) rest
             | None => false
             end
      | _ => true
      end
      && faults_accounted (Some e) rest
  end.

(** The events a [loadChars] cycle started in [s] adds to the history. *)
Definition cycle_events (w : World) (s : State) : list Event :=
  skipn (length (history s)) (history (snd (loadChars w s))).

(** A character as the page hands it over: one code unit that is not a high
    surrogate, or a high surrogate followed by a low one. *)
Definition well_formed_char (c : jsstring) : bool :=
  match c with
  | [cc] => (0 <=? cc) && (cc <=? 0xFFFF)
            && negb ((0xD800 <=? cc) && (cc <=? 0xDBFF))
  | [hi; lo] => (0xD800 <=? hi) && (hi <=? 0xDBFF)
                && (0xDC00 <=? lo) && (lo <=? 0xDFFF)
  | _ => false
  end.

(* ===================================================================== *)
(** ** The steps of a cycle, as the statements below name them *)
(* ===================================================================== *)

(** What makes [x] a decoy of a run of the padding from [al] to [al']. *)
Definition decoy_of (codes : list Z) (loadable : SparseBitArray)
    (al al' : charmap) (x : Z) : Prop :=
  isSet loadable x = true
  /\ al !! stringFromCodePoint x = None
  /\ al' !! stringFromCodePoint x = Some 1
  /\ exists code, In code codes
       /\ (0 <= code -> Z.max 0 (code - 128) <= x <= code + 128).

(** [goog.asserts.assert(this.haveReadFileInfo_)] passes in [s]. *)
Definition asserts_hold (w : World) (s : State) : bool :=
  negb (ENABLE_ASSERTS w) || haveReadFileInfo_ (this s).

(** [s] with further events in its history. *)
Definition logged (s : State) (events : list Event) : State :=
  mkState (this s) (idb s) (history s ++ events) (timers s).

(** The state [calcNeededChars] leaves when it reaches its end: the chunk is
    marked in the live character list and removed from [charsToLoad_], and a
    timer is set when codes remain. *)
Definition state_after_calc (w : World) (s : State) (charlist : charmap)
  : State :=
  let obf := obfuscated_of w s charlist in
  let max := maximumRequestSize_ (this s) in
  let marked :=
    mark_loop (head_chunk max (fst obf)) (snd obf) (charsToLoad_ (this s)) in
  mkState
    (set_charsToLoad
       (set_compactCharList (this s) (Resolved (fst marked))) (snd marked))
    (idb s)
    (history s ++ miss_logs s charlist
       ++ match remaining_chunk max (fst obf) with
          | [] => []
          | _ => [SetTimeoutLoadChars]
          end)
    (match remaining_chunk max (fst obf) with
     | [] => timers s
     | _ => S (timers s)
     end).

(** What [handleFingerprintMismatch] does from [s]: the mismatch is reported
    and the database is dropped, or the failed deletion is reported. *)
Definition mismatch_events (w : World) (s : State) : list Event :=
  let reported := [ReportError (FILE_ID ++ FINGERPRINT_MISMATCH)] in
  match persist_deleteDatabase w (history s ++ reported) with
  | Resolved _ => reported ++ [Called DeleteDatabase true]
  | Rejected _ =>
      reported ++ [Called DeleteDatabase false;
                   ReportError (FILE_ID ++ DELETE_IDB)]
  end.

Definition mismatch_result (w : World) (s : State) : Err * Database :=
  match persist_deleteDatabase w
          (history s ++ [ReportError (FILE_ID ++ FINGERPRINT_MISMATCH)]) with
  | Resolved _ => (Reason "deleted database", NoDatabase)
  | Rejected _ => (NoReason, idb s)
  end.

(** The cycle once the lock is held and the assertion has passed: the chain
    diff, fetch, inject of [loadChars], up to the handler that swallows its
    rejection. *)
Definition cycle_body (w : World) (s : State) : State :=
  match calcNeededChars w s with
  | (Rejected e, s1) => logged s1 [ReportError (FILE_ID ++ CALC_NEEDED_CHARS)]
  | (Resolved [], s1) => s1
  | (Resolved neededCodes, s1) =>
      match fetchChars w neededCodes s1 with
      | (Rejected e, s2) => s2
      | (Resolved bundleResponse, s2) =>
          snd (loadChars_inject w neededCodes bundleResponse s2)
      end
  end.

(* ===================================================================== *)
(** ** Sample fonts, states and worlds *)
(* ===================================================================== *)

(** A font supporting [a], [b] and [c], with fingerprint [abc123]. *)
Definition sample_fileInfo : FileInfo := mkFileInfo [97; 98; 99] false "abc123".

Definition sample_stored : StoreValues :=
  mkStoreValues [0; 1; 0; 0] sample_fileInfo ∅ [].

Definition sample_tables : FontTableData :=
  mkFontTableData [0; 1; 0; 0] sample_fileInfo ∅ [].

Definition sample_cff : CompactCff := mkCompactCff [0; 1; 0; 0] None.

Definition sample_font (charsToLoad : list (jsstring * Z))
    (req_size : option Z) : obj :=
  mkObj false None false true false "abc123" (list_to_set [97; 98; 99])
    charsToLoad (maximumRequestSize_of req_size) (Resolved ∅).

(** The manager with its database persisted and nothing in flight. *)
Definition sample_state (o : obj) : State :=
  mkState o (Stores sample_stored) [] 0.

(** A world in which the backend answers every request with [request], the
    persistent store settles every call with [persist], the transform
    settles every injection with [inject], and all else succeeds. *)
Definition sample_world (noObf : bool)
    (request : outcome (option GlyphBundleResponse))
    (persist : outcome unit) (inject : outcome CompactCff) : World :=
  mkWorld true noObf (fun _ i => 7 * Z.of_nat i) (fun _ => 0)
    (fun _ => Resolved tt) (fun _ _ => request) (fun _ => Resolved [])
    (fun _ => persist) (fun _ => persist) (fun _ => persist)
    (fun _ => persist) (fun _ => Resolved tt) (fun _ _ => inject)
    (fun _ => Resolved "blob:1"%string) (fun _ => Resolved sample_tables).

Definition matching_bundle : GlyphBundleResponse := mkBundle 1 [] "abc123".

Definition stale_bundle : GlyphBundleResponse := mkBundle 1 [] "xyz789".

(** Twenty-one letters, [u] down to [a], requested in that order from a font
    that supports them all, with a request size of twenty. *)
Definition descending_letters : list (jsstring * Z) :=
  map (fun n => ([117 - Z.of_nat n], 1)) (seq 0 21).

Definition descending_font : obj :=
  mkObj false None false true false "abc123"
    (list_to_set (map (fun n => 97 + Z.of_nat n) (seq 0 21)))
    descending_letters (maximumRequestSize_of (Some 20)) (Resolved ∅).

(* ===================================================================== *)
(** ** The padding of the request [[65]] *)
(* ===================================================================== *)

(** The code point the padding of the request [[65]] draws at iteration
    [i]: the window starts at 0, since [65 - 128] is negative, and ends at
    [65 + 128]. *)
Definition drawn_65 (draws : nat -> Z) (i : nat) : Z :=
  uniformRandomFloor 0 (65 + OBFUSCATION_RANGE / 2) (draws i).

(** A code point that makes a decoy beside the codes of [code_map]: the
    font can load it, its character has not been requested, and it is not
    in [code_map]. *)
Definition makes_decoy (loadable : SparseBitArray) (al : charmap)
    (code_map : list Z) (x : Z) : bool :=
  isSet loadable x
  && bool_decide (al !! stringFromCodePoint x = None)
  && negb (existsb (Z.eqb x) code_map).

(** The decoys the iterations [i .. i + tries - 1] of the padding of
    [[65]] can find. *)
Definition found_from (draws : nat -> Z) (loadable : SparseBitArray)
    (al : charmap) (code_map : list Z) (i tries : nat) : gset Z :=
  list_to_set
    (List.filter (makes_decoy loadable al code_map)
       (map (drawn_65 draws) (seq i tries))).

(** The decoys the 290 tries of the padding of [[65]] can find: the
    distinct code points, among the 290 draws, that the font can load,
    whose character was not requested before the call, and that differ
    from 65. *)
Definition found_65 (draws : nat -> Z) (al : charmap)
    (loadable : SparseBitArray) : gset Z :=
  found_from draws loadable al [65] 0 290.

(* ===================================================================== *)
(** ** [tachyfont.js]: strings *)
(* ===================================================================== *)

(** A high surrogate, [cc >= 0xD800 && cc <= 0xDBFF]. *)
Definition is_high_surrogate (cc : Z) : bool :=
  (0xD800 <=? cc) && (cc <=? 0xDBFF).

(** [tachyfont.stringToChars]: the characters of a string, a high surrogate
    taking the code unit after it along; [charAt] past the end is the
    empty string. *)
Fixpoint stringToChars (str : jsstring) : list jsstring :=
  match str with
  | [] => []
  | cc :: rest =>
      if is_high_surrogate cc then
        match rest with
        | [] => [[cc]]
        | next :: rest' => [cc; next] :: stringToChars rest'
        end
      else [cc] :: stringToChars rest
  end.

(** [tachyfont.fontId]. *)
Definition fontId (family weight : string) : string :=
  (family ++ ";" ++ weight)%string.

(** The string holds the character [;], of code 59. *)
Fixpoint has_semicolon (s : string) : bool :=
  match s with
  | EmptyString => false
  | String c s' => Ascii.eqb c (Ascii.ascii_of_nat 59) || has_semicolon s'
  end.

(* ===================================================================== *)
(** ** What a step leaves alone *)
(* ===================================================================== *)

(** The fields of the manager other than the character requests and the
    character list. *)
Definition font_settings (o : obj)
  : bool * option string * bool * bool * bool * string * SparseBitArray * Z :=
  (refetchedCompact_ o, blobUrl_ o, needToSetFont_ o, haveReadFileInfo_ o,
   isTtf_ o, sha1_fingerprint_ o, loadableCodepoints_ o,
   maximumRequestSize_ o).

(* ===================================================================== *)
(** ** The cycle of [loadChars], case by case *)
(* ===================================================================== *)

(** [s] once the preceding request has finished. *)
Definition locked (s : State) : State :=
  logged s [Called GetPrecedingPromise true].

(** [if (glyphCount != 0) { this.needToSetFont_ = true; }]. *)
Definition noted (bundle : GlyphBundleResponse) (s : State) : State :=
  mkState
    (if glyphCount bundle =? 0 then this s
     else set_needToSetFont (this s) true)
    (idb s) (history s) (timers s).

(** The ways a cycle started in [s] ends, with the state it leaves. *)
Inductive cycle_outcome (w : World) (s : State) : State -> Prop :=
| cycle_not_started (ok : bool) :
    cycle_outcome w s
      (logged s [Called GetPrecedingPromise ok; ResolveChained;
                 ReportError (FILE_ID ++ LOAD_CHARS_GET_LOCK);
                 ResolveChained])
| cycle_calc_rejected (e : Err) (s1 : State) :
    calcNeededChars w (locked s) = (Rejected e, s1) ->
    cycle_outcome w s
      (logged s1 [ReportError (FILE_ID ++ CALC_NEEDED_CHARS);
                  ResolveChained])
| cycle_nothing_needed (s1 : State) :
    calcNeededChars w (locked s) = (Resolved [], s1) ->
    cycle_outcome w s (logged s1 [ResolveChained])
| cycle_fetch_rejected (charlist : charmap) (r : list Z) (e : Err)
    (s2 : State) :
    compactCharList_ (this s) = Resolved charlist ->
    r <> [] ->
    calcNeededChars w (locked s)
    = (Resolved r, state_after_calc w (locked s) charlist) ->
    fetchChars w r (state_after_calc w (locked s) charlist)
    = (Rejected e, s2) ->
    cycle_outcome w s (logged s2 [ResolveChained])
| cycle_null_bundle (charlist : charmap) (r : list Z) :
    compactCharList_ (this s) = Resolved charlist ->
    r <> [] ->
    calcNeededChars w (locked s)
    = (Resolved r, state_after_calc w (locked s) charlist) ->
    backend_requestCodepoints w
      (history (state_after_calc w (locked s) charlist)) r
    = Resolved None ->
    cycle_outcome w s
      (logged (state_after_calc w (locked s) charlist)
         [Called (RequestCodepoints r) true; ResolveChained])
| cycle_injected (charlist : charmap) (r : list Z)
    (bundle : GlyphBundleResponse) :
    compactCharList_ (this s) = Resolved charlist ->
    r <> [] ->
    calcNeededChars w (locked s)
    = (Resolved r, state_after_calc w (locked s) charlist) ->
    backend_requestCodepoints w
      (history (state_after_calc w (locked s) charlist)) r
    = Resolved (Some bundle) ->
    signature bundle = sha1_fingerprint_ (this s) ->
    cycle_outcome w s
      (logged
         (snd (injectCompact w r bundle
                 (noted bundle
                    (logged (state_after_calc w (locked s) charlist)
                       [Called (RequestCodepoints r) true]))))
         [ResolveChained]).

(** The events of the one-time refetch of the font base in [loadChars] and
    of the handler that follows it. *)
Definition is_refetch (e : Event) : bool :=
  match e with
  | Called RequestFontBase _ | Called OpenIndexedDb _ | Called GetStores _
  | Called PutStores _ | Called ClearDataStores _ | CloseDb => true
  | ReportError code =>
      String.eqb code (FILE_ID ++ INJECT_COMPACT)
      || String.eqb code (FILE_ID ++ SAVE_NEW_COMPACT)
  | _ => false
  end.

Definition is_request (e : Event) : bool :=
  match e with
  | Called (RequestCodepoints _) _ => true
  | _ => false
  end.

(* ===================================================================== *)
(** ** [tachyfont.IncrementalFont]: acquiring the base *)
(* ===================================================================== *)

Definition COMPACT_GET_DB : string := "52".
Definition COMPACT_CHECK_CMAP : string := "54".
Definition GET_COMPACT_FROM_URL : string := "56".

(** [setFileInfo]: the keys of [cmapMapping] are set in
    [loadableCodepoints_], one after the other. *)
Definition setFileInfo (fileInfo : FileInfo) (o : obj) : obj :=
  mkObj (refetchedCompact_ o) (blobUrl_ o) (needToSetFont_ o)
    true (isTtf fileInfo) (sha1_fingerprint fileInfo)
    (fold_left (fun bits codepoint => setBit codepoint bits)
       (cmapMapping fileInfo) (loadableCodepoints_ o))
    (charsToLoad_ o) (maximumRequestSize_ o) (compactCharList_ o).

(** ['missing: ' + (!fontData ? 'f' : '_') + (!fileInfo ? 'i' : '_')
    + (!charList ? 'c' : '_')]. *)
Definition missing_message (noFontData noFileInfo noCharList : bool)
  : string :=
  ("missing: " ++ (if noFontData then "f" else "_")
     ++ (if noFileInfo then "i" else "_")
     ++ (if noCharList then "c" else "_"))%string.

Definition is_undefined {A : Type} (v : option A) : bool :=
  match v with
  | None => true
  | Some _ => false
  end.

Section Acquisition.

Variable w : World.

(** Modelled from the spec: [tachyfont.Cmap.checkCharacters] is not part of
    the sources at hand.  It is the validation that cross-checks "the
    CharacterList and FileInfo against embedded glyph presence", and it
    answers whether the data is in order. *)
Variable checkCharacters : FileInfo -> list Z -> charmap -> bool.

(** Modelled from the spec: [tachyfont.Persist.getStores] on the compact
    stores reads the values of the font as a unit, "all tables or none". *)
Definition getStores_compact
  : Chain (option (list Z) * option FileInfo * option charmap) :=
  fun s =>
    call GetStores
      (fun h =>
         match persist_getStores w h with
         | Resolved _ =>
             Resolved match idb s with
                      | Stores v =>
                          (Some (stored_fontBytes v),
                           Some (stored_fileInfo v),
                           Some (stored_charList v))
                      | _ => (None, None, None)
                      end
         | Rejected e => Rejected e
         end) id s.

(** *** [getCompactFontFromPersistence] *)
Definition getCompactFontFromPersistence : Chain CompactFontWorkingData :=
  thenCatch (openIndexedDb w)
    (fun e => reportError COMPACT_GET_DB ;; Promise_reject e) ;;
  let! arr :=
    then2 getStores_compact
      (fun data => emit CloseDb ;; Promise_resolve data)
      (fun e => emit CloseDb ;; Promise_reject e) in
  match arr with
  | (Some fontData, Some fileInfo, Some charList) =>
      if checkCharacters fileInfo fontData charList
      then Promise_resolve (mkWorkingData fontData fileInfo charList)
      else reportError COMPACT_CHECK_CMAP ;; Promise_reject NoReason
  | (fontData, fileInfo, charList) =>
      Promise_reject
        (Reason (missing_message (is_undefined fontData)
                   (is_undefined fileInfo) (is_undefined charList)))
  end.

(** *** [getCompactFontFromMergedData] *)
Definition getCompactFontFromMergedData (urlBaseBytes : option (list Z))
  : Chain CompactFontWorkingData :=
  match urlBaseBytes with
  | Some bytes => processFontbase w bytes
  | None => Promise_reject NoReason
  end.

(** Modelled from the spec: [tachyfont.Promise.Encapsulated] is not part
    of the sources at hand.  [resolve] and [reject] settle the promise
    when it is pending and do nothing otherwise.  [pending] tells whether
    [compactCharList_] is pending, as it is in a manager that has just
    been constructed; the field of the manager then holds nothing of
    meaning until the promise is settled. *)
Definition compactCharList_settle (pending : bool) (r : outcome charmap)
  : Chain unit :=
  if pending then modify_this (fun o => set_compactCharList o r)
  else Promise_resolve tt.

(** *** [getCompactFont]

    [fontbase] is [fontbases.getData(this.fontId_)].  Every path through
    the function settles [compactCharList_] once, as its last step. *)
Definition getCompactFont (pending : bool) (fontbase : option (list Z))
  : Chain CompactFontWorkingData :=
  thenCatch
    (let! compactWorkingData := getCompactFontFromPersistence in
     modify_this (setFileInfo (fileInfo compactWorkingData)) ;;
     compactCharList_settle pending
       (Resolved (charList compactWorkingData)) ;;
     Promise_resolve compactWorkingData)
    (fun _ =>
       thenCatch
         (let! mergeWorkingData := getCompactFontFromMergedData fontbase in
          modify_this (setFileInfo (fileInfo mergeWorkingData)) ;;
          compactCharList_settle pending
            (Resolved (charList mergeWorkingData)) ;;
          Promise_resolve mergeWorkingData)
         (fun _ =>
            thenCatch
              (let! compactWorkingData := getCompactFontFromUrl w in
               modify_this (setFileInfo (fileInfo compactWorkingData)) ;;
               compactCharList_settle pending
                 (Resolved (charList compactWorkingData)) ;;
               Promise_resolve compactWorkingData)
              (fun e =>
                 compactCharList_settle pending (Rejected NoReason) ;;
                 reportError GET_COMPACT_FROM_URL ;;
                 (clearDataStores w ;; Promise_reject e)))).

End Acquisition.

(** The state in which the working data [d] has been taken over:
    [setFileInfo], then the character list is resolved. *)
Definition adopt (pending : bool) (d : CompactFontWorkingData) (s : State)
  : State :=
  mkState
    (if pending
     then set_compactCharList (setFileInfo (fileInfo d) (this s))
            (Resolved (charList d))
     else setFileInfo (fileInfo d) (this s))
    (idb s) (history s) (timers s).

(** The requests of the font base to the network. *)
Definition is_base_request (e : Event) : bool :=
  match e with
  | Called RequestFontBase _ => true
  | _ => false
  end.

(* ===================================================================== *)
(** ** [tachyfont.js]: the listeners on the text of the page *)
(* ===================================================================== *)

(** A node of the document, named by a number. *)
Abbreviation Node := Z.















(* ===================================================================== *)
(** ** [tachyfont.js]: reporting errors before the reporter exists *)
(* ===================================================================== *)

(** [tachyfont.Error_]. *)
Module Error_.
Definition FILE_ID : string := "ETF".
Definition WINDOW_ON_ERROR : string := "01".
Definition SET_FONT : string := "02".
Definition GET_BASE : string := "03".
End Error_.

(** What reporting depends on and leaves behind: [tachyfont.reporter],
    which is unset or the reporter made for a report URL; the calls of
    [delayedReportError_] that wait on their timers, with their [obj], the
    oldest first (the timers all run for 1000 ms, so they fire in the
    order they were set); and the calls of [reporter.reportError] made so
    far, with their three arguments.  An error object is kept as its
    text. *)
Record Reporting : Type := mkReporting {
  reporter : option string;
  delayed : list (string * string);
  reporter_reportError : list (string * string * string)
}.

(** [tachyfont.reportError_]. *)
Definition reportError_ (errNum errInfo : string) (p : Reporting)
  : Reporting :=
  match reporter p with
  | Some _ =>
      mkReporting (reporter p) (delayed p)
        (reporter_reportError p
           ++ [((Error_.FILE_ID ++ errNum)%string, "000"%string, errInfo)])
  | None =>
      mkReporting (reporter p) (delayed p ++ [(errNum, errInfo)])
        (reporter_reportError p)
  end.

(** [tachyfont.delayedReportError_]. *)
Definition delayedReportError_ (obj : string * string) (p : Reporting)
  : Reporting :=
  reportError_ (fst obj) (snd obj) p.

(** Modelled from the spec: [tachyfont.Reporter] is not part of the
    sources at hand; it is the telemetry the faults are logged to.
    [getReporter] gives the reporter for a URL, and the calls of its
    [reportError] are recorded.

    [tachyfont.initializeReporter]. *)
Definition initializeReporter (reportUrl : string) (p : Reporting)
  : Reporting :=
  match reporter p with
  | Some _ => p
  | None => mkReporting (Some reportUrl) (delayed p) (reporter_reportError p)
  end.

(** What happens to the reporting of a page: an error is reported, the
    reporter is initialized, or the oldest timer fires. *)
Inductive ReportingEvent : Type :=
| Reports (errNum errInfo : string)
| Initializes (reportUrl : string)
| TimerFires.

Definition reporting_step (p : Reporting) (event : ReportingEvent)
  : Reporting :=
  match event with
  | Reports errNum errInfo => reportError_ errNum errInfo p
  | Initializes reportUrl => initializeReporter reportUrl p
  | TimerFires =>
      match delayed p with
      | [] => p
      | obj :: rest =>
          delayedReportError_ obj
            (mkReporting (reporter p) rest (reporter_reportError p))
      end
  end.

Definition reporting_run (events : list ReportingEvent) (p : Reporting)
  : Reporting :=
  fold_left reporting_step events p.

(** The call of [reporter.reportError] an error leads to. *)
Definition report_of (obj : string * string) : string * string * string :=
  ((Error_.FILE_ID ++ fst obj)%string, "000"%string, snd obj).

(** The errors handed to [reportError_] by the page. *)
Fixpoint errors_of (events : list ReportingEvent) : list (string * string) :=
  match events with
  | [] => []
  | Reports errNum errInfo :: rest => (errNum, errInfo) :: errors_of rest
  | _ :: rest => errors_of rest
  end.

(* ===================================================================== *)
(** * Properties *)
(* ===================================================================== *)

(** ** Sorting *)

Lemma insert_numeric_perm x l : Permutation (x :: l) (insert_numeric x l).
Proof.
  induction l as [|y l IH]; simpl; [reflexivity|].
  destruct (x <=? y); [reflexivity|].
  rewrite perm_swap. now apply perm_skip.
Qed.

Lemma sort_numeric_perm l : Permutation l (sort_numeric l).
Proof.
  induction l as [|x l IH]; simpl; [constructor|].
  rewrite <- insert_numeric_perm. now apply perm_skip.
Qed.

Lemma insert_numeric_sorted x l :
  Sorted Z.le l -> Sorted Z.le (insert_numeric x l).
Proof.
  induction l as [|y l IH]; simpl; intros Hs.
  - repeat constructor.
  - destruct (Z.leb_spec x y).
    + constructor; [assumption|]. now constructor.
    + apply Sorted_inv in Hs as [Hs Hhd].
      constructor; [now apply IH|].
      destruct l as [|z l]; simpl.
      * constructor. lia.
      * destruct (Z.leb_spec x z); constructor; try lia.
        now inversion Hhd.
Qed.

Lemma sort_numeric_sorted l : Sorted Z.le (sort_numeric l).
Proof.
  induction l as [|x l IH]; simpl; [constructor|].
  now apply insert_numeric_sorted.
Qed.

Lemma sort_numeric_length l : length (sort_numeric l) = length l.
Proof. symmetry. apply Permutation_length, sort_numeric_perm. Qed.

Lemma sort_numeric_In x l : In x (sort_numeric l) <-> In x l.
Proof.
  split; apply Permutation_in;
    [symmetry|]; apply sort_numeric_perm.
Qed.

(** ** code_map *)

Lemma code_map_set_In x code m :
  In x (code_map_set code m) <-> x = code \/ In x m.
Proof.
  induction m as [|k m IH]; simpl.
  - intuition.
  - destruct (Z.ltb_spec code k); simpl; [intuition|].
    destruct (Z.eqb_spec code k); simpl; [subst; intuition|].
    rewrite IH. intuition.
Qed.

Lemma code_map_set_length code m :
  (length (code_map_set code m) <= S (length m))%nat.
Proof.
  induction m as [|k m IH]; simpl; [lia|].
  destruct (code <? k); simpl; [lia|].
  destruct (code =? k); simpl; lia.
Qed.

Lemma code_map_fold_In x codes : forall m,
  In x (fold_left (fun m code => code_map_set code m) codes m)
  <-> In x codes \/ In x m.
Proof.
  induction codes as [|c codes IH]; simpl; intros m; [intuition|].
  rewrite IH, code_map_set_In. intuition.
Qed.

Lemma code_map_of_In x codes : In x (code_map_of codes) <-> In x codes.
Proof. unfold code_map_of. rewrite code_map_fold_In. simpl. intuition. Qed.

Lemma code_map_fold_length codes : forall m,
  (length (fold_left (fun m code => code_map_set code m) codes m)
   <= length codes + length m)%nat.
Proof.
  induction codes as [|c codes IH]; simpl; intros m; [lia|].
  specialize (IH (code_map_set c m)).
  pose proof (code_map_set_length c m). lia.
Qed.

Lemma code_map_of_length codes :
  (length (code_map_of codes) <= length codes)%nat.
Proof.
  unfold code_map_of. pose proof (code_map_fold_length codes []).
  simpl in *. lia.
Qed.

Lemma code_map_set_lower_bound code m lo :
  lo < code -> Forall (Z.lt lo) m -> Forall (Z.lt lo) (code_map_set code m).
Proof.
  intros Hlo Hm. rewrite List.Forall_forall in *. intros x Hx.
  apply code_map_set_In in Hx as [->|Hx]; auto.
Qed.

(** [code_map] stays in ascending order, each key once: the order in which
    [Object.keys] enumerates it. *)
Lemma code_map_set_ascending code m :
  StronglySorted Z.lt m -> StronglySorted Z.lt (code_map_set code m).
Proof.
  induction m as [|k m IH]; simpl; intros Hm.
  - repeat constructor.
  - apply StronglySorted_inv in Hm as [Hm Hk].
    destruct (Z.ltb_spec code k) as [Hlt|Hge].
    + constructor; [now constructor|].
      constructor; [assumption|].
      eapply List.Forall_impl; [|exact Hk]. intros x Hx. simpl in Hx. lia.
    + destruct (Z.eqb_spec code k) as [->|Hne]; [now constructor|].
      constructor; [now apply IH|].
      apply code_map_set_lower_bound; [lia|assumption].
Qed.

Lemma code_map_of_ascending codes : StronglySorted Z.lt (code_map_of codes).
Proof.
  unfold code_map_of.
  assert (H : forall m, StronglySorted Z.lt m ->
    StronglySorted Z.lt
      (fold_left (fun m code => code_map_set code m) codes m)).
  { induction codes as [|c codes IH]; simpl; intros m Hm; [assumption|].
    now apply IH, code_map_set_ascending. }
  apply H. constructor.
Qed.

(** ** The padding loop *)


Lemma uniformRandomFloor_window code draw :
  0 <= code ->
  let bottom0 := code - OBFUSCATION_RANGE / 2 in
  let bottom := if bottom0 <? 0 then 0 else bottom0 in
  let top := code + OBFUSCATION_RANGE / 2 in
  Z.max 0 (code - 128) <= uniformRandomFloor bottom top draw <= code + 128.
Proof.
  intros Hc. cbv zeta. unfold uniformRandomFloor, OBFUSCATION_RANGE.
  change (256 / 2) with 128.
  destruct (Z.ltb_spec (code - 128) 0).
  - pose proof (Z.mod_pos_bound draw (code + 128 + 1 - 0) ltac:(lia)). lia.
  - pose proof (Z.mod_pos_bound draw (code + 128 + 1 - (code - 128))
                  ltac:(lia)).
    lia.
Qed.

Section LoopFacts.
Variable codes : list Z.
Variable loadable : SparseBitArray.
Variable draws : nat -> Z.

Lemma obfuscate_loop_spec tries : forall i cm al cm' al',
  obfuscate_loop codes loadable draws tries i cm al = (cm', al') ->
  (forall x, In x cm -> In x cm')
  /\ (forall k v, al !! k = Some v -> al' !! k = Some v)
  /\ (forall x, In x cm' -> In x cm \/ decoy_of codes loadable al al' x)
  /\ ((length cm <= 20)%nat -> (length cm' <= 20)%nat).
Proof.
  induction tries as [|tries IH]; intros i cm al cm' al' Hrun;
    simpl in Hrun.
  - inversion Hrun; subst. intuition.
  - destruct (Z.ltb_spec (Z.of_nat (length cm))
                MINIMUM_NON_OBFUSCATION_LENGTH) as [Hlen|Hlen];
      [|inversion Hrun; subst; intuition].
    destruct (nth_error codes (i mod length codes)) as [code|] eqn:Hnth;
      [|now apply IH in Hrun].
    cbv zeta in Hrun.
    set (newCode := uniformRandomFloor _ _ _) in Hrun.
    destruct (isSet loadable newCode) eqn:Hset; simpl in Hrun;
      [|now apply IH in Hrun].
    destruct (al !! stringFromCodePoint newCode) as [v|] eqn:Hal;
      [now apply IH in Hrun|].
    apply IH in Hrun as (Hmono & Hal' & Hdec & Hbound).
    assert (Hin : In code codes) by (eapply nth_error_In; eauto).
    repeat split.
    + intros x Hx. apply Hmono, code_map_set_In. now right.
    + intros k v Hk. apply Hal'.
      destruct (decide (stringFromCodePoint newCode = k)) as [Heq|Hne];
        [congruence|].
      now rewrite lookup_insert_ne.
    + intros x Hx. destruct (Hdec x Hx) as [Hold|Hnew].
      * apply code_map_set_In in Hold as [->|Hold]; [|now left].
        right. repeat split; auto.
        -- apply Hal'. apply lookup_insert_eq.
        -- exists code. split; [assumption|].
           intros Hc. now apply uniformRandomFloor_window.
      * right. destruct Hnew as (H1 & H2 & H3 & H4).
        repeat split; auto.
        destruct (decide (stringFromCodePoint newCode
                          = stringFromCodePoint x)) as [Heq|Hne].
        -- rewrite <- Heq, lookup_insert_eq in H2. discriminate.
        -- now rewrite lookup_insert_ne in H2.
    + intros _. apply Hbound.
      pose proof (code_map_set_length newCode cm).
      unfold MINIMUM_NON_OBFUSCATION_LENGTH in Hlen. lia.
Qed.
End LoopFacts.

Lemma obfuscate_loop_ascending codes loadable draws tries :
  forall i cm al,
    StronglySorted Z.lt cm ->
    StronglySorted Z.lt
      (fst (obfuscate_loop codes loadable draws tries i cm al)).
Proof.
  induction tries as [|tries IH]; intros i cm al Hcm; simpl;
    [assumption|].
  destruct (_ <? _); [|assumption].
  destruct (nth_error codes _); [|now apply IH].
  cbv zeta. destruct (negb _); [now apply IH|].
  destruct (al !! _); [now apply IH|].
  now apply IH, code_map_set_ascending.
Qed.

(** A request that is padded comes back in ascending order. *)
Lemma possibly_obfuscate_ascending draws codes al loadable :
  Z.of_nat (length codes) < MINIMUM_NON_OBFUSCATION_LENGTH ->
  StronglySorted Z.lt
    (fst (possibly_obfuscate false draws codes al loadable)).
Proof.
  intros Hlen. unfold possibly_obfuscate.
  destruct (Z.leb_spec MINIMUM_NON_OBFUSCATION_LENGTH
              (Z.of_nat (length codes))) as [Hge|_]; [lia|].
  apply obfuscate_loop_ascending, code_map_of_ascending.
Qed.

Lemma possibly_obfuscate_spec noObf draws codes al loadable res al' :
  possibly_obfuscate noObf draws codes al loadable = (res, al') ->
  (forall x, In x codes -> In x res)
  /\ (forall k v, al !! k = Some v -> al' !! k = Some v)
  /\ (forall x, In x res -> In x codes \/ decoy_of codes loadable al al' x)
  /\ ((length codes < 20)%nat -> noObf = false -> (length res <= 20)%nat).
Proof.
  unfold possibly_obfuscate. intros Hrun.
  destruct noObf.
  { inversion Hrun; subst. repeat split; auto. discriminate. }
  destruct (Z.leb_spec MINIMUM_NON_OBFUSCATION_LENGTH
              (Z.of_nat (length codes))) as [Hlen|Hlen].
  { inversion Hrun; subst. repeat split; auto.
    unfold MINIMUM_NON_OBFUSCATION_LENGTH in Hlen. lia. }
  apply obfuscate_loop_spec in Hrun as (Hmono & Hal & Hdec & Hbound).
  repeat split.
  - intros x Hx. now apply Hmono, code_map_of_In.
  - exact Hal.
  - intros x Hx. destruct (Hdec x Hx) as [Hold|Hnew]; [left|now right].
    now apply code_map_of_In.
  - intros Hl _. apply Hbound.
    pose proof (code_map_of_length codes). lia.
Qed.

(** C8: when obfuscation is disabled, or when there are at least
    [MINIMUM_NON_OBFUSCATION_LENGTH] codes, [possibly_obfuscate] returns
    the codes as they are, in their order, and leaves
    [alreadyRequestedChars] as it is. *)
Theorem possibly_obfuscate_unchanged noObf draws codes al loadable :
  noObf = true
  \/ MINIMUM_NON_OBFUSCATION_LENGTH <= Z.of_nat (length codes) ->
  possibly_obfuscate noObf draws codes al loadable = (codes, al).
Proof.
  unfold possibly_obfuscate. intros [->|Hlen]; [reflexivity|].
  destruct noObf; [reflexivity|].
  destruct (Z.leb_spec MINIMUM_NON_OBFUSCATION_LENGTH
              (Z.of_nat (length codes))) as [_|Hlt]; [reflexivity|lia].
Qed.

Lemma possibly_obfuscate_unchanged_witness :
  possibly_obfuscate true (fun _ => 3) [65; 66] {[ [70] := 1 ]}
    {[ 65; 66; 67 ]}
  = ([65; 66], {[ [70] := 1 ]})
  /\ possibly_obfuscate false (fun _ => 3)
       (map (fun n => 65 + Z.of_nat n) (seq 0 20)) {[ [70] := 1 ]}
       {[ 65; 66; 67 ]}
     = (map (fun n => 65 + Z.of_nat n) (seq 0 20), {[ [70] := 1 ]}).
Proof.
  split.
  - apply possibly_obfuscate_unchanged. left. reflexivity.
  - apply possibly_obfuscate_unchanged. right. vm_compute. discriminate.
Defined.

(** *** The padding of the request [[65]], try by try *)

Lemma existsb_eqb_In (x : Z) (l : list Z) :
  existsb (Z.eqb x) l = true <-> In x l.
Proof.
  rewrite existsb_exists. split.
  - intros (y & Hy & Heq). apply Z.eqb_eq in Heq. now subst.
  - intros Hx. exists x. split; [assumption|apply Z.eqb_refl].
Qed.

Lemma code_map_set_present code m :
  StronglySorted Z.lt m -> In code m -> code_map_set code m = m.
Proof.
  induction m as [|k m IH]; simpl; intros Hm Hin; [contradiction|].
  apply StronglySorted_inv in Hm as [Hm Hk].
  rewrite List.Forall_forall in Hk.
  destruct Hin as [->|Hin].
  - rewrite Z.ltb_irrefl, Z.eqb_refl. reflexivity.
  - specialize (Hk code Hin).
    destruct (Z.ltb_spec code k); [lia|].
    destruct (Z.eqb_spec code k); [lia|].
    now rewrite IH.
Qed.

Lemma code_map_set_absent code m :
  ~ In code m -> length (code_map_set code m) = S (length m).
Proof.
  induction m as [|k m IH]; simpl; intros Hout; [reflexivity|].
  destruct (Z.ltb_spec code k); [reflexivity|].
  destruct (Z.eqb_spec code k) as [->|Hne]; [tauto|].
  simpl. rewrite IH; tauto.
Qed.

Lemma drawn_65_window draws i : 0 <= drawn_65 draws i <= 193.
Proof.
  unfold drawn_65, uniformRandomFloor, OBFUSCATION_RANGE.
  change (65 + 256 / 2 + 1 - 0) with 194.
  pose proof (Z.mod_pos_bound (draws i) 194 ltac:(lia)). lia.
Qed.

Lemma stringFromCodePoint_basic x :
  x <= 0xFFFF -> stringFromCodePoint x = [x].
Proof.
  intros Hx. unfold stringFromCodePoint.
  destruct (Z.leb_spec x 0xFFFF); [reflexivity|lia].
Qed.

Section Padding65.
Variable loadable : SparseBitArray.
Variable draws : nat -> Z.

Lemma obfuscate_loop_65_step tries i cm al :
  obfuscate_loop [65] loadable draws (S tries) i cm al
  = if Z.of_nat (length cm) <? MINIMUM_NON_OBFUSCATION_LENGTH then
      if isSet loadable (drawn_65 draws i) then
        match al !! stringFromCodePoint (drawn_65 draws i) with
        | None =>
            obfuscate_loop [65] loadable draws tries (S i)
              (code_map_set (drawn_65 draws i) cm)
              (<[stringFromCodePoint (drawn_65 draws i) := 1]> al)
        | Some _ => obfuscate_loop [65] loadable draws tries (S i) cm al
        end
      else obfuscate_loop [65] loadable draws tries (S i) cm al
    else (cm, al).
Proof.
  cbn [obfuscate_loop]. destruct (_ <? _); [|reflexivity].
  cbn [length]. rewrite Nat.mod_1_r. cbn [nth_error].
  change (uniformRandomFloor
            (if 65 - OBFUSCATION_RANGE / 2 <? 0 then 0
             else 65 - OBFUSCATION_RANGE / 2)
            (65 + OBFUSCATION_RANGE / 2) (draws i))
    with (drawn_65 draws i).
  destruct (isSet loadable (drawn_65 draws i)); reflexivity.
Qed.

Lemma elem_of_found_from al cm i tries x :
  x ∈ found_from draws loadable al cm i tries
  <-> exists j, (i <= j < i + tries)%nat
        /\ x = drawn_65 draws j
        /\ makes_decoy loadable al cm x = true.
Proof.
  unfold found_from.
  rewrite elem_of_list_to_set, list_elem_of_In, filter_In, in_map_iff.
  split.
  - intros [(j & <- & Hj) Hx]. apply in_seq in Hj. exists j. auto.
  - intros (j & Hj & -> & Hx). split; [|assumption].
    exists j. split; [reflexivity|]. now apply in_seq.
Qed.

Lemma found_from_skip al cm i tries :
  makes_decoy loadable al cm (drawn_65 draws i) = false ->
  found_from draws loadable al cm i (S tries)
  = found_from draws loadable al cm (S i) tries.
Proof.
  intros Hskip. apply set_eq. intros x. rewrite !elem_of_found_from.
  split; intros (j & Hj & -> & Hx).
  - exists j. repeat split; auto; try lia.
    destruct (Nat.eq_dec j i) as [->|]; [congruence|lia].
  - exists j. repeat split; auto; lia.
Qed.

Lemma makes_decoy_marked al cm n x :
  In n cm -> 0 <= n <= 193 -> 0 <= x <= 193 ->
  makes_decoy loadable (<[stringFromCodePoint n := 1]> al) cm x
  = makes_decoy loadable al cm x.
Proof.
  intros Hn Hwn Hwx. unfold makes_decoy.
  destruct (existsb (Z.eqb x) cm) eqn:Hx;
    [now rewrite !andb_false_r|].
  assert (x <> n).
  { intros ->. apply existsb_eqb_In in Hn. congruence. }
  rewrite !stringFromCodePoint_basic by lia.
  rewrite lookup_insert_ne by congruence. reflexivity.
Qed.

Lemma found_from_marked al cm n i tries :
  In n cm -> 0 <= n <= 193 ->
  found_from draws loadable (<[stringFromCodePoint n := 1]> al) cm i tries
  = found_from draws loadable al cm i tries.
Proof.
  intros Hn Hwn. apply set_eq. intros x. rewrite !elem_of_found_from.
  split; intros (j & Hj & -> & Hx); exists j;
    (split; [exact Hj|split; [reflexivity|]]).
  - now rewrite makes_decoy_marked in Hx
      by (assumption || apply drawn_65_window).
  - now rewrite makes_decoy_marked
      by (assumption || apply drawn_65_window).
Qed.

Lemma makes_decoy_added al cm n x :
  0 <= n <= 193 -> 0 <= x <= 193 ->
  makes_decoy loadable (<[stringFromCodePoint n := 1]> al)
    (code_map_set n cm) x
  = makes_decoy loadable al cm x && negb (x =? n).
Proof.
  intros Hwn Hwx. unfold makes_decoy.
  rewrite !stringFromCodePoint_basic by lia.
  assert (Hcm : existsb (Z.eqb x) (code_map_set n cm)
                = (x =? n) || existsb (Z.eqb x) cm).
  { apply eq_true_iff_eq.
    rewrite orb_true_iff, !existsb_eqb_In, code_map_set_In, Z.eqb_eq.
    reflexivity. }
  rewrite Hcm.
  destruct (Z.eqb_spec x n) as [->|Hne].
  - rewrite lookup_insert_eq. cbn. now rewrite !andb_false_r.
  - rewrite lookup_insert_ne by congruence. cbn.
    now rewrite andb_true_r.
Qed.

Lemma found_from_added al cm i tries :
  makes_decoy loadable al cm (drawn_65 draws i) = true ->
  found_from draws loadable al cm i (S tries)
  = {[ drawn_65 draws i ]}
    ∪ found_from draws loadable
        (<[stringFromCodePoint (drawn_65 draws i) := 1]> al)
        (code_map_set (drawn_65 draws i) cm) (S i) tries
  /\ drawn_65 draws i
     ∉ found_from draws loadable
         (<[stringFromCodePoint (drawn_65 draws i) := 1]> al)
         (code_map_set (drawn_65 draws i) cm) (S i) tries.
Proof.
  intros Hnew. split.
  - apply set_eq. intros x.
    rewrite elem_of_union, elem_of_singleton, !elem_of_found_from.
    split.
    + intros (j & Hj & -> & Hx).
      destruct (Z.eq_dec (drawn_65 draws j) (drawn_65 draws i)) as [Heq|Hne];
        [now left|right].
      exists j. repeat split.
      * destruct (Nat.eq_dec j i) as [->|]; [congruence|lia].
      * lia.
      * rewrite makes_decoy_added by apply drawn_65_window.
        rewrite Hx. apply Z.eqb_neq in Hne. now rewrite Hne.
    + intros [->|(j & Hj & -> & Hx)].
      * exists i. repeat split; auto; lia.
      * exists j. repeat split; try lia.
        rewrite makes_decoy_added in Hx by apply drawn_65_window.
        now apply andb_true_iff in Hx as [Hx _].
  - rewrite elem_of_found_from. intros (j & _ & Heq & Hx).
    rewrite makes_decoy_added in Hx by apply drawn_65_window.
    rewrite Z.eqb_refl, andb_false_r in Hx. discriminate.
Qed.

(** The padding finds the decoys there are to find, until it has twenty
    codes. *)
Lemma obfuscate_loop_65_exact tries : forall i cm al,
  StronglySorted Z.lt cm ->
  (length cm <= 20)%nat ->
  let res := fst (obfuscate_loop [65] loadable draws tries i cm al) in
  let found := found_from draws loadable al cm i tries in
  Z.of_nat (length res)
  = Z.min 20 (Z.of_nat (length cm) + Z.of_nat (size found))
  /\ (forall x, In x res -> In x cm \/ x ∈ found)
  /\ ((length cm + size found <= 20)%nat ->
      forall x, x ∈ found -> In x res)
  /\ (forall x, In x cm -> In x res).
Proof.
  induction tries as [|tries IH]; intros i cm al Hsorted Hlen; cbv zeta.
  { cbn [obfuscate_loop fst]. unfold found_from. cbn [seq map List.filter].
    change (list_to_set []) with (∅ : gset Z). rewrite size_empty.
    repeat split; auto; try lia.
    intros _ x Hx. now apply elem_of_empty in Hx. }
  rewrite obfuscate_loop_65_step.
  unfold MINIMUM_NON_OBFUSCATION_LENGTH.
  destruct (Z.ltb_spec (Z.of_nat (length cm)) 20) as [Hroom|Hfull].
  2:{ cbn [fst]. repeat split; auto; try lia.
      intros Hfit x Hx.
      assert (Hnone : size (found_from draws loadable al cm i (S tries))
                      = 0%nat) by lia.
      apply size_empty_inv in Hnone. apply Hnone in Hx.
      now apply elem_of_empty in Hx. }
  set (n := drawn_65 draws i).
  pose proof (drawn_65_window draws i) as Hwindow. fold n in Hwindow.
  destruct (isSet loadable n) eqn:Hset.
  2:{ assert (Hskip : makes_decoy loadable al cm n = false)
        by (unfold makes_decoy; now rewrite Hset).
      rewrite (found_from_skip al cm i tries Hskip). now apply IH. }
  destruct (al !! stringFromCodePoint n) as [v|] eqn:Hal.
  { assert (Hskip : makes_decoy loadable al cm n = false).
    { unfold makes_decoy. rewrite Hal.
      rewrite bool_decide_eq_false_2 by congruence.
      now rewrite andb_false_r. }
    rewrite (found_from_skip al cm i tries Hskip). now apply IH. }
  destruct (existsb (Z.eqb n) cm) eqn:Hin.
  - assert (Hskip : makes_decoy loadable al cm n = false)
      by (unfold makes_decoy; rewrite Hin; now rewrite andb_false_r).
    apply existsb_eqb_In in Hin.
    rewrite (code_map_set_present n cm Hsorted Hin).
    rewrite (found_from_skip al cm i tries Hskip).
    rewrite <- (found_from_marked al cm n (S i) tries Hin Hwindow).
    now apply IH.
  - assert (Hnew : makes_decoy loadable al cm n = true).
    { unfold makes_decoy. rewrite Hset, Hal, Hin.
      now rewrite bool_decide_eq_true_2. }
    assert (Hout : ~ In n cm).
    { intros H. apply existsb_eqb_In in H. congruence. }
    destruct (found_from_added al cm i tries Hnew) as [Hfound Hfresh].
    fold n in Hfound, Hfresh.
    pose proof (code_map_set_absent n cm Hout) as Hgrown.
    destruct (IH (S i) (code_map_set n cm)
                (<[stringFromCodePoint n := 1]> al))
      as (Hexact & Hsound & Hall & Hkeep);
      [now apply code_map_set_ascending|lia|].
    assert (Hsize :
      size (found_from draws loadable al cm i (S tries))
      = S (size (found_from draws loadable
                   (<[stringFromCodePoint n := 1]> al)
                   (code_map_set n cm) (S i) tries))).
    { rewrite Hfound, size_union, size_singleton
        by (apply disjoint_singleton_l; exact Hfresh).
      reflexivity. }
    repeat split.
    + rewrite Hexact, Hsize, Hgrown. lia.
    + intros x Hx. destruct (Hsound x Hx) as [Hold|Hnewer].
      * apply code_map_set_In in Hold as [->|Hold]; [right|now left].
        rewrite Hfound. apply elem_of_union. left.
        now apply elem_of_singleton.
      * right. rewrite Hfound. apply elem_of_union. now right.
    + intros Hfit x Hx. rewrite Hfound in Hx.
      apply elem_of_union in Hx as [Hx|Hx].
      * apply elem_of_singleton in Hx as ->.
        apply Hkeep, code_map_set_In. now left.
      * apply Hall; [lia|assumption].
    + intros x Hx. apply Hkeep, code_map_set_In. now right.
Qed.

End Padding65.

(** C7, as amended: for the single code 65 the padded request holds 65
    and as many decoys as the 290 tries find, up to twenty codes in all:
    its length is the smaller of 20 and one more than the number of
    distinct code points, among the 290 draws, that the font can load,
    that were not in [alreadyRequestedChars] when the call was made and
    that differ from 65.  It has twenty codes exactly when there are at
    least 19 of these; when there are at most 19, it holds them all.
    Every code lies between 0 and 193, and every decoy is one of these
    code points. *)
Theorem possibly_obfuscate_65 draws al loadable :
  let res := fst (possibly_obfuscate false draws [65] al loadable) in
  let found := found_65 draws al loadable in
  Z.of_nat (length res) = Z.min 20 (1 + Z.of_nat (size found))
  /\ (length res = 20%nat <-> (19 <= size found)%nat)
  /\ (1 <= length res <= 20)%nat
  /\ In 65 res
  /\ (forall x, In x res -> 0 <= x <= 193)
  /\ (forall x, In x res -> x <> 65 ->
        isSet loadable x = true
        /\ al !! stringFromCodePoint x = None
        /\ x ∈ found)
  /\ ((size found <= 19)%nat -> forall x, x ∈ found -> In x res).
Proof.
  cbv zeta.
  assert (Hloop :
    possibly_obfuscate false draws [65] al loadable
    = obfuscate_loop [65] loadable draws 290 0 [65] al).
  { unfold possibly_obfuscate.
    change (MINIMUM_NON_OBFUSCATION_LENGTH <=? Z.of_nat (length [65]))
      with false.
    cbv iota zeta.
    change (Z.to_nat
              ((MINIMUM_NON_OBFUSCATION_LENGTH - Z.of_nat (length [65])) * 10
               + 100))
      with 290%nat.
    change (code_map_of [65]) with [65].
    reflexivity. }
  unfold found_65. rewrite Hloop. clear Hloop.
  destruct (obfuscate_loop_65_exact loadable draws 290 0 [65] al)
    as (Hexact & Hsound & Hall & Hkeep);
    [repeat constructor|cbn [length]; lia|].
  cbn [length] in Hexact, Hall.
  set (res := fst (obfuscate_loop [65] loadable draws 290 0 [65] al)) in *.
  set (found := found_from draws loadable al [65] 0 290) in *.
  assert (H65 : In 65 res) by (apply Hkeep; now left).
  assert (Hdecoy : forall x, In x res -> x <> 65 ->
            isSet loadable x = true
            /\ al !! stringFromCodePoint x = None /\ x ∈ found).
  { intros x Hx Hne. destruct (Hsound x Hx) as [[<-|[]]|Hfound];
      [congruence|].
    split; [|split; [|assumption]];
      apply elem_of_found_from in Hfound as (j & _ & _ & Hmakes);
      unfold makes_decoy in Hmakes;
      apply andb_true_iff in Hmakes as [Hmakes _];
      apply andb_true_iff in Hmakes as [Hset Hnone];
      [assumption|now apply bool_decide_eq_true in Hnone]. }
  split; [exact Hexact|].
  split; [lia|]. split; [lia|]. split; [assumption|].
  split; [|split; [exact Hdecoy|]].
  - intros x Hx. destruct (Hsound x Hx) as [[<-|[]]|Hfound]; [lia|].
    apply elem_of_found_from in Hfound as (j & _ & -> & _).
    apply drawn_65_window.
  - intros Hfew. apply Hall. lia.
Qed.

(** C7, as stated, fails: the padding gives up after its bounded number of
    tries; with 65 as the only loadable code point no decoy is found and the
    request keeps its single code. *)
Lemma possibly_obfuscate_65_short :
  ~ (forall draws al loadable,
       20 <= Z.of_nat
               (length
                  (fst (possibly_obfuscate false draws [65] al loadable)))).
Proof.
  intros H. specialize (H (fun _ => 0) ∅ {[ 65 ]}).
  assert (E : fst (possibly_obfuscate false (fun _ => 0) [65] ∅ {[ 65 ]})
              = [65]) by (vm_compute; reflexivity).
  rewrite E in H. simpl in H. lia.
Qed.

(** ** Characters and code points *)

Lemma charToCode_well_formed c :
  well_formed_char c = true ->
  exists k, charToCode c = Some k /\ stringFromCodePoint k = c.
Proof.
  destruct c as [|cc [|lo [|]]]; simpl; try discriminate.
  - intros H. unfold charToCode, charCodeAt. simpl.
    apply andb_true_iff in H as [H Hhigh].
    apply andb_true_iff in H as [H0 H1].
    apply negb_true_iff in Hhigh. rewrite Hhigh.
    exists cc. split; [reflexivity|].
    unfold stringFromCodePoint. now rewrite H1.
  - intros H. unfold charToCode, charCodeAt. simpl.
    apply andb_true_iff in H as [H Hlo1].
    apply andb_true_iff in H as [H Hlo0].
    rewrite H. apply andb_true_iff in H as [Hhi0 Hhi1].
    eexists. split; [reflexivity|].
    apply Z.leb_le in Hlo0, Hlo1, Hhi0, Hhi1.
    unfold stringFromCodePoint.
    rewrite Z.shiftl_mul_pow2 by lia.
    destruct (Z.leb_spec ((cc - 55296) * 2 ^ 10 + (lo - 56320) + 65536)
                65535) as [Hle|_]; [lia|].
    rewrite Z.shiftr_div_pow2 by lia.
    change 1023 with (Z.ones 10). rewrite Z.land_ones by lia.
    change (2 ^ 10) with 1024.
    replace ((cc - 55296) * 1024 + (lo - 56320) + 65536 - 65536)
      with ((lo - 56320) + (cc - 55296) * 1024) by lia.
    rewrite Z.div_add, Z.mod_add by lia.
    rewrite Z.div_small, Z.mod_small by lia.
    f_equal; [lia|f_equal; lia].
Qed.

(** ** The needed-characters loop *)

Lemma needed_loop_extends loadable charArray : forall tmp acc,
  exists new, fst (needed_loop loadable charArray tmp acc) = acc ++ new.
Proof.
  induction charArray as [|c rest IH]; intros tmp acc; simpl.
  - exists []. now rewrite app_nil_r.
  - destruct (charToCode c) as [code|]; [|apply IH].
    destruct (isSet loadable code && falsy (tmp !! c)); [|apply IH].
    destruct (IH (<[c:=1]> tmp) (acc ++ [code])) as [new Hnew].
    exists (code :: new). rewrite Hnew, <- app_assoc. reflexivity.
Qed.

Lemma needed_loop_keeps loadable charArray tmp acc k :
  In k acc -> In k (fst (needed_loop loadable charArray tmp acc)).
Proof.
  intros Hk. destruct (needed_loop_extends loadable charArray tmp acc)
    as [new ->]. apply in_or_app. now left.
Qed.

Lemma needed_loop_sound loadable charArray : forall tmp acc k,
  In k (fst (needed_loop loadable charArray tmp acc)) ->
  In k acc
  \/ exists c, In c charArray /\ charToCode c = Some k
       /\ isSet loadable k = true /\ falsy (tmp !! c) = true.
Proof.
  induction charArray as [|c rest IH]; intros tmp acc k; simpl.
  - now left.
  - destruct (charToCode c) as [code|] eqn:Hcode.
    2:{ intros H. apply IH in H as [H|(c' & H1 & H2)]; [now left|].
        right. exists c'. intuition. }
    destruct (isSet loadable code && falsy (tmp !! c)) eqn:Hpush.
    2:{ intros H. apply IH in H as [H|(c' & H1 & H2)]; [now left|].
        right. exists c'. intuition. }
    apply andb_true_iff in Hpush as [Hset Hfalsy].
    intros H. apply IH in H as [H|(c' & H1 & H2 & H3 & H4)].
    + apply in_app_or in H as [H|[<-|[]]]; [now left|].
      right. exists c. intuition.
    + right. exists c'. repeat split; auto.
      destruct (decide (c = c')) as [->|Hne].
      * rewrite lookup_insert_eq in H4. discriminate.
      * now rewrite lookup_insert_ne in H4.
Qed.

Lemma needed_loop_complete loadable charArray : forall tmp acc c k,
  In c charArray -> charToCode c = Some k -> isSet loadable k = true ->
  falsy (tmp !! c) = true \/ In k acc ->
  In k (fst (needed_loop loadable charArray tmp acc)).
Proof.
  induction charArray as [|c0 rest IH]; intros tmp acc c k Hin Hcode Hset Hor;
    simpl; [destruct Hin|].
  destruct Hin as [->|Hin].
  - rewrite Hcode, Hset. simpl.
    destruct (falsy (tmp !! c)) eqn:Hf.
    + apply needed_loop_keeps, in_or_app. right. now left.
    + destruct Hor as [?|Hacc]; [discriminate|].
      now apply needed_loop_keeps.
  - destruct (charToCode c0) as [code0|] eqn:Hcode0;
      [|now apply (IH _ _ c)].
    destruct (isSet loadable code0 && falsy (tmp !! c0)) eqn:Hpush;
      [|now apply (IH _ _ c)].
    apply (IH _ _ c); auto.
    destruct (decide (c0 = c)) as [->|Hne].
    + right. apply in_or_app. right. left. congruence.
    + destruct Hor as [Hf|Hacc].
      * left. now rewrite lookup_insert_ne.
      * right. apply in_or_app. now left.
Qed.

(** The needed codes are exactly the code points of the requested
    characters that the font can load and the character list lacks. *)
Lemma needed_codes_exact (s : State) (charlist : charmap) (k : Z) :
  In k (neededCodes_of s charlist)
  <-> exists c, In c (map fst (charsToLoad_ (this s)))
        /\ charToCode c = Some k
        /\ isSet (loadableCodepoints_ (this s)) k = true
        /\ falsy (charlist !! c) = true.
Proof.
  unfold neededCodes_of. split.
  - intros Hin. now apply needed_loop_sound in Hin as [[]|Hc].
  - intros (c & Hc & Hk & Hset & Hf).
    apply (needed_loop_complete _ _ _ _ c); auto.
Qed.

Lemma needed_codes_char (s : State) (charlist : charmap) :
  Forall (fun c => well_formed_char c = true)
    (map fst (charsToLoad_ (this s))) ->
  (forall c, In c (map fst (charsToLoad_ (this s))) ->
     exists k, charToCode c = Some k
       /\ (In k (neededCodes_of s charlist)
           <-> isSet (loadableCodepoints_ (this s)) k = true
               /\ falsy (charlist !! c) = true))
  /\ (forall k, In k (neededCodes_of s charlist) ->
        isSet (loadableCodepoints_ (this s)) k = true
        /\ falsy (charlist !! stringFromCodePoint k) = true).
Proof.
  intros Hwf. rewrite List.Forall_forall in Hwf. unfold neededCodes_of. split.
  - intros c Hc.
    destruct (charToCode_well_formed c (Hwf c Hc)) as (k & Hk & Hback).
    exists k. split; [assumption|]. split.
    + intros Hin.
      apply needed_loop_sound in Hin as [[]|(c' & Hc' & Hk' & Hset & Hf)].
      destruct (charToCode_well_formed c' (Hwf c' Hc')) as (k' & Hk'' & Hback').
      assert (k' = k) by congruence. subst k'.
      assert (Heq : c' = c) by congruence. rewrite Heq in Hf. now split.
    + intros [Hset Hf]. apply (needed_loop_complete _ _ _ _ c); auto.
  - intros k Hin.
    apply needed_loop_sound in Hin as [[]|(c & Hc & Hk & Hset & Hf)].
    destruct (charToCode_well_formed c (Hwf c Hc)) as (k' & Hk' & Hback).
    assert (k' = k) by congruence. subst k'. rewrite Hback. now split.
Qed.

(** ** Slicing *)

Lemma firstn_In {A : Type} (n : nat) (l : list A) x :
  In x (firstn n l) -> In x l.
Proof.
  intros H. rewrite <- (firstn_skipn n l). apply in_or_app. now left.
Qed.

Lemma skipn_In {A : Type} (n : nat) (l : list A) x :
  In x (skipn n l) -> In x l.
Proof.
  intros H. rewrite <- (firstn_skipn n l). apply in_or_app. now right.
Qed.

Lemma js_slice_In {A : Type} (l : list A) start stop x :
  In x (js_slice l start stop) -> In x l.
Proof.
  unfold js_slice. intros H. eapply skipn_In, firstn_In. exact H.
Qed.

Lemma head_chunk_In max l x : In x (head_chunk max l) -> In x l.
Proof.
  unfold head_chunk. destruct (max =? 0); [auto|apply js_slice_In].
Qed.

Lemma head_chunk_firstn max (l : list Z) :
  0 < max -> head_chunk max l = firstn (Z.to_nat max) l.
Proof.
  intros Hmax. unfold head_chunk, js_slice, slice_index.
  destruct (Z.eqb_spec max 0); [lia|].
  destruct (Z.ltb_spec 0 0); [lia|].
  destruct (Z.ltb_spec max 0); [lia|].
  rewrite (Z.min_l 0) by lia. change (Z.to_nat 0) with O. rewrite skipn_O.
  destruct (Z.le_ge_cases max (Z.of_nat (length l))).
  - rewrite Z.min_l by lia. f_equal. lia.
  - rewrite Z.min_r by lia. rewrite Z.sub_0_r, Nat2Z.id.
    rewrite firstn_all. symmetry. apply firstn_all2. lia.
Qed.

Lemma remaining_chunk_skipn max (l : list Z) :
  0 < max -> remaining_chunk max l = skipn (Z.to_nat max) l.
Proof.
  intros Hmax. unfold remaining_chunk, js_slice, slice_index.
  destruct (Z.eqb_spec max 0); [lia|].
  destruct (Z.ltb_spec max 0); [lia|].
  rewrite firstn_all2 by (rewrite length_skipn; lia).
  destruct (Z.le_ge_cases max (Z.of_nat (length l))).
  - now rewrite Z.min_l by lia.
  - rewrite Z.min_r by lia. rewrite !skipn_all2 by lia. reflexivity.
Qed.

Lemma chunks_cover max (l : list Z) :
  0 <= max -> head_chunk max l ++ remaining_chunk max l = l.
Proof.
  intros Hmax. destruct (Z.eq_dec max 0) as [->|Hne].
  - unfold head_chunk, remaining_chunk. simpl. apply app_nil_r.
  - rewrite head_chunk_firstn, remaining_chunk_skipn by lia.
    apply firstn_skipn.
Qed.

(** ** Padding an empty request *)

Lemma obfuscate_loop_no_codes loadable draws tries : forall i cm al,
  obfuscate_loop [] loadable draws tries i cm al = (cm, al).
Proof.
  induction tries as [|tries IH]; intros i cm al; simpl; [reflexivity|].
  destruct (_ <? _); [|reflexivity].
  destruct i; apply IH.
Qed.

Lemma possibly_obfuscate_no_codes noObf draws al loadable :
  possibly_obfuscate noObf draws [] al loadable = ([], al).
Proof.
  unfold possibly_obfuscate. destruct noObf; [reflexivity|].
  change (MINIMUM_NON_OBFUSCATION_LENGTH <=? Z.of_nat (length (@nil Z)))
    with false.
  cbv iota. now rewrite obfuscate_loop_no_codes.
Qed.

(** ** The marking loop *)

Lemma mark_loop_keeps codes : forall (charlist : charmap) charsToLoad k,
  charlist !! k = Some 1 ->
  fst (mark_loop codes charlist charsToLoad) !! k = Some 1.
Proof.
  induction codes as [|code codes IH]; intros charlist charsToLoad k Hk;
    simpl; [assumption|].
  apply IH. destruct (decide (stringFromCodePoint code = k)) as [<-|Hne].
  - apply lookup_insert_eq.
  - now rewrite lookup_insert_ne.
Qed.

Lemma mark_loop_marks codes : forall (charlist : charmap) charsToLoad code,
  In code codes ->
  fst (mark_loop codes charlist charsToLoad) !! stringFromCodePoint code
  = Some 1.
Proof.
  induction codes as [|c codes IH]; intros charlist charsToLoad code Hin;
    simpl; [destruct Hin|].
  destruct Hin as [->|Hin]; [|now apply IH].
  apply mark_loop_keeps, lookup_insert_eq.
Qed.


Ltac chain_unfold :=
  unfold reportError, addLog, assert_haveReadFileInfo, goog_asserts_assert,
    obfuscate_step, mark_step, setTimeout_loadChars;
  unfold then_, thenCatch, then2, thenAlways, detached, gets, modify_this,
    emit, call, Promise_resolve, Promise_reject.

#[local] Arguments needed_loop : simpl never.
#[local] Arguments possibly_obfuscate : simpl never.
#[local] Arguments mark_loop : simpl never.
#[local] Arguments sort_numeric : simpl never.
#[local] Arguments head_chunk : simpl never.
#[local] Arguments remaining_chunk : simpl never.
#[local] Arguments String.append : simpl never.



Lemma calcNeededChars_run w s charlist :
  compactCharList_ (this s) = Resolved charlist ->
  neededCodes_of s charlist <> [] ->
  asserts_hold w s = true ->
  calcNeededChars w s =
    (Resolved
       (sort_numeric
          (head_chunk (maximumRequestSize_ (this s))
             (fst (obfuscated_of w s charlist)))),
     state_after_calc w s charlist).
Proof.
  intros Hcl Hne Hassert.
  assert (Hkeys : (length (map fst (charsToLoad_ (this s))) =? 0)%nat = false).
  { destruct (map fst (charsToLoad_ (this s))) eqn:E; [|reflexivity].
    exfalso. apply Hne. unfold neededCodes_of. now rewrite E. }
  unfold calcNeededChars, getCompactCharList, calcNeededChars_then.
  chain_unfold. cbn beta iota. rewrite Hkeys, Hcl. simpl.
  fold (neededCodes_of s charlist).
  assert (Hlen : (length (neededCodes_of s charlist) =? 0)%nat = false).
  { destruct (neededCodes_of s charlist); [congruence|reflexivity]. }
  rewrite Hlen. simpl.
  assert (Hok : ENABLE_ASSERTS w && negb (haveReadFileInfo_ (this s)) = false).
  { unfold asserts_hold in Hassert.
    destruct (ENABLE_ASSERTS w), (haveReadFileInfo_ (this s));
      simpl in *; congruence. }
  rewrite Hok. simpl.
  unfold state_after_calc, obfuscated_of, miss_logs.
  rewrite <- !app_assoc. simpl.
  destruct (remaining_chunk _ _); simpl.
  - reflexivity.
  - rewrite <- !app_assoc. reflexivity.
Qed.


(** ** The remaining outcomes of [calcNeededChars] *)


Lemma logged_nil s : logged s [] = s.
Proof. destruct s. unfold logged. simpl. now rewrite app_nil_r. Qed.

Lemma calcNeededChars_nothing_requested w s :
  charsToLoad_ (this s) = [] ->
  calcNeededChars w s = (Resolved [], s).
Proof.
  intros E. unfold calcNeededChars. chain_unfold. rewrite E. reflexivity.
Qed.

Lemma calcNeededChars_charlist_rejected w s e :
  charsToLoad_ (this s) <> [] ->
  compactCharList_ (this s) = Rejected e ->
  calcNeededChars w s
  = (Rejected e,
     logged s [ReportError (FILE_ID ++ REJECTED_GET_COMPACT_CHARLIST)]).
Proof.
  intros Hne Hcl. unfold calcNeededChars, getCompactCharList. chain_unfold.
  destruct (charsToLoad_ (this s)); [congruence|]. simpl.
  rewrite Hcl. reflexivity.
Qed.

Lemma calcNeededChars_nothing_needed w s charlist :
  charsToLoad_ (this s) <> [] ->
  compactCharList_ (this s) = Resolved charlist ->
  neededCodes_of s charlist = [] ->
  calcNeededChars w s = (Resolved [], logged s (miss_logs s charlist)).
Proof.
  intros Hne Hcl Hnone.
  unfold calcNeededChars, getCompactCharList, calcNeededChars_then.
  chain_unfold. cbn beta iota.
  assert (Hkeys :
    (length (map fst (charsToLoad_ (this s))) =? 0)%nat = false).
  { destruct (charsToLoad_ (this s)); [congruence|reflexivity]. }
  rewrite Hkeys, Hcl. simpl. fold (neededCodes_of s charlist).
  unfold logged, miss_logs. rewrite Hnone. simpl.
  rewrite <- !app_assoc. reflexivity.
Qed.

Lemma calcNeededChars_assert_fails w s charlist :
  compactCharList_ (this s) = Resolved charlist ->
  neededCodes_of s charlist <> [] ->
  asserts_hold w s = false ->
  calcNeededChars w s
  = (Rejected AssertionError, logged s (miss_logs s charlist)).
Proof.
  intros Hcl Hne Hassert.
  assert (Hkeys :
    (length (map fst (charsToLoad_ (this s))) =? 0)%nat = false).
  { destruct (map fst (charsToLoad_ (this s))) eqn:E; [|reflexivity].
    exfalso. apply Hne. unfold neededCodes_of. now rewrite E. }
  unfold calcNeededChars, getCompactCharList, calcNeededChars_then.
  chain_unfold. cbn beta iota. rewrite Hkeys, Hcl. simpl.
  fold (neededCodes_of s charlist).
  assert (Hlen : (length (neededCodes_of s charlist) =? 0)%nat = false).
  { destruct (neededCodes_of s charlist); [congruence|reflexivity]. }
  rewrite Hlen. simpl.
  assert (Hok : ENABLE_ASSERTS w && negb (haveReadFileInfo_ (this s)) = true).
  { unfold asserts_hold in Hassert.
    destruct (ENABLE_ASSERTS w), (haveReadFileInfo_ (this s));
      simpl in *; congruence. }
  rewrite Hok. unfold logged, miss_logs. rewrite <- !app_assoc. reflexivity.
Qed.

(** ** [fetchChars] *)


Lemma handleFingerprintMismatch_run {A : Type} w s :
  @handleFingerprintMismatch w A s
  = (Rejected (fst (mismatch_result w s)),
     mkState (this s) (snd (mismatch_result w s))
       (history s ++ mismatch_events w s) (timers s)).
Proof.
  unfold handleFingerprintMismatch, dropDb, deleteDatabase.
  chain_unfold. unfold mismatch_result, mismatch_events. simpl.
  destruct (persist_deleteDatabase w _); simpl;
    rewrite <- !app_assoc; reflexivity.
Qed.

Lemma length_eqb_0_false {A : Type} (l : list A) :
  l <> [] -> (length l =? 0)%nat = false.
Proof. destruct l; [congruence|reflexivity]. Qed.

Lemma fetchChars_transport_failure w s codes e :
  codes <> [] ->
  backend_requestCodepoints w (history s) codes = Rejected e ->
  fetchChars w codes s
  = handleFingerprintMismatch w
      (logged s [Called (RequestCodepoints codes) false]).
Proof.
  intros Hne Hreq. unfold fetchChars, requestCodepoints.
  rewrite length_eqb_0_false by assumption.
  unfold thenCatch, then_, call. rewrite Hreq. reflexivity.
Qed.

Lemma fetchChars_null_bundle w s codes :
  codes <> [] ->
  backend_requestCodepoints w (history s) codes = Resolved None ->
  fetchChars w codes s
  = (Resolved None, logged s [Called (RequestCodepoints codes) true]).
Proof.
  intros Hne Hreq. unfold fetchChars, requestCodepoints.
  rewrite length_eqb_0_false by assumption.
  unfold thenCatch, then_, call. rewrite Hreq. reflexivity.
Qed.

Lemma fetchChars_bundle w s codes bundle :
  codes <> [] ->
  backend_requestCodepoints w (history s) codes = Resolved (Some bundle) ->
  fetchChars w codes s
  = if asserts_hold w s
       && String.eqb (sha1_fingerprint_ (this s)) (signature bundle)
    then (Resolved (Some bundle),
          logged s [Called (RequestCodepoints codes) true])
    else handleFingerprintMismatch w
           (logged s [Called (RequestCodepoints codes) true]).
Proof.
  intros Hne Hreq. unfold fetchChars, requestCodepoints, checkFingerprint.
  rewrite length_eqb_0_false by assumption.
  chain_unfold. rewrite Hreq. simpl. unfold asserts_hold, logged.
  destruct (ENABLE_ASSERTS w), (haveReadFileInfo_ (this s)); simpl;
    try reflexivity;
    destruct (String.eqb _ _); reflexivity.
Qed.

(** C5: a bundle whose signature differs from the recorded fingerprint makes
    [fetchChars] report the mismatch, delete the font's database and reject;
    the callback of [loadChars] that injects is not run. *)
Theorem fingerprint_mismatch_drops_database w s codes bundle :
  codes <> [] ->
  backend_requestCodepoints w (history s) codes = Resolved (Some bundle) ->
  signature bundle <> sha1_fingerprint_ (this s) ->
  let s1 := logged s [Called (RequestCodepoints codes) true] in
  let fetched := fetchChars w codes s in
  is_rejected (fst fetched) = true
  /\ history (snd fetched)
     = history s ++ Called (RequestCodepoints codes) true
                    :: mismatch_events w s1
  /\ (forall ok,
        persist_deleteDatabase w
          (history s1 ++ [ReportError (FILE_ID ++ FINGERPRINT_MISMATCH)])
        = Resolved ok ->
        idb (snd fetched) = NoDatabase
        /\ fst fetched = Rejected (Reason "deleted database")
        /\ In (Called DeleteDatabase true) (history (snd fetched)))
  /\ (forall neededCodes,
        (let! bundleResponse := fetchChars w codes in
         loadChars_inject w neededCodes bundleResponse) s
        = (Rejected (fst (mismatch_result w s1)), snd fetched)).
Proof.
  intros Hne Hreq Hsig s1 fetched.
  assert (Hrun : fetched = handleFingerprintMismatch w s1).
  { unfold fetched. rewrite (fetchChars_bundle w s codes bundle) by assumption.
    destruct (String.eqb_spec (sha1_fingerprint_ (this s)) (signature bundle))
      as [E|_]; [congruence|].
    now rewrite andb_false_r. }
  rewrite handleFingerprintMismatch_run in Hrun.
  split; [|split; [|split]].
  - now rewrite Hrun.
  - rewrite Hrun. simpl. now rewrite <- app_assoc.
  - intros ok Hdel. rewrite Hrun. unfold mismatch_result, mismatch_events.
    rewrite Hdel. simpl. repeat split.
    apply in_or_app. right. simpl. auto.
  - intros neededCodes. unfold then_. fold fetched. rewrite Hrun. reflexivity.
Qed.

(** ** [loadChars], step by step *)

Lemma loadChars_lock_fails w s e :
  chained_getPrecedingPromise w (history s) = Rejected e ->
  loadChars w s
  = (Resolved tt,
     logged s [Called GetPrecedingPromise false; ResolveChained;
               ReportError (FILE_ID ++ LOAD_CHARS_GET_LOCK); ResolveChained]).
Proof.
  intros Hlock. unfold loadChars, getPrecedingPromise,
    finishPrecedingCharsRequest_resolve.
  chain_unfold. rewrite Hlock. simpl. unfold logged.
  rewrite <- !app_assoc. reflexivity.
Qed.

Lemma loadChars_assert_fails w s ok :
  chained_getPrecedingPromise w (history s) = Resolved ok ->
  asserts_hold w s = false ->
  loadChars w s
  = (Resolved tt,
     logged s [Called GetPrecedingPromise true; ResolveChained;
               ReportError (FILE_ID ++ LOAD_CHARS_GET_LOCK); ResolveChained]).
Proof.
  intros Hlock Hassert. unfold loadChars, getPrecedingPromise,
    finishPrecedingCharsRequest_resolve.
  chain_unfold. rewrite Hlock. simpl.
  assert (Hok : ENABLE_ASSERTS w && negb (haveReadFileInfo_ (this s)) = true).
  { unfold asserts_hold in Hassert.
    destruct (ENABLE_ASSERTS w), (haveReadFileInfo_ (this s));
      simpl in *; congruence. }
  rewrite Hok. simpl. unfold logged. rewrite <- !app_assoc. reflexivity.
Qed.


Lemma loadChars_cycle w s ok :
  chained_getPrecedingPromise w (history s) = Resolved ok ->
  asserts_hold w s = true ->
  loadChars w s
  = (Resolved tt,
     logged (cycle_body w (logged s [Called GetPrecedingPromise true]))
       [ResolveChained]).
Proof.
  intros Hlock Hassert. unfold loadChars, getPrecedingPromise,
    finishPrecedingCharsRequest_resolve.
  unfold thenAlways at 1. unfold thenCatch at 1. unfold then_ at 1.
  unfold call at 1. rewrite Hlock.
  unfold then_ at 1. unfold assert_haveReadFileInfo, goog_asserts_assert.
  cbn [this].
  assert (Hok : ENABLE_ASSERTS w && negb (haveReadFileInfo_ (this s)) = false).
  { unfold asserts_hold in Hassert.
    destruct (ENABLE_ASSERTS w), (haveReadFileInfo_ (this s));
      simpl in *; congruence. }
  rewrite Hok. unfold id. fold (logged s [Called GetPrecedingPromise true]).
  unfold cycle_body.
  set (s0 := logged s [Called GetPrecedingPromise true]).
  unfold thenCatch at 1. unfold then_ at 1. unfold then2 at 1.
  destruct (calcNeededChars w s0) as [[codes|e] s1].
  - destruct codes as [|c codes].
    + reflexivity.
    + cbn [length Nat.eqb]. unfold then_ at 1.
      destruct (fetchChars w (c :: codes) s1) as [[b|e] s2].
      * unfold Promise_resolve. cbn [fst snd].
        destruct (loadChars_inject w (c :: codes) b s2) as [[[]|e] s3];
          reflexivity.
      * reflexivity.
  - unfold then_, reportError, emit, Promise_reject. reflexivity.
Qed.

(** ** The events of a cycle *)


Ltac settle_history :=
  cbn [snd fst history idb this timers];
  rewrite <- ?app_assoc; cbn [app];
  try reflexivity.

Ltac split_cases :=
  repeat match goal with
    | |- context [match ?x with _ => _ end] =>
        match type of x with
        | outcome _ => destruct x eqn:?
        | option _ => destruct x eqn:?
        | bool => destruct x eqn:?
        end; cbn [snd fst history idb this timers]
    | |- context [if ?x then _ else _] => destruct x eqn:?;
        cbn [snd fst history idb this timers]
    end.

Ltac unfold_manager :=
  unfold loadChars_inject, injectCompact, getCompactFontFromUrl,
    processFontbase, saveNewCompactFont, getCompactCharList,
    compactCharList_resolve;
  unfold injectChars, deleteDatabase, setFont, requestFontBase,
    openIndexedDb, getStores_metadata, putStores, clearDataStores;
  chain_unfold; cbn [snd fst history idb this timers].

Lemma loadChars_inject_extends w codes b s :
  exists ev, history (snd (loadChars_inject w codes b s)) = history s ++ ev.
Proof.
  unfold_manager.
  split_cases;
    (eexists; settle_history; try (rewrite app_nil_r; reflexivity)).
Qed.

(** ** Faults and reports *)

Lemma skipn_history (h ev : list Event) : skipn (length h) (h ++ ev) = ev.
Proof.
  induction h as [|e h IH]; [reflexivity|]. exact IH.
Qed.

(** C9, as stated, fails: when the injection and the deletion of the
    database that follows it both fail, the second fault is swallowed. *)
Lemma loadChars_swallows_a_fault :
  ~ (forall w s,
       fst (loadChars w s) = Resolved tt
       /\ every_fault_reported (cycle_events w s) = true).
Proof.
  intros H.
  destruct (H (sample_world false (Resolved (Some matching_bundle))
                 (Rejected (Failure 1)) (Rejected (Failure 2)))
              (sample_state (sample_font [([97], 1)] None))) as [_ Hall].
  vm_compute in Hall. discriminate.
Qed.

(** ** Transport failure *)

(** C1: a cycle whose request fails in transport.  The rejection of
    [requestCodepoints] reaches the handler of the fingerprint check: the
    fault is reported as a fingerprint mismatch and the font's database,
    persisted before the cycle, is deleted. *)
Theorem transport_failure_drops_database :
  let w := sample_world false (Rejected (Failure 503)) (Resolved tt)
             (Resolved sample_cff) in
  let s := sample_state (sample_font [([97], 1)] None) in
  idb s = Stores sample_stored
  /\ idb (snd (loadChars w s)) = NoDatabase
  /\ cycle_events w s
     = [Called GetPrecedingPromise true; AddLog MISS_COUNT 1 1;
        AddLog MISS_RATE 100 1; Called (RequestCodepoints [97; 98; 99]) false;
        ReportError "EIF42"; Called DeleteDatabase true; ResolveChained]
  /\ existsb is_store_mutation (cycle_events w s) = true.
Proof. vm_compute. repeat split. Qed.

(** ** Saving a freshly fetched base *)




(** ** The result of [calcNeededChars] *)

Lemma calcNeededChars_result w s charlist r :
  compactCharList_ (this s) = Resolved charlist ->
  fst (calcNeededChars w s) = Resolved r ->
  r = sort_numeric
        (head_chunk (maximumRequestSize_ (this s))
           (fst (obfuscated_of w s charlist))).
Proof.
  intros Hcl Hres.
  destruct (neededCodes_of s charlist) as [|k ks] eqn:Eneeded.
  - assert (Hseq : fst (obfuscated_of w s charlist) = []).
    { unfold obfuscated_of. rewrite Eneeded.
      now rewrite possibly_obfuscate_no_codes. }
    rewrite Hseq.
    assert (Hhead : head_chunk (maximumRequestSize_ (this s)) [] = []).
    { unfold head_chunk, js_slice. destruct (_ =? _); [reflexivity|].
      simpl. apply firstn_nil. }
    rewrite Hhead. change (sort_numeric []) with (@nil Z).
    destruct (charsToLoad_ (this s)) as [|kv rest] eqn:Eload.
    + rewrite calcNeededChars_nothing_requested in Hres by assumption.
      simpl in Hres. congruence.
    + rewrite (calcNeededChars_nothing_needed w s charlist) in Hres;
        [simpl in Hres; congruence|congruence|assumption|assumption].
  - assert (Hneeded : neededCodes_of s charlist <> []) by congruence.
    destruct (asserts_hold w s) eqn:Eassert.
    + rewrite (calcNeededChars_run w s charlist) in Hres by assumption.
      simpl in Hres. congruence.
    + rewrite (calcNeededChars_assert_fails w s charlist) in Hres
        by assumption.
      discriminate.
Qed.

(** ** The order of the request *)

(** C3, as amended: the sequence of the diff-and-obfuscate step is split
    first, and the head chunk alone is then sorted: the codes sent are the
    first codes of the sequence, in ascending order. *)
Theorem head_chunk_sorted_after_split w s charlist r :
  compactCharList_ (this s) = Resolved charlist ->
  fst (calcNeededChars w s) = Resolved r ->
  let sequence := fst (obfuscated_of w s charlist) in
  let chunk := head_chunk (maximumRequestSize_ (this s)) sequence in
  r = sort_numeric chunk
  /\ Sorted Z.le r
  /\ Permutation chunk r
  /\ (forall x, In x r -> In x sequence).
Proof.
  intros Hcl Hres sequence chunk.
  assert (Hr : r = sort_numeric chunk)
    by exact (calcNeededChars_result w s charlist r Hcl Hres).
  split; [assumption|]. subst r. split; [apply sort_numeric_sorted|].
  split; [apply sort_numeric_perm|].
  intros x Hx. apply (proj1 (sort_numeric_In x chunk)) in Hx.
  now apply head_chunk_In in Hx.
Qed.

Lemma head_chunk_sorted_after_split_witness :
  Sorted Z.le (map (fun n => 98 + Z.of_nat n) (seq 0 20)).
Proof.
  refine (proj1 (proj2
    (head_chunk_sorted_after_split
       (sample_world false (Resolved (Some matching_bundle)) (Resolved tt)
          (Resolved sample_cff))
       (sample_state descending_font) ∅
       (map (fun n => 98 + Z.of_nat n) (seq 0 20)) eq_refl _))).
  vm_compute. reflexivity.
Defined.

(** C3, as stated, fails: twenty-one letters requested in descending order
    with a request size of twenty; the chunk sent leaves out [a], the
    smallest code of the sequence. *)
Lemma head_chunk_not_the_smallest :
  ~ (forall w s charlist r,
       compactCharList_ (this s) = Resolved charlist ->
       fst (calcNeededChars w s) = Resolved r ->
       r = head_chunk (maximumRequestSize_ (this s))
             (sort_numeric (fst (obfuscated_of w s charlist)))).
Proof.
  intros H.
  specialize (H (sample_world false (Resolved (Some matching_bundle))
                   (Resolved tt) (Resolved sample_cff))
                (sample_state descending_font) ∅
                (map (fun n => 98 + Z.of_nat n) (seq 0 20)) eq_refl).
  assert (Hrun :
    fst (calcNeededChars
           (sample_world false (Resolved (Some matching_bundle))
              (Resolved tt) (Resolved sample_cff))
           (sample_state descending_font))
    = Resolved (map (fun n => 98 + Z.of_nat n) (seq 0 20)))
    by (vm_compute; reflexivity).
  specialize (H Hrun). vm_compute in H. discriminate.
Qed.

(** ** Chunking *)

Lemma fetchChars_sends w codes s :
  codes <> [] ->
  exists answered rest,
    history (snd (fetchChars w codes s))
    = history s ++ Called (RequestCodepoints codes) answered :: rest.
Proof.
  intros Hne. unfold fetchChars. rewrite length_eqb_0_false by assumption.
  unfold handleFingerprintMismatch, dropDb, checkFingerprint,
    requestCodepoints, deleteDatabase.
  chain_unfold. cbn [snd fst history idb this timers].
  split_cases; (do 2 eexists; settle_history).
Qed.

Lemma fetchChars_timers w codes s :
  timers (snd (fetchChars w codes s)) = timers s.
Proof.
  unfold fetchChars, handleFingerprintMismatch, dropDb, checkFingerprint,
    requestCodepoints, deleteDatabase.
  chain_unfold. cbn [snd fst history idb this timers].
  split_cases; reflexivity.
Qed.

Lemma loadChars_inject_timers w codes b s :
  timers (snd (loadChars_inject w codes b s)) = timers s.
Proof. unfold_manager. split_cases; reflexivity. Qed.

(** Every cycle ends by releasing the chain of requests. *)
Lemma loadChars_releases_the_chain w s :
  exists h, history (snd (loadChars w s)) = h ++ [ResolveChained].
Proof.
  destruct (chained_getPrecedingPromise w (history s)) as [[]|e] eqn:Hlock.
  2:{ rewrite (loadChars_lock_fails w s e) by assumption.
      cbn [snd logged history].
      exists (history s ++ [Called GetPrecedingPromise false; ResolveChained;
                            ReportError (FILE_ID ++ LOAD_CHARS_GET_LOCK)]).
      rewrite <- app_assoc. reflexivity. }
  destruct (asserts_hold w s) eqn:Hassert.
  2:{ rewrite (loadChars_assert_fails w s tt) by assumption.
      cbn [snd logged history].
      exists (history s ++ [Called GetPrecedingPromise true; ResolveChained;
                            ReportError (FILE_ID ++ LOAD_CHARS_GET_LOCK)]).
      rewrite <- app_assoc. reflexivity. }
  rewrite (loadChars_cycle w s tt) by assumption.
  cbn [snd logged history]. eexists. reflexivity.
Qed.

Lemma cycle_body_fetch w s codes s1 :
  calcNeededChars w s = (Resolved codes, s1) ->
  codes <> [] ->
  cycle_body w s
  = match fetchChars w codes s1 with
    | (Rejected e, s2) => s2
    | (Resolved bundleResponse, s2) =>
        snd (loadChars_inject w codes bundleResponse s2)
    end.
Proof.
  intros Hrun Hne. unfold cycle_body. rewrite Hrun.
  destruct codes; [congruence|reflexivity].
Qed.

(** A sequence longer than the request size is split; the first
    [maximumRequestSize_] codes are what the cycle requests, and the rest
    is left to a [loadChars] that is set on a timer, not called. *)
Lemma request_is_chunked w s charlist :
  compactCharList_ (this s) = Resolved charlist ->
  asserts_hold w s = true ->
  let sequence := fst (obfuscated_of w s charlist) in
  let max := maximumRequestSize_ (this s) in
  0 < max ->
  max < Z.of_nat (length sequence) ->
  let run := calcNeededChars w s in
  let sent := sort_numeric (firstn (Z.to_nat max) sequence) in
  let deferred := skipn (Z.to_nat max) sequence in
  fst run = Resolved sent
  /\ Permutation (firstn (Z.to_nat max) sequence) sent
  /\ Z.of_nat (length sent) = max
  /\ remaining_chunk max sequence = deferred
  /\ Z.of_nat (length deferred) = Z.of_nat (length sequence) - max
  /\ (Z.of_nat (length sequence) = 5000 -> max = 2200 ->
      Z.of_nat (length sent) = 2200 /\ Z.of_nat (length deferred) = 2800)
  /\ history (snd run)
     = history s ++ miss_logs s charlist ++ [SetTimeoutLoadChars]
  /\ timers (snd run) = S (timers s)
  /\ timers (cycle_body w s) = S (timers s)
  /\ exists answered rest,
       history (cycle_body w s)
       = history s ++ miss_logs s charlist
         ++ [SetTimeoutLoadChars; Called (RequestCodepoints sent) answered]
         ++ rest.
Proof.
  intros Hcl Hassert sequence max Hmax Hlong run sent deferred.
  assert (Hneeded : neededCodes_of s charlist <> []).
  { intros E. unfold sequence, obfuscated_of in Hlong. rewrite E in Hlong.
    rewrite possibly_obfuscate_no_codes in Hlong. simpl in Hlong. lia. }
  assert (Hlen_sent : Z.of_nat (length sent) = max).
  { unfold sent. rewrite sort_numeric_length, length_firstn. lia. }
  assert (Hlen_deferred :
    Z.of_nat (length deferred) = Z.of_nat (length sequence) - max).
  { unfold deferred. rewrite length_skipn. lia. }
  assert (Hrest : remaining_chunk max sequence = deferred)
    by now apply remaining_chunk_skipn.
  assert (Hdeferred : deferred <> []).
  { intros E. rewrite E in Hlen_deferred. simpl in Hlen_deferred. lia. }
  assert (Hsent : sent <> []).
  { intros E. rewrite E in Hlen_sent. simpl in Hlen_sent. lia. }
  assert (Hrun : run
    = (Resolved sent, state_after_calc w s charlist)).
  { unfold run. rewrite (calcNeededChars_run w s charlist) by assumption.
    fold sequence max. now rewrite head_chunk_firstn by assumption. }
  assert (Hhistory : history (state_after_calc w s charlist)
    = history s ++ miss_logs s charlist ++ [SetTimeoutLoadChars]).
  { unfold state_after_calc. cbn [history]. fold sequence max.
    rewrite Hrest. destruct deferred; [congruence|reflexivity]. }
  assert (Htimers : timers (state_after_calc w s charlist) = S (timers s)).
  { unfold state_after_calc. cbn [timers]. fold sequence max.
    rewrite Hrest. destruct deferred; [congruence|reflexivity]. }
  split; [now rewrite Hrun|].
  split; [apply sort_numeric_perm|].
  split; [assumption|]. split; [assumption|]. split; [assumption|].
  split; [intros H5000 H2200; split; lia|].
  split; [now rewrite Hrun|]. split; [now rewrite Hrun|].
  rewrite (cycle_body_fetch w s sent (state_after_calc w s charlist))
    by assumption.
  destruct (fetchChars_sends w sent (state_after_calc w s charlist) Hsent)
    as (answered & rest & Hfetch).
  pose proof (fetchChars_timers w sent (state_after_calc w s charlist))
    as Hft.
  destruct (fetchChars w sent (state_after_calc w s charlist))
    as [[b|e] s2]; cbn [snd] in Hfetch, Hft.
  - destruct (loadChars_inject_extends w sent b s2) as (ev & Hev).
    rewrite loadChars_inject_timers, Hft, Htimers. split; [reflexivity|].
    exists answered, (rest ++ ev).
    rewrite Hev, Hfetch, Hhistory, <- !app_assoc. reflexivity.
  - rewrite Hft, Htimers. split; [reflexivity|].
    exists answered, rest.
    rewrite Hfetch, Hhistory, <- !app_assoc. reflexivity.
Qed.

Lemma request_is_chunked_witness :
  let w := sample_world true (Resolved (Some matching_bundle)) (Resolved tt)
             (Resolved sample_cff) in
  let s := sample_state
             (sample_font [([99], 1); ([98], 1); ([97], 1)] (Some 2)) in
  fst (calcNeededChars w s) = Resolved [98; 99]
  /\ timers (snd (calcNeededChars w s)) = 1%nat.
Proof.
  intros w s.
  pose proof (request_is_chunked w s ∅ eq_refl eq_refl eq_refl
                ltac:(vm_compute; reflexivity)) as H.
  cbv zeta in H. destruct H as (Hrun & _ & _ & _ & _ & _ & _ & Htimers & _).
  split; [|exact Htimers].
  rewrite Hrun. vm_compute. reflexivity.
Defined.

(** The follow-up runs as a cycle of its own: three letters with a request
    size of two are fetched by two requests, the second one made by the
    [loadChars] that the timer starts after the first cycle has released
    the chain. *)
Example follow_up_cycle :
  let w := sample_world true (Resolved (Some matching_bundle)) (Resolved tt)
             (Resolved sample_cff) in
  let s := sample_state
             (sample_font [([99], 1); ([98], 1); ([97], 1)] (Some 2)) in
  cycle_events w s
  = [Called GetPrecedingPromise true; AddLog MISS_COUNT 3 1;
     AddLog MISS_RATE 300 3; SetTimeoutLoadChars;
     Called (RequestCodepoints [98; 99]) true;
     Called (InjectChars [98; 99]) true; Called SetFont true; ResolveChained]
  /\ timers (snd (loadChars w s)) = 1%nat
  /\ skipn (length (history (snd (loadChars w s))))
       (history (run_timers w 5 (snd (loadChars w s))))
     = [Called GetPrecedingPromise true; AddLog MISS_COUNT 1 1;
        AddLog MISS_RATE 100 1; Called (RequestCodepoints [97]) true;
        Called (InjectChars [97]) true; Called SetFont true; ResolveChained]
  /\ timers (run_timers w 5 (snd (loadChars w s))) = 0%nat.
Proof. vm_compute. repeat split. Qed.

(** ** Decoys and the character list *)

Lemma possibly_obfuscate_marks_decoys noObf draws codes al loadable x :
  let padded := possibly_obfuscate noObf draws codes al loadable in
  In x (fst padded) -> ~ In x codes ->
  al !! stringFromCodePoint x = None
  /\ snd padded !! stringFromCodePoint x = Some 1.
Proof.
  cbv zeta.
  destruct (possibly_obfuscate noObf draws codes al loadable)
    as [res al'] eqn:Hrun.
  apply possibly_obfuscate_spec in Hrun as (_ & _ & Hdec & _).
  cbn [fst snd]. intros Hin Hnew.
  destruct (Hdec x Hin) as [Hold|(_ & Hnone & Hone & _)]; [contradiction|].
  now split.
Qed.

(** C10: every decoy [possibly_obfuscate] adds is written, as its
    character, with value 1 into the object it was given; in
    [calcNeededChars] that object is the live character list, which holds
    the decoys when the function returns, before any call to a
    collaborator. *)
Theorem decoys_are_marked_at_obfuscation :
  (forall noObf draws codes al loadable x,
     let padded := possibly_obfuscate noObf draws codes al loadable in
     In x (fst padded) -> ~ In x codes ->
     al !! stringFromCodePoint x = None
     /\ snd padded !! stringFromCodePoint x = Some 1)
  /\ (forall w s charlist,
        compactCharList_ (this s) = Resolved charlist ->
        neededCodes_of s charlist <> [] ->
        asserts_hold w s = true ->
        let padded := obfuscated_of w s charlist in
        let run := calcNeededChars w s in
        exists live events,
          compactCharList_ (this (snd run)) = Resolved live
          /\ (forall x, In x (fst padded) ->
                ~ In x (neededCodes_of s charlist) ->
                charlist !! stringFromCodePoint x = None
                /\ live !! stringFromCodePoint x = Some 1)
          /\ history (snd run) = history s ++ events
          /\ existsb is_call events = false).
Proof.
  split; [exact possibly_obfuscate_marks_decoys|].
  intros w s charlist Hcl Hneeded Hassert padded run.
  unfold run. rewrite (calcNeededChars_run w s charlist) by assumption.
  unfold state_after_calc. cbn [snd this history]. fold padded.
  do 2 eexists. split; [reflexivity|]. split; [|split; [reflexivity|]].
  - intros x Hin Hnew.
    destruct (possibly_obfuscate_marks_decoys (noObfuscate w)
                (random w (history s ++ miss_logs s charlist))
                (neededCodes_of s charlist) charlist
                (loadableCodepoints_ (this s)) x Hin Hnew) as [Hnone Hone].
    split; [assumption|]. now apply mark_loop_keeps.
  - unfold miss_logs. destruct (remaining_chunk _ _); reflexivity.
Qed.

Lemma decoys_are_marked_at_obfuscation_witness :
  snd (possibly_obfuscate false (fun i => 7 * Z.of_nat i) [97] ∅
         (list_to_set [97; 98; 99])) !! [98]
  = Some 1.
Proof.
  refine (proj2 (proj1 decoys_are_marked_at_obfuscation false
                   (fun i => 7 * Z.of_nat i) [97] ∅
                   (list_to_set [97; 98; 99]) 98 _ _)).
  - vm_compute. auto.
  - intros [H|[]]. discriminate.
Defined.

(** ** The needed characters *)

(** C4: a requested character's code point is among the needed codes if and
    only if the font can load it and the character list does not hold the
    character; no code the diff returns, and no code [calcNeededChars]
    returns, is outside the loadable code points or already in the
    character list. *)
Theorem needed_codes_iff (s : State) (charlist : charmap) :
  Forall (fun c => well_formed_char c = true)
    (map fst (charsToLoad_ (this s))) ->
  let loadable := loadableCodepoints_ (this s) in
  (forall c, In c (map fst (charsToLoad_ (this s))) ->
     exists k, charToCode c = Some k
       /\ (In k (neededCodes_of s charlist)
           <-> isSet loadable k = true /\ falsy (charlist !! c) = true))
  /\ (forall k, In k (neededCodes_of s charlist) ->
        isSet loadable k = true
        /\ falsy (charlist !! stringFromCodePoint k) = true)
  /\ (forall w r k,
        compactCharList_ (this s) = Resolved charlist ->
        fst (calcNeededChars w s) = Resolved r ->
        In k r ->
        isSet loadable k = true
        /\ falsy (charlist !! stringFromCodePoint k) = true).
Proof.
  intros Hwf loadable.
  destruct (needed_codes_char s charlist Hwf) as [Hiff Hsound].
  split; [exact Hiff|]. split; [exact Hsound|].
  intros w r k Hcl Hres Hk.
  rewrite (calcNeededChars_result w s charlist r Hcl Hres) in Hk.
  apply (proj1 (sort_numeric_In k _)) in Hk. apply head_chunk_In in Hk.
  unfold obfuscated_of in Hk.
  destruct (possibly_obfuscate _ _ _ _ _) as [res al'] eqn:Hrun.
  apply possibly_obfuscate_spec in Hrun as (_ & _ & Hdec & _).
  destruct (Hdec k Hk) as [Hreal|(Hset & Hnone & _)].
  - now apply Hsound.
  - split; [assumption|]. now rewrite Hnone.
Qed.

Lemma needed_codes_iff_witness :
  let s := sample_state (sample_font [([97], 1); ([120], 1)] None) in
  exists k, charToCode [97] = Some k
    /\ (In k (neededCodes_of s ∅)
        <-> isSet (loadableCodepoints_ (this s)) k = true
            /\ falsy ((∅ : charmap) !! [97]) = true).
Proof.
  intros s.
  refine (proj1 (needed_codes_iff s ∅ _) [97] _).
  - repeat constructor.
  - left. reflexivity.
Defined.

Lemma fingerprint_mismatch_drops_database_witness :
  let w := sample_world false (Resolved (Some stale_bundle)) (Resolved tt)
             (Resolved sample_cff) in
  let s := sample_state (sample_font [([97], 1)] None) in
  is_rejected (fst (fetchChars w [97] s)) = true
  /\ idb (snd (fetchChars w [97] s)) = NoDatabase.
Proof.
  intros w s.
  destruct (fingerprint_mismatch_drops_database w s [97] stale_bundle)
    as (Hrej & _ & Hdropped & _).
  - discriminate.
  - reflexivity.
  - discriminate.
  - split; [exact Hrej|]. exact (proj1 (Hdropped tt eq_refl)).
Defined.

(** The scenario of the specification at the level of the cycle: a base
    with fingerprint [abc123] and a bundle signed [xyz789]. *)
Example stale_bundle_cycle :
  let w := sample_world false (Resolved (Some stale_bundle)) (Resolved tt)
             (Resolved sample_cff) in
  let s := sample_state (sample_font [([97], 1)] None) in
  idb (snd (loadChars w s)) = NoDatabase
  /\ existsb is_injection (cycle_events w s) = false
  /\ cycle_events w s
     = [Called GetPrecedingPromise true; AddLog MISS_COUNT 1 1;
        AddLog MISS_RATE 100 1; Called (RequestCodepoints [97; 98; 99]) true;
        ReportError "EIF42"; Called DeleteDatabase true; ResolveChained].
Proof. vm_compute. repeat split. Qed.

(** With enough loadable code points around [A] and draws that spread over
    the window, the padded request reaches twenty codes. *)
Example possibly_obfuscate_65_full :
  fst (possibly_obfuscate false (fun i => 7 * Z.of_nat i) [65] ∅
         (list_to_set (map Z.of_nat (seq 0 200))))
  = [0; 7; 14; 21; 28; 35; 42; 49; 56; 63; 65; 70; 77; 84; 91; 98; 105; 112;
     119; 126].
Proof. vm_compute. reflexivity. Qed.

(** A cycle in which the backend fails: the fault is reported and the
    promise resolves. *)
Example faulty_cycle_is_reported :
  let w := sample_world false (Rejected (Failure 503)) (Resolved tt)
             (Resolved sample_cff) in
  let s := sample_state (sample_font [([97], 1)] None) in
  loadChars w s = (Resolved tt, snd (loadChars w s))
  /\ existsb is_fault (cycle_events w s) = true
  /\ existsb is_report (cycle_events w s) = true.
Proof. vm_compute. repeat split. Qed.

(* ===================================================================== *)
(** * Further properties of the code *)
(* ===================================================================== *)

(** ** [stringToChars] and [charToCode] *)

Lemma stringToChars_concat_aux (str : jsstring) :
  (concat (stringToChars str) = str
   /\ Forall (fun c => length c = 1%nat \/ length c = 2%nat)
        (stringToChars str))
  /\ forall cc,
       concat (stringToChars (cc :: str)) = cc :: str
       /\ Forall (fun c => length c = 1%nat \/ length c = 2%nat)
            (stringToChars (cc :: str)).
Proof.
  induction str as [|next rest IH].
  - split; [split; [reflexivity|constructor]|].
    intros cc. simpl. destruct (is_high_surrogate cc); simpl;
      (split; [reflexivity|repeat constructor; auto]).
  - destruct IH as [[Hcat Hlen] Hcons]. split; [exact (Hcons next)|].
    intros cc. change (stringToChars (cc :: next :: rest))
      with (if is_high_surrogate cc
            then [cc; next] :: stringToChars rest
            else [cc] :: stringToChars (next :: rest)).
    destruct (is_high_surrogate cc).
    + split; [cbn [concat app]; now rewrite Hcat|constructor; auto].
    + destruct (Hcons next) as [Hcat' Hlen'].
      split; [cbn [concat app]; now rewrite Hcat'|constructor; auto].
Qed.

(** X1: [stringToChars] cuts a string into pieces of one or two code units
    and loses nothing: the pieces put together are the string. *)
Theorem stringToChars_concat (str : jsstring) :
  concat (stringToChars str) = str
  /\ Forall (fun c => length c = 1%nat \/ length c = 2%nat)
       (stringToChars str).
Proof. exact (proj1 (stringToChars_concat_aux str)). Qed.

(** X2: a string made of characters, each one code unit that is not a high
    surrogate or a surrogate pair, is cut back into these characters. *)
Theorem stringToChars_of_chars (chars : list jsstring) :
  Forall (fun c => well_formed_char c = true) chars ->
  stringToChars (concat chars) = chars.
Proof.
  induction 1 as [|c chars Hc _ IH]; [reflexivity|].
  destruct c as [|cc [|lo [|]]]; simpl in Hc; try discriminate.
  - apply andb_true_iff in Hc as [_ Hhigh]. apply negb_true_iff in Hhigh.
    simpl. unfold is_high_surrogate. rewrite Hhigh. now rewrite IH.
  - apply andb_true_iff in Hc as [Hc _]. apply andb_true_iff in Hc as [Hc _].
    simpl. unfold is_high_surrogate. rewrite Hc. now rewrite IH.
Qed.

Lemma stringToChars_of_chars_witness :
  stringToChars (concat [[97]; [0xD83D; 0xDE00]; [98]])
  = [[97]; [0xD83D; 0xDE00]; [98]].
Proof.
  apply stringToChars_of_chars. repeat constructor.
Defined.

(** [charToCode] yields [NaN] on the empty string and on a high surrogate
    that stands alone, and a number on every other string. *)
Lemma charToCode_none (c : jsstring) :
  charToCode c = None
  <-> c = [] \/ exists hi, c = [hi] /\ is_high_surrogate hi = true.
Proof.
  unfold charToCode, charCodeAt, is_high_surrogate.
  destruct c as [|cc rest]; simpl.
  - split; auto.
  - destruct ((0xD800 <=? cc) && (cc <=? 0xDBFF)) eqn:Hhigh.
    + destruct rest as [|lo rest]; simpl.
      * split; [|reflexivity]. intros _. right. now exists cc.
      * split; [discriminate|]. intros [H|(hi & H & _)]; discriminate.
    + split; [discriminate|].
      intros [H|(hi & H & Hhi)]; [discriminate|].
      injection H as <- _. congruence.
Qed.

(** X3: of the characters [stringToChars] cuts, only a high surrogate at
    the very end of the string has no code. *)
Theorem stringToChars_codes (str : jsstring) (c : jsstring) :
  In c (stringToChars str) ->
  charToCode c = None ->
  exists before hi,
    str = before ++ [hi] /\ c = [hi] /\ is_high_surrogate hi = true.
Proof.
  revert c.
  assert (H : (forall c, In c (stringToChars str) -> charToCode c = None ->
                 exists before hi, str = before ++ [hi] /\ c = [hi]
                   /\ is_high_surrogate hi = true)
              /\ forall cc c, In c (stringToChars (cc :: str)) ->
                   charToCode c = None ->
                   exists before hi, cc :: str = before ++ [hi] /\ c = [hi]
                     /\ is_high_surrogate hi = true).
  { induction str as [|next rest IH].
    - split; [intros c []|]. intros cc c Hin Hnan. simpl in Hin.
      apply charToCode_none in Hnan.
      destruct (is_high_surrogate cc) eqn:Hhigh;
        destruct Hin as [<-|[]];
        destruct Hnan as [Hnil|(hi & Heq & Hhi)]; try discriminate;
        injection Heq as <-; exists [], cc; auto.
    - destruct IH as [IHrest IHcons]. split; [exact (IHcons next)|].
      intros cc c Hin Hnan.
      change (stringToChars (cc :: next :: rest))
        with (if is_high_surrogate cc
              then [cc; next] :: stringToChars rest
              else [cc] :: stringToChars (next :: rest)) in Hin.
      destruct (is_high_surrogate cc) eqn:Hhigh.
      + destruct Hin as [<-|Hin].
        * apply charToCode_none in Hnan as [?|(hi & ? & _)]; discriminate.
        * destruct (IHrest c Hin Hnan) as (before & hi & -> & Hc & Hhi).
          exists (cc :: next :: before), hi. auto.
      + destruct Hin as [<-|Hin].
        * apply charToCode_none in Hnan as [?|(hi & Heq & Hhi)];
            [discriminate|]. injection Heq as <-. congruence.
        * destruct (IHcons next c Hin Hnan) as (before & hi & Heq & Hc & Hhi).
          exists (cc :: before), hi. rewrite Heq. auto. }
  exact (proj1 H).
Qed.

Lemma stringToChars_codes_witness :
  exists before hi,
    [97; 0xD83D] = before ++ [hi] /\ [0xD83D] = [hi]
    /\ is_high_surrogate hi = true.
Proof.
  apply (stringToChars_codes [97; 0xD83D] [0xD83D]).
  - right. left. reflexivity.
  - reflexivity.
Defined.

(** X4: on characters [charToCode] gives a Unicode code point, and it tells
    characters apart: two characters with the same code are the same. *)
Theorem charToCode_injective (c1 c2 : jsstring) :
  well_formed_char c1 = true ->
  well_formed_char c2 = true ->
  (exists k, charToCode c1 = Some k /\ 0 <= k <= 0x10FFFF)
  /\ (charToCode c1 = charToCode c2 -> c1 = c2).
Proof.
  intros Hc1 Hc2.
  destruct (charToCode_well_formed c1 Hc1) as (k1 & Hk1 & Hback1).
  destruct (charToCode_well_formed c2 Hc2) as (k2 & Hk2 & Hback2).
  split.
  - exists k1. split; [assumption|].
    destruct c1 as [|cc [|lo [|]]]; simpl in Hc1; try discriminate;
      unfold charToCode, charCodeAt in Hk1; simpl in Hk1.
    + apply andb_true_iff in Hc1 as [Hc1 Hhigh].
      apply negb_true_iff in Hhigh. rewrite Hhigh in Hk1.
      injection Hk1 as <-. apply andb_true_iff in Hc1 as [H0 H1]. lia.
    + apply andb_true_iff in Hc1 as [Hc1 Hlo1].
      apply andb_true_iff in Hc1 as [Hc1 Hlo0].
      rewrite Hc1 in Hk1. injection Hk1 as <-.
      apply andb_true_iff in Hc1 as [Hhi0 Hhi1].
      rewrite Z.shiftl_mul_pow2 by lia. lia.
  - intros Heq. rewrite Hk1, Hk2 in Heq. injection Heq as ->.
    congruence.
Qed.

Lemma charToCode_injective_witness :
  exists k, charToCode [0xD83D; 0xDE00] = Some k /\ 0 <= k <= 0x10FFFF.
Proof.
  exact (proj1 (charToCode_injective [0xD83D; 0xDE00] [97]
                  eq_refl eq_refl)).
Defined.

(** ** [fontId] *)

Lemma string_append_cons (c : Ascii.ascii) (a b : string) :
  (String c a ++ b)%string = String c (a ++ b)%string.
Proof. reflexivity. Qed.

Lemma string_append_empty (b : string) : ("" ++ b)%string = b.
Proof. reflexivity. Qed.

Lemma has_semicolon_app (a b : string) :
  has_semicolon (a ++ b) = has_semicolon a || has_semicolon b.
Proof.
  induction a as [|c a IH]; [reflexivity|].
  rewrite string_append_cons. simpl. now rewrite IH, orb_assoc.
Qed.

(** X5: the identifier tells fonts apart: when the weights hold no [;],
    two fonts with the same identifier have the same family and the same
    weight. *)
Theorem fontId_injective (family1 weight1 family2 weight2 : string) :
  has_semicolon weight1 = false ->
  has_semicolon weight2 = false ->
  fontId family1 weight1 = fontId family2 weight2 ->
  family1 = family2 /\ weight1 = weight2.
Proof.
  unfold fontId. intros Hw1 Hw2. revert family2.
  induction family1 as [|c1 f1 IH]; intros [|c2 f2] Heq;
    rewrite ?string_append_cons, ?string_append_empty in Heq.
  - injection Heq as ->. auto.
  - injection Heq as <- Heq. exfalso.
    rewrite Heq, has_semicolon_app in Hw1.
    rewrite ?string_append_cons, ?string_append_empty in Hw1.
    simpl in Hw1.
    now rewrite orb_true_r in Hw1.
  - injection Heq as -> Heq. exfalso.
    rewrite <- Heq, has_semicolon_app in Hw2.
    rewrite ?string_append_cons, ?string_append_empty in Hw2.
    simpl in Hw2.
    now rewrite orb_true_r in Hw2.
  - injection Heq as -> Heq. destruct (IH f2 Heq) as [-> ->]. auto.
Qed.

Lemma fontId_injective_witness :
  "Noto Sans"%string = "Noto Sans"%string /\ "400"%string = "400"%string.
Proof.
  apply (fontId_injective "Noto Sans" "400" "Noto Sans" "400");
    reflexivity.
Defined.

(** ** [possibly_obfuscate], for every request *)

(** X6: a request of fewer than twenty code points comes back padded in
    ascending order without repetition, with every code it had and at
    most twenty codes in all. *)
Theorem possibly_obfuscate_padded draws codes al loadable :
  (forall code, In code codes -> 0 <= code <= 0x10FFFF) ->
  Z.of_nat (length codes) < MINIMUM_NON_OBFUSCATION_LENGTH ->
  let padded := fst (possibly_obfuscate false draws codes al loadable) in
  StronglySorted Z.lt padded
  /\ (forall x, In x codes -> In x padded)
  /\ Z.of_nat (length padded) <= MINIMUM_NON_OBFUSCATION_LENGTH.
Proof.
  intros _ Hlen padded. unfold padded.
  split; [now apply possibly_obfuscate_ascending|].
  destruct (possibly_obfuscate false draws codes al loadable)
    as [res al'] eqn:Hrun.
  apply possibly_obfuscate_spec in Hrun as (Hkeep & _ & _ & Hbound).
  unfold MINIMUM_NON_OBFUSCATION_LENGTH in *. cbn [fst].
  split; [exact Hkeep|].
  assert ((length res <= 20)%nat) by (apply Hbound; [lia|reflexivity]).
  lia.
Qed.

Lemma possibly_obfuscate_padded_witness :
  StronglySorted Z.lt
    (fst (possibly_obfuscate false (fun i => 7 * Z.of_nat i) [99; 97] ∅
            (list_to_set [97; 98; 99]))).
Proof.
  refine (proj1 (possibly_obfuscate_padded (fun i => 7 * Z.of_nat i)
                   [99; 97] ∅ (list_to_set [97; 98; 99]) _ _)).
  - intros code [<-|[<-|[]]]; lia.
  - reflexivity.
Defined.

(** X7: every decoy is a loadable code point that was not requested
    before, and lies within 128 of one of the codes of the request, never
    below 0. *)
Theorem possibly_obfuscate_decoys noObf draws codes al loadable x :
  (forall code, In code codes -> 0 <= code) ->
  In x (fst (possibly_obfuscate noObf draws codes al loadable)) ->
  ~ In x codes ->
  isSet loadable x = true
  /\ al !! stringFromCodePoint x = None
  /\ 0 <= x
  /\ exists code, In code codes /\ code - 128 <= x <= code + 128.
Proof.
  intros Hnonneg Hin Hnew.
  destruct (possibly_obfuscate noObf draws codes al loadable)
    as [res al'] eqn:Hrun.
  apply possibly_obfuscate_spec in Hrun as (_ & _ & Hdec & _).
  destruct (Hdec x Hin) as [Hold|(Hset & Hnone & _ & code & Hcode & Hwin)];
    [contradiction|].
  specialize (Hwin (Hnonneg code Hcode)).
  repeat split; [assumption|assumption|lia|].
  exists code. split; [assumption|lia].
Qed.

Lemma possibly_obfuscate_decoys_witness :
  isSet (list_to_set [97; 98; 99]) 98 = true
  /\ (∅ : charmap) !! stringFromCodePoint 98 = None
  /\ 0 <= 98
  /\ exists code, In code [97] /\ code - 128 <= 98 <= code + 128.
Proof.
  apply (possibly_obfuscate_decoys false (fun i => 7 * Z.of_nat i) [97] ∅
           (list_to_set [97; 98; 99]) 98).
  - intros code [<-|[]]. lia.
  - vm_compute. auto.
  - intros [H|[]]. discriminate.
Defined.

Lemma obfuscate_loop_grows codes loadable draws tries :
  forall i cm (al : charmap) k v,
    snd (obfuscate_loop codes loadable draws tries i cm al) !! k = Some v ->
    al !! k = Some v
    \/ (al !! k = None /\ v = 1
        /\ exists x,
             In x (fst (obfuscate_loop codes loadable draws tries i cm al))
             /\ k = stringFromCodePoint x /\ isSet loadable x = true).
Proof.
  induction tries as [|tries IH]; intros i cm al k v; simpl;
    [now left|].
  destruct (_ <? _); [|now left].
  destruct (nth_error codes _) as [code|]; [|apply IH].
  cbv zeta. set (newCode := uniformRandomFloor _ _ _).
  destruct (isSet loadable newCode) eqn:Hset; simpl; [|apply IH].
  destruct (al !! stringFromCodePoint newCode) eqn:Hal; [apply IH|].
  intros Hk. apply IH in Hk as [Hk|(Hnone & -> & x & Hx & -> & Hsetx)].
  - destruct (decide (stringFromCodePoint newCode = k)) as [<-|Hne].
    + rewrite lookup_insert_eq in Hk. injection Hk as <-.
      right. split; [assumption|]. split; [reflexivity|].
      exists newCode. split; [|auto].
      destruct (obfuscate_loop codes loadable draws tries (S i)
                  (code_map_set newCode cm)
                  (<[stringFromCodePoint newCode:=1]> al))
        as [cm' al'] eqn:Hrun.
      apply obfuscate_loop_spec in Hrun as (Hmono & _).
      apply Hmono, code_map_set_In. now left.
    + rewrite lookup_insert_ne in Hk by assumption. now left.
  - right. split.
    + destruct (decide (stringFromCodePoint newCode
                        = stringFromCodePoint x)) as [Heq|Hne].
      * rewrite <- Heq, lookup_insert_eq in Hnone. discriminate.
      * now rewrite lookup_insert_ne in Hnone.
    + split; [reflexivity|]. exists x. auto.
Qed.

(** X8: [alreadyRequestedChars] only grows: what it held, it holds with
    the same value, and all that is new in it is the character of a
    loadable code of the result, with value 1. *)
Theorem possibly_obfuscate_grows (noObf : bool) (draws : nat -> Z)
    (codes : list Z) (al : charmap) (loadable : SparseBitArray) :
  let run := possibly_obfuscate noObf draws codes al loadable in
  (forall k v, al !! k = Some v -> snd run !! k = Some v)
  /\ (forall k v, snd run !! k = Some v ->
        al !! k = Some v
        \/ (al !! k = None /\ v = 1
            /\ exists x, In x (fst run) /\ k = stringFromCodePoint x
                 /\ isSet loadable x = true)).
Proof.
  cbv zeta. split.
  - destruct (possibly_obfuscate noObf draws codes al loadable)
      as [res al'] eqn:Hrun.
    now apply possibly_obfuscate_spec in Hrun as (_ & Hal & _).
  - unfold possibly_obfuscate.
    destruct noObf; [now left|].
    destruct (_ <=? _); [now left|].
    apply obfuscate_loop_grows.
Qed.

(** ** What [calcNeededChars] does to the manager *)

Lemma mark_loop_cons (code : Z) (codes : list Z) (charlist : charmap)
    (charsToLoad : list (jsstring * Z)) :
  mark_loop (code :: codes) charlist charsToLoad
  = mark_loop codes (<[stringFromCodePoint code := 1]> charlist)
      (List.filter
         (fun kv => negb (bool_decide (fst kv = stringFromCodePoint code)))
         charsToLoad).
Proof. reflexivity. Qed.

Lemma mark_loop_charsToLoad (codes : list Z) :
  forall (charlist : charmap) charsToLoad kv,
    In kv (snd (mark_loop codes charlist charsToLoad))
    <-> In kv charsToLoad
        /\ forall k, In k codes -> fst kv <> stringFromCodePoint k.
Proof.
  induction codes as [|code codes IH]; intros charlist charsToLoad kv.
  - split; [intros H; split; [exact H|intros k []]|now intros [H _]].
  - rewrite mark_loop_cons, IH, filter_In, negb_true_iff,
      bool_decide_eq_false.
    split.
    + intros [[Hin Hne] Hrest]. split; [assumption|].
      intros k [<-|Hk]; auto.
    + intros [Hin Hall]. repeat split; auto.
      * apply Hall. now left.
      * intros k Hk. apply Hall. now right.
Qed.

Lemma mark_loop_truthy (codes : list Z) :
  forall (charlist : charmap) charsToLoad c,
    falsy (fst (mark_loop codes charlist charsToLoad) !! c) = true ->
    falsy (charlist !! c) = true.
Proof.
  induction codes as [|code codes IH]; intros charlist charsToLoad c;
    [auto|].
  rewrite mark_loop_cons. intros H. apply IH in H.
  destruct (decide (stringFromCodePoint code = c)) as [<-|Hne].
  - rewrite lookup_insert_eq in H. discriminate.
  - now rewrite lookup_insert_ne in H.
Qed.

Lemma mark_loop_domain (codes : list Z) :
  forall (charlist : charmap) charsToLoad c v,
    charlist !! c = Some v ->
    exists v', fst (mark_loop codes charlist charsToLoad) !! c = Some v'.
Proof.
  induction codes as [|code codes IH]; intros charlist charsToLoad c v Hc.
  - now exists v.
  - rewrite mark_loop_cons.
    destruct (decide (stringFromCodePoint code = c)) as [<-|Hne].
    + eapply IH. apply lookup_insert_eq.
    + eapply IH. rewrite lookup_insert_ne by assumption. exact Hc.
Qed.

Lemma chunks_cover_all max (l : list Z) :
  head_chunk max l ++ remaining_chunk max l = l.
Proof.
  unfold head_chunk, remaining_chunk.
  destruct (max =? 0); [apply app_nil_r|].
  unfold js_slice.
  set (len := Z.of_nat (length l)).
  assert (Hzero : slice_index len 0 = 0).
  { unfold slice_index. change (0 <? 0) with false. cbv iota.
    apply Z.min_l. unfold len. lia. }
  rewrite Hzero. change (Z.to_nat 0) with O. rewrite skipn_O, Z.sub_0_r.
  assert (Hrange : 0 <= slice_index len max <= len).
  { unfold slice_index. destruct (Z.ltb_spec max 0); unfold len; lia. }
  rewrite (firstn_all2 (n := Z.to_nat (len - slice_index len max)))
    by (rewrite length_skipn; unfold len in *; lia).
  apply firstn_skipn.
Qed.

(** A run that returns codes went all the way. *)
Lemma calcNeededChars_returns_codes w s charlist r :
  compactCharList_ (this s) = Resolved charlist ->
  fst (calcNeededChars w s) = Resolved r ->
  r <> [] ->
  calcNeededChars w s = (Resolved r, state_after_calc w s charlist).
Proof.
  intros Hcl Hres Hr.
  destruct (neededCodes_of s charlist) as [|k ks] eqn:Eneeded.
  - exfalso. apply Hr.
    destruct (charsToLoad_ (this s)) as [|kv rest] eqn:Eload.
    + rewrite calcNeededChars_nothing_requested in Hres by assumption.
      simpl in Hres. congruence.
    + rewrite (calcNeededChars_nothing_needed w s charlist) in Hres;
        [simpl in Hres; congruence|congruence|assumption|assumption].
  - assert (Hneeded : neededCodes_of s charlist <> []) by congruence.
    destruct (asserts_hold w s) eqn:Eassert.
    + rewrite (calcNeededChars_run w s charlist) in * by assumption.
      simpl in Hres. congruence.
    + rewrite (calcNeededChars_assert_fails w s charlist) in Hres
        by assumption.
      discriminate.
Qed.

(** X9: the codes [calcNeededChars] returns are recorded as requested:
    their characters are in the live character list with value 1 and are
    taken out of [charsToLoad_], whose other entries stay as they are; the
    character list loses no entry. *)
Theorem calcNeededChars_records w s charlist r :
  compactCharList_ (this s) = Resolved charlist ->
  fst (calcNeededChars w s) = Resolved r ->
  r <> [] ->
  let after := this (snd (calcNeededChars w s)) in
  exists live,
    compactCharList_ after = Resolved live
    /\ (forall k, In k r ->
          live !! stringFromCodePoint k = Some 1
          /\ ~ In (stringFromCodePoint k) (map fst (charsToLoad_ after)))
    /\ (forall kv,
          In kv (charsToLoad_ after)
          <-> In kv (charsToLoad_ (this s))
              /\ forall k, In k r -> fst kv <> stringFromCodePoint k)
    /\ (forall c v, charlist !! c = Some v -> exists v', live !! c = Some v').
Proof.
  intros Hcl Hres Hr after. unfold after.
  pose proof (calcNeededChars_result w s charlist r Hcl Hres) as Hsorted.
  rewrite (calcNeededChars_returns_codes w s charlist r) by assumption.
  unfold state_after_calc. cbn [snd this].
  set (obf := obfuscated_of w s charlist) in *.
  set (chunk := head_chunk (maximumRequestSize_ (this s)) (fst obf)) in *.
  assert (Hchunk : forall k, In k r <-> In k chunk)
    by (intros k; rewrite Hsorted; apply sort_numeric_In).
  eexists. split; [reflexivity|].
  assert (Hload : forall kv,
    In kv (snd (mark_loop chunk (snd obf) (charsToLoad_ (this s))))
    <-> In kv (charsToLoad_ (this s))
        /\ forall k, In k r -> fst kv <> stringFromCodePoint k).
  { intros kv. rewrite mark_loop_charsToLoad. split; intros [H1 H2];
      (split; [assumption|]); intros k Hk; apply H2, Hchunk, Hk. }
  split; [|split; [exact Hload|]].
  - intros k Hk. split.
    + cbn [compactCharList_ set_charsToLoad set_compactCharList].
      apply mark_loop_marks. now apply Hchunk.
    + cbn [charsToLoad_ set_charsToLoad]. intros Hin.
      apply in_map_iff in Hin as (kv & Hfst & Hin).
      apply Hload in Hin as [_ Hall]. exact (Hall k Hk Hfst).
  - intros c v Hc. eapply mark_loop_domain.
    unfold obf, obfuscated_of.
    destruct (possibly_obfuscate _ _ _ _ _) as [res al'] eqn:Hrun.
    apply possibly_obfuscate_spec in Hrun as (_ & Hal & _).
    apply Hal, Hc.
Qed.

Lemma calcNeededChars_records_witness :
  let w := sample_world true (Resolved (Some matching_bundle)) (Resolved tt)
             (Resolved sample_cff) in
  let s := sample_state
             (sample_font [([99], 1); ([98], 1); ([97], 1)] (Some 2)) in
  exists live,
    compactCharList_ (this (snd (calcNeededChars w s))) = Resolved live
    /\ live !! [98] = Some 1.
Proof.
  intros w s.
  destruct (calcNeededChars_records w s ∅ [98; 99] eq_refl)
    as (live & Hlive & Hmarked & _).
  - vm_compute. reflexivity.
  - discriminate.
  - exists live. split; [exact Hlive|].
    apply (Hmarked 98). left. reflexivity.
Defined.

(** X10: with a positive request size, [calcNeededChars] never returns
    more codes than the request size. *)
Theorem calcNeededChars_bounded w s r :
  0 < maximumRequestSize_ (this s) ->
  fst (calcNeededChars w s) = Resolved r ->
  Z.of_nat (length r) <= maximumRequestSize_ (this s).
Proof.
  intros Hmax Hres.
  destruct (compactCharList_ (this s)) as [charlist|e] eqn:Hcl.
  - rewrite (calcNeededChars_result w s charlist r Hcl Hres).
    rewrite sort_numeric_length, head_chunk_firstn by assumption.
    rewrite length_firstn. lia.
  - destruct (charsToLoad_ (this s)) as [|kv rest] eqn:Eload.
    + rewrite calcNeededChars_nothing_requested in Hres by assumption.
      injection Hres as <-. simpl. lia.
    + rewrite (calcNeededChars_charlist_rejected w s e) in Hres;
        [discriminate|congruence|assumption].
Qed.

Lemma calcNeededChars_bounded_witness :
  Z.of_nat (length [98; 99]) <= 2.
Proof.
  refine (calcNeededChars_bounded
            (sample_world true (Resolved (Some matching_bundle))
               (Resolved tt) (Resolved sample_cff))
            (sample_state
               (sample_font [([99], 1); ([98], 1); ([97], 1)] (Some 2)))
            [98; 99] eq_refl _).
  vm_compute. reflexivity.
Defined.

Lemma calcNeededChars_effect w s :
  let s' := snd (calcNeededChars w s) in
  idb s' = idb s
  /\ font_settings (this s') = font_settings (this s)
  /\ (exists events,
        history s' = history s ++ events
        /\ existsb is_call events = false)
  /\ (forall kv,
        In kv (charsToLoad_ (this s')) -> In kv (charsToLoad_ (this s))).
Proof.
  cbv zeta.
  destruct (charsToLoad_ (this s)) as [|kv0 rest] eqn:Eload.
  { rewrite calcNeededChars_nothing_requested by assumption. cbn [snd].
    repeat split; [|now rewrite Eload].
    exists []. now rewrite app_nil_r. }
  assert (Hload : charsToLoad_ (this s) <> []) by congruence.
  rewrite <- Eload. clear Eload kv0 rest.
  destruct (compactCharList_ (this s)) as [charlist|e] eqn:Ecl.
  2:{ rewrite (calcNeededChars_charlist_rejected w s e) by assumption.
      cbn [snd logged this idb history].
      repeat split; [|auto]. eexists. split; reflexivity. }
  destruct (neededCodes_of s charlist) as [|k ks] eqn:Eneeded.
  { rewrite (calcNeededChars_nothing_needed w s charlist) by assumption.
    cbn [snd logged this idb history].
    repeat split; [|auto]. eexists. split; reflexivity. }
  assert (Hneeded : neededCodes_of s charlist <> []) by congruence.
  destruct (asserts_hold w s) eqn:Eassert.
  - rewrite (calcNeededChars_run w s charlist) by assumption.
    unfold state_after_calc. cbn [snd this idb history].
    repeat split.
    + eexists. split; [reflexivity|].
      destruct (remaining_chunk _ _); reflexivity.
    + intros kv Hkv. cbn [charsToLoad_ set_charsToLoad] in Hkv.
      now apply mark_loop_charsToLoad in Hkv as [Hkv _].
  - rewrite (calcNeededChars_assert_fails w s charlist) by assumption.
    cbn [snd logged this idb history].
    repeat split; [|auto]. eexists. split; reflexivity.
Qed.

(** X11: [calcNeededChars] does not touch the database, calls no
    collaborator, leaves every setting of the manager as it was and adds
    nothing to [charsToLoad_]. *)
Theorem calcNeededChars_frame w s :
  let s' := snd (calcNeededChars w s) in
  idb s' = idb s
  /\ font_settings (this s') = font_settings (this s)
  /\ (exists events,
        history s' = history s ++ events
        /\ existsb is_call events = false)
  /\ (forall kv,
        In kv (charsToLoad_ (this s')) -> In kv (charsToLoad_ (this s))).
Proof. exact (calcNeededChars_effect w s). Qed.

Lemma falsy_before (al al' : charmap) c :
  (forall k v, al !! k = Some v -> al' !! k = Some v) ->
  falsy (al' !! c) = true -> falsy (al !! c) = true.
Proof.
  intros Hsub Hf. destruct (al !! c) as [v|] eqn:Hc; [|reflexivity].
  now rewrite (Hsub c v Hc) in Hf.
Qed.

(** X12: once a run of [calcNeededChars] has returned without leaving a
    remainder, a second run finds nothing to request. *)
Theorem calcNeededChars_idempotent w s charlist r :
  compactCharList_ (this s) = Resolved charlist ->
  Forall (fun c => well_formed_char c = true)
    (map fst (charsToLoad_ (this s))) ->
  remaining_chunk (maximumRequestSize_ (this s))
    (fst (obfuscated_of w s charlist)) = [] ->
  fst (calcNeededChars w s) = Resolved r ->
  fst (calcNeededChars w (snd (calcNeededChars w s))) = Resolved [].
Proof.
  intros Hcl Hwf Hrest Hres.
  destruct (charsToLoad_ (this s)) as [|kv0 rest] eqn:Eload.
  { rewrite (calcNeededChars_nothing_requested w s) by assumption.
    cbn [snd]. now rewrite calcNeededChars_nothing_requested. }
  assert (Hload : charsToLoad_ (this s) <> []) by congruence.
  rewrite <- Eload in *. clear Eload kv0 rest.
  destruct (neededCodes_of s charlist) as [|k0 ks] eqn:Eneeded.
  { rewrite (calcNeededChars_nothing_needed w s charlist) by assumption.
    cbn [snd].
    now rewrite (calcNeededChars_nothing_needed w _ charlist). }
  assert (Hneeded : neededCodes_of s charlist <> []) by congruence.
  clear Eneeded k0 ks.
  destruct (asserts_hold w s) eqn:Eassert.
  2:{ rewrite (calcNeededChars_assert_fails w s charlist) in Hres
        by assumption. discriminate. }
  rewrite (calcNeededChars_run w s charlist) by assumption. cbn [snd].
  set (s' := state_after_calc w s charlist).
  set (obf := obfuscated_of w s charlist) in *.
  set (chunk := head_chunk (maximumRequestSize_ (this s)) (fst obf)).
  set (live := fst (mark_loop chunk (snd obf) (charsToLoad_ (this s)))).
  assert (Hlive : compactCharList_ (this s') = Resolved live)
    by reflexivity.
  assert (Hchunk : chunk = fst obf).
  { pose proof (chunks_cover_all (maximumRequestSize_ (this s)) (fst obf))
      as Hcover. rewrite Hrest, app_nil_r in Hcover. exact Hcover. }
  assert (Hnone : neededCodes_of s' live = []).
  { destruct (neededCodes_of s' live) as [|k ks] eqn:E; [reflexivity|].
    exfalso.
    assert (Hk : In k (neededCodes_of s' live))
      by (rewrite E; now left).
    apply needed_codes_exact in Hk as (c & Hc & Hcode & Hset & Hf).
    apply in_map_iff in Hc as ([c' v] & Hfst & Hc). simpl in Hfst.
    subst c'.
    apply (mark_loop_charsToLoad chunk (snd obf)) in Hc as [Hc Hout].
    simpl in Hout.
    apply mark_loop_truthy in Hf.
    apply (falsy_before charlist) in Hf.
    2:{ unfold obf, obfuscated_of.
        destruct (possibly_obfuscate _ _ _ _ _) as [res al'] eqn:Hrun.
        now apply possibly_obfuscate_spec in Hrun as (_ & Hal & _). }
    assert (Hkey : In c (map fst (charsToLoad_ (this s))))
      by (apply in_map_iff; exists (c, v); auto).
    assert (Hin : In k (neededCodes_of s charlist)).
    { apply needed_codes_exact. exists c. auto. }
    rewrite List.Forall_forall in Hwf.
    destruct (charToCode_well_formed c (Hwf c Hkey)) as (k' & Hk' & Hback).
    assert (k' = k) by congruence. subst k'.
    apply (Hout k); [|now symmetry].
    rewrite Hchunk. unfold obf, obfuscated_of.
    destruct (possibly_obfuscate _ _ _ _ _) as [res al'] eqn:Hrun.
    apply possibly_obfuscate_spec in Hrun as (Hkeep & _). now apply Hkeep. }
  destruct (charsToLoad_ (this s')) as [|kv rest] eqn:Eload'.
  - now rewrite calcNeededChars_nothing_requested.
  - rewrite (calcNeededChars_nothing_needed w s' live);
      [reflexivity|congruence|assumption|assumption].
Qed.

Lemma calcNeededChars_idempotent_witness :
  let w := sample_world false (Resolved (Some matching_bundle)) (Resolved tt)
             (Resolved sample_cff) in
  let s := sample_state (sample_font [([97], 1); ([120], 1)] None) in
  fst (calcNeededChars w (snd (calcNeededChars w s))) = Resolved [].
Proof.
  intros w s.
  apply (calcNeededChars_idempotent w s ∅ [97; 98; 99]).
  - reflexivity.
  - repeat constructor.
  - vm_compute. reflexivity.
  - vm_compute. reflexivity.
Defined.

(** ** [fetchChars] and [injectCompact] *)

Lemma fetchChars_resolved w codes s r :
  fst (fetchChars w codes s) = Resolved r ->
  codes <> []
  /\ backend_requestCodepoints w (history s) codes = Resolved r
  /\ snd (fetchChars w codes s)
     = logged s [Called (RequestCodepoints codes) true]
  /\ (forall bundle, r = Some bundle ->
        signature bundle = sha1_fingerprint_ (this s)).
Proof.
  intros Hres.
  assert (Hne : codes <> []).
  { intros ->. discriminate Hres. }
  split; [assumption|].
  destruct (backend_requestCodepoints w (history s) codes) as [[b|]|e]
    eqn:Hreq.
  - rewrite (fetchChars_bundle w s codes b) in * by assumption.
    destruct (asserts_hold w s
              && String.eqb (sha1_fingerprint_ (this s)) (signature b))
      eqn:Hcheck.
    + cbn [fst snd] in *. injection Hres as <-.
      repeat split. intros bundle [= <-].
      apply andb_true_iff in Hcheck as [_ Heq].
      apply String.eqb_eq in Heq. now symmetry.
    + rewrite handleFingerprintMismatch_run in Hres. discriminate.
  - rewrite (fetchChars_null_bundle w s codes) in * by assumption.
    cbn [fst snd] in *. injection Hres as <-.
    repeat split. discriminate.
  - rewrite (fetchChars_transport_failure w s codes e) in Hres
      by assumption.
    rewrite handleFingerprintMismatch_run in Hres. discriminate.
Qed.

(** X13: a bundle that [fetchChars] resolves with is the answer of the
    backend to one request for exactly the given codes, and it carries
    the fingerprint of the font; nothing else happened, and the list of
    codes was not empty. *)
Theorem fetchChars_fulfilled w codes s r :
  fst (fetchChars w codes s) = Resolved r ->
  codes <> []
  /\ backend_requestCodepoints w (history s) codes = Resolved r
  /\ snd (fetchChars w codes s)
     = logged s [Called (RequestCodepoints codes) true]
  /\ (forall bundle, r = Some bundle ->
        signature bundle = sha1_fingerprint_ (this s)).
Proof. exact (fetchChars_resolved w codes s r). Qed.

Lemma fetchChars_fulfilled_witness :
  let w := sample_world true (Resolved (Some matching_bundle)) (Resolved tt)
             (Resolved sample_cff) in
  let s := sample_state (sample_font [([97], 1)] None) in
  snd (fetchChars w [97] s) = logged s [Called (RequestCodepoints [97]) true].
Proof.
  intros w s.
  apply (fetchChars_fulfilled w [97] s (Some matching_bundle)).
  vm_compute. reflexivity.
Defined.

(** X14: [injectCompact] resolves exactly when the injection and the
    update of the browser's font both succeed (and the assertion on the
    file info passes); it then resolves with the injected font, has made
    these two calls and nothing else, and records the new blob URL. *)
Theorem injectCompact_fulfilled w codes bundle s cff :
  fst (injectCompact w codes bundle s) = Resolved cff
  <-> compactCff_injectChars w (history s) codes = Resolved cff
      /\ asserts_hold w s = true
      /\ exists url,
           browser_setFont w (history s ++ [Called (InjectChars codes) true])
           = Resolved url
           /\ snd (injectCompact w codes bundle s)
              = mkState (set_blobUrl (this s) (Some url)) (idb s)
                  (history s ++ [Called (InjectChars codes) true;
                                 Called SetFont true])
                  (timers s).
Proof.
  unfold injectCompact, injectChars, deleteDatabase, setFont,
    compactCharList_resolve, asserts_hold.
  chain_unfold. cbn [snd fst history idb this timers].
  destruct (compactCff_injectChars w (history s) codes) as [c|e];
    cbn [snd fst history idb this timers].
  - destruct (ENABLE_ASSERTS w), (haveReadFileInfo_ (this s));
      cbn [andb negb orb snd fst history idb this timers];
      try (split; [discriminate|intros (_ & H & _); discriminate]);
      (destruct (browser_setFont w _) as [url|e];
       cbn [snd fst history idb this timers];
       [destruct (cff_charList c); cbn [snd fst history idb this timers];
        (split;
         [intros [= <-]; repeat split; exists url; split; [reflexivity|];
          unfold id; rewrite <- app_assoc; reflexivity
         |intros ([= <-] & _); reflexivity])
       |split; [discriminate|intros (_ & _ & url & H & _); discriminate]]).
  - split; [|intros (H & _); discriminate].
    destruct (persist_deleteDatabase w _); discriminate.
Qed.

(** X15: however [injectCompact] fails, the manager is left as it was
    (the blob URL is not replaced).  A failed injection is reported, the
    database is deleted when the store allows it, and the error of the
    injection is passed on without a call to [setFont]; a failed
    [setFont] is reported and leaves the database alone. *)
Theorem injectCompact_rejected w codes bundle s e :
  fst (injectCompact w codes bundle s) = Rejected e ->
  let s' := snd (injectCompact w codes bundle s) in
  this s' = this s
  /\ timers s' = timers s
  /\ ((compactCff_injectChars w (history s) codes = Rejected e
       /\ exists deleted,
            history s'
            = history s
                ++ [Called (InjectChars codes) false;
                    ReportError (FILE_ID ++ INJECT_FONT_INJECT_CHARS);
                    Called DeleteDatabase deleted]
            /\ idb s' = if deleted then NoDatabase else idb s)
      \/ (exists cff,
            compactCff_injectChars w (history s) codes = Resolved cff
            /\ idb s' = idb s
            /\ ((asserts_hold w s = false /\ e = AssertionError
                 /\ history s'
                    = history s ++ [Called (InjectChars codes) true])
                \/ (asserts_hold w s = true
                    /\ history s'
                       = history s
                           ++ [Called (InjectChars codes) true;
                               Called SetFont false;
                               ReportError
                                 (FILE_ID ++ INJECT_FONT_COMPACT)])))).
Proof.
  cbv zeta.
  unfold injectCompact, injectChars, deleteDatabase, setFont,
    compactCharList_resolve, asserts_hold.
  chain_unfold. cbn [snd fst history idb this timers].
  destruct (compactCff_injectChars w (history s) codes) as [c|e0];
    cbn [snd fst history idb this timers].
  - destruct (ENABLE_ASSERTS w), (haveReadFileInfo_ (this s));
      cbn [andb negb orb snd fst history idb this timers];
      try (intros [= <-]; repeat split; right; exists c;
           repeat split; left; repeat split);
      (destruct (browser_setFont w _) as [url|e1];
       cbn [snd fst history idb this timers];
       [destruct (cff_charList c); discriminate|];
       intros [= <-]; repeat split; right; exists c; repeat split;
       right; split; [reflexivity|];
       unfold id; rewrite <- !app_assoc; reflexivity).
  - destruct (persist_deleteDatabase w _) eqn:Hdel;
      cbn [snd fst history idb this timers];
      intros [= <-]; repeat split; left; split; try reflexivity;
      eexists; (split; [rewrite <- !app_assoc; reflexivity|reflexivity]).
Qed.

Lemma injectCompact_rejected_witness :
  let w := sample_world true (Resolved (Some matching_bundle)) (Resolved tt)
             (Rejected (Failure 7)) in
  let s := sample_state (sample_font [([97], 1)] None) in
  this (snd (injectCompact w [97] matching_bundle s)) = this s.
Proof.
  intros w s.
  apply (injectCompact_rejected w [97] matching_bundle s (Failure 7)).
  vm_compute. reflexivity.
Defined.

(** ** The cycle of [loadChars] *)

Lemma logged_logged s ev1 ev2 :
  logged (logged s ev1) ev2 = logged s (ev1 ++ ev2).
Proof. unfold logged. cbn [this idb history timers]. now rewrite app_assoc. Qed.

Lemma loadChars_inject_run w codes bundle s charlist :
  compactCharList_ (this s) = Resolved charlist ->
  snd (loadChars_inject w codes (Some bundle) s)
  = snd (injectCompact w codes bundle (noted bundle s)).
Proof.
  intros Hcl. unfold loadChars_inject, getCompactCharList, noted.
  unfold thenCatch, then_, detached, modify_this, Promise_resolve.
  destruct (glyphCount bundle =? 0); cbn [this idb history timers];
    [rewrite Hcl|cbn [compactCharList_ set_needToSetFont]; rewrite Hcl];
    reflexivity.
Qed.

Lemma calcNeededChars_needs_charlist w s r :
  fst (calcNeededChars w s) = Resolved r -> r <> [] ->
  exists charlist, compactCharList_ (this s) = Resolved charlist.
Proof.
  intros Hres Hr.
  destruct (compactCharList_ (this s)) as [charlist|e] eqn:Hcl;
    [now exists charlist|exfalso].
  destruct (charsToLoad_ (this s)) as [|kv rest] eqn:Eload.
  - rewrite calcNeededChars_nothing_requested in Hres by assumption.
    cbn in Hres. congruence.
  - rewrite (calcNeededChars_charlist_rejected w s e) in Hres;
      [discriminate|congruence|assumption].
Qed.

(** Every cycle ends in one of the six ways of [cycle_outcome]. *)
Lemma loadChars_outcome w s : cycle_outcome w s (snd (loadChars w s)).
Proof.
  destruct (chained_getPrecedingPromise w (history s)) as [[]|e] eqn:Hlock.
  2:{ rewrite (loadChars_lock_fails w s e) by assumption. constructor. }
  destruct (asserts_hold w s) eqn:Hassert.
  2:{ rewrite (loadChars_assert_fails w s tt) by assumption. constructor. }
  rewrite (loadChars_cycle w s tt) by assumption. cbn [snd].
  unfold cycle_body. fold (locked s).
  destruct (calcNeededChars w (locked s)) as [[r|e] s1] eqn:Hcalc.
  2:{ rewrite logged_logged. now apply (cycle_calc_rejected w s e). }
  destruct r as [|k r']; [now apply cycle_nothing_needed|].
  set (r := k :: r') in *.
  assert (Hr : r <> []) by discriminate.
  destruct (calcNeededChars_needs_charlist w (locked s) r)
    as [charlist Hcl]; [now rewrite Hcalc|assumption|].
  assert (Hrun : calcNeededChars w (locked s)
                 = (Resolved r, state_after_calc w (locked s) charlist)).
  { apply calcNeededChars_returns_codes; [assumption| |assumption].
    now rewrite Hcalc. }
  assert (s1 = state_after_calc w (locked s) charlist) by congruence.
  subst s1.
  destruct (fetchChars w r (state_after_calc w (locked s) charlist))
    as [[b|e] s2] eqn:Hfetch.
  2:{ now apply (cycle_fetch_rejected w s charlist r e). }
  destruct (fetchChars_resolved w r
              (state_after_calc w (locked s) charlist) b)
    as (_ & Hreq & Hs2 & Hsig); [now rewrite Hfetch|].
  rewrite Hfetch in Hs2. cbn [snd] in Hs2. subst s2.
  destruct b as [bundle|].
  - rewrite (loadChars_inject_run w r bundle _
               (fst (mark_loop
                       (head_chunk (maximumRequestSize_ (this (locked s)))
                          (fst (obfuscated_of w (locked s) charlist)))
                       (snd (obfuscated_of w (locked s) charlist))
                       (charsToLoad_ (this (locked s)))))) by reflexivity.
    apply (cycle_injected w s charlist r bundle); auto.
  - cbn [loadChars_inject Promise_reject snd]. rewrite logged_logged.
    now apply (cycle_null_bundle w s charlist r).
Qed.

Lemma existsb_false_In {A : Type} (f : A -> bool) (l : list A) x :
  existsb f l = false -> In x l -> f x = false.
Proof.
  intros Hnone Hin. destruct (f x) eqn:Hfx; [|reflexivity].
  rewrite <- Hnone. symmetry. apply existsb_exists. now exists x.
Qed.

Lemma filter_existsb_false {A : Type} (f : A -> bool) (l : list A) :
  existsb f l = false -> List.filter f l = [].
Proof.
  induction l as [|x l IH]; [reflexivity|]. simpl.
  intros H. apply orb_false_iff in H as [-> H]. now apply IH.
Qed.

Lemma calcNeededChars_trace w s :
  exists ev,
    history (snd (calcNeededChars w s)) = history s ++ ev
    /\ existsb is_call ev = false
    /\ existsb is_refetch ev = false
    /\ (timers (snd (calcNeededChars w s)) <= S (timers s))%nat.
Proof.
  destruct (charsToLoad_ (this s)) as [|kv rest] eqn:Eload.
  { rewrite calcNeededChars_nothing_requested by assumption.
    exists []. rewrite app_nil_r. cbn [snd]. repeat split. lia. }
  assert (Hload : charsToLoad_ (this s) <> []) by congruence.
  destruct (compactCharList_ (this s)) as [charlist|e] eqn:Ecl.
  2:{ rewrite (calcNeededChars_charlist_rejected w s e) by assumption.
      eexists. cbn [snd logged history timers].
      repeat split. lia. }
  destruct (neededCodes_of s charlist) as [|k ks] eqn:Eneeded.
  { rewrite (calcNeededChars_nothing_needed w s charlist) by assumption.
    eexists. cbn [snd logged history timers]. repeat split. lia. }
  assert (Hneeded : neededCodes_of s charlist <> []) by congruence.
  destruct (asserts_hold w s) eqn:Eassert.
  - rewrite (calcNeededChars_run w s charlist) by assumption.
    unfold state_after_calc. cbn [snd history timers]. eexists.
    split; [reflexivity|].
    destruct (remaining_chunk _ _); repeat split; lia.
  - rewrite (calcNeededChars_assert_fails w s charlist) by assumption.
    eexists. cbn [snd logged history timers]. repeat split. lia.
Qed.

Lemma fetchChars_trace w codes s :
  codes <> [] ->
  this (snd (fetchChars w codes s)) = this s
  /\ timers (snd (fetchChars w codes s)) = timers s
  /\ exists ok ev,
       history (snd (fetchChars w codes s))
       = history s ++ Called (RequestCodepoints codes) ok :: ev
       /\ existsb is_refetch ev = false
       /\ existsb is_request ev = false
       /\ existsb is_injection ev = false.
Proof.
  intros Hne. unfold fetchChars. rewrite length_eqb_0_false by assumption.
  unfold handleFingerprintMismatch, dropDb, checkFingerprint,
    requestCodepoints, deleteDatabase.
  chain_unfold. cbn [snd fst history idb this timers].
  split_cases;
    (split; [reflexivity|split; [reflexivity|]]; do 2 eexists;
     split; [settle_history|repeat split]).
Qed.

Lemma injectCompact_trace w codes bundle s :
  set_blobUrl (this (snd (injectCompact w codes bundle s))) None
  = set_blobUrl (this s) None
  /\ timers (snd (injectCompact w codes bundle s)) = timers s
  /\ exists ok ev,
       history (snd (injectCompact w codes bundle s))
       = history s ++ Called (InjectChars codes) ok :: ev
       /\ existsb is_refetch ev = false
       /\ existsb is_request ev = false
       /\ existsb is_injection ev = false.
Proof.
  unfold injectCompact, injectChars, deleteDatabase, setFont,
    compactCharList_resolve.
  chain_unfold. cbn [snd fst history idb this timers].
  split_cases;
    (split; [reflexivity|split; [reflexivity|]]; do 2 eexists;
     split; [settle_history|repeat split]).
Qed.

Ltac trace_parts :=
  split; [|split; [|split; [|split; [|split; [|split]]]]].

(** What a cycle adds to the history: the lock, the events of
    [calcNeededChars], the events of the request and of the injection,
    and the release of the lock. *)
Lemma cycle_outcome_trace w s s' :
  cycle_outcome w s s' ->
  exists ok calc_events rest,
    history s'
    = history s ++ Called GetPrecedingPromise ok :: calc_events
        ++ rest ++ [ResolveChained]
    /\ existsb is_call calc_events = false
    /\ existsb is_refetch calc_events = false
    /\ existsb is_refetch rest = false
    /\ (length (List.filter is_request rest) <= 1)%nat
    /\ (forall codes answered,
          In (Called (RequestCodepoints codes) answered) rest ->
          fst (calcNeededChars w (locked s)) = Resolved codes
          /\ codes <> [])
    /\ (forall codes injected,
          In (Called (InjectChars codes) injected) rest ->
          In (Called (RequestCodepoints codes) true) rest
          /\ exists bundle,
               backend_requestCodepoints w
                 (history (snd (calcNeededChars w (locked s)))) codes
               = Resolved (Some bundle)
               /\ signature bundle = sha1_fingerprint_ (this s)).
Proof.
  intros Hcycle.
  destruct (calcNeededChars_trace w (locked s))
    as (calc_ev & Hcalc_ev & Hquiet & Hplain & _).
  destruct Hcycle as [ok|e s1 Hcalc|s1 Hcalc|charlist r e s2 Hcl Hr Hcalc Hf
                     |charlist r Hcl Hr Hcalc Hreq
                     |charlist r bundle Hcl Hr Hcalc Hreq Hsig].
  - exists ok, [], [ResolveChained;
                    ReportError (FILE_ID ++ LOAD_CHARS_GET_LOCK)].
    trace_parts; try reflexivity; try (cbn; lia);
      intros codes b [H|[H|[]]]; discriminate.
  - exists true, calc_ev, [ReportError (FILE_ID ++ CALC_NEEDED_CHARS)].
    rewrite Hcalc in Hcalc_ev. cbn [snd locked logged history] in *.
    rewrite Hcalc_ev, <- !app_assoc.
    trace_parts; try assumption; try reflexivity; try (cbn; lia);
      intros codes b [H|[]]; discriminate.
  - exists true, calc_ev, [].
    rewrite Hcalc in Hcalc_ev. cbn [snd locked logged history] in *.
    rewrite Hcalc_ev, <- !app_assoc.
    trace_parts; try assumption; try reflexivity; try (cbn; lia);
      intros codes b [].
  - rewrite Hcalc in Hcalc_ev. cbn [snd] in Hcalc_ev.
    destruct (fetchChars_trace w r (state_after_calc w (locked s) charlist)
                Hr) as (_ & _ & ok & ev & Hev & Href & Hone & Hnone).
    rewrite Hf in Hev. cbn [snd] in Hev.
    exists true, calc_ev, (Called (RequestCodepoints r) ok :: ev).
    cbn [logged history]. rewrite Hev, Hcalc_ev.
    cbn [locked logged history]. rewrite <- !app_assoc.
    trace_parts; try assumption; try reflexivity.
    + cbn [List.filter is_request length].
      rewrite filter_existsb_false by assumption. cbn. lia.
    + intros codes b [[= <- <-]|Hin]; [now rewrite Hcalc|].
      apply (existsb_false_In _ _ _ Hone) in Hin. discriminate.
    + intros codes b [H|Hin]; [discriminate|].
      apply (existsb_false_In _ _ _ Hnone) in Hin. discriminate.
  - rewrite Hcalc in Hcalc_ev. cbn [snd] in Hcalc_ev.
    exists true, calc_ev, [Called (RequestCodepoints r) true].
    cbn [logged history]. rewrite Hcalc_ev.
    cbn [locked logged history]. rewrite <- !app_assoc.
    trace_parts; try assumption; try reflexivity; try (cbn; lia).
    + intros codes b [[= <- <-]|[]]. now rewrite Hcalc.
    + intros codes b [H|[]]. discriminate.
  - rewrite Hcalc in Hcalc_ev. cbn [snd] in Hcalc_ev.
    destruct (injectCompact_trace w r bundle
                (noted bundle
                   (logged (state_after_calc w (locked s) charlist)
                      [Called (RequestCodepoints r) true])))
      as (_ & _ & ok & ev & Hev & Href & Hone & Hnone).
    exists true, calc_ev,
      (Called (RequestCodepoints r) true :: Called (InjectChars r) ok :: ev).
    cbn [logged history]. rewrite Hev.
    cbn [noted logged history]. rewrite Hcalc_ev.
    cbn [locked logged history]. rewrite <- !app_assoc.
    trace_parts; try assumption; try reflexivity.
    + cbn [List.filter is_request length].
      rewrite filter_existsb_false by assumption. cbn. lia.
    + intros codes b [[= <- <-]|[H|Hin]]; [now rewrite Hcalc|discriminate|].
      apply (existsb_false_In _ _ _ Hone) in Hin. discriminate.
    + intros codes b [H|[[= <- <-]|Hin]]; [discriminate| |].
      * split; [now left|]. exists bundle. rewrite Hcalc.
        split; assumption.
      * apply (existsb_false_In _ _ _ Hnone) in Hin. discriminate.
Qed.

Lemma existsb_weaken {A : Type} (f g : A -> bool) (l : list A) :
  (forall x, g x = true -> f x = true) ->
  existsb f l = false -> existsb g l = false.
Proof.
  intros Hfg Hnone. destruct (existsb g l) eqn:Hg; [|reflexivity].
  apply existsb_exists in Hg as (x & Hin & Hx).
  rewrite <- Hnone. symmetry. apply existsb_exists.
  exists x. auto.
Qed.

Lemma font_settings_fields o o' :
  font_settings o' = font_settings o ->
  refetchedCompact_ o' = refetchedCompact_ o
  /\ needToSetFont_ o' = needToSetFont_ o
  /\ haveReadFileInfo_ o' = haveReadFileInfo_ o
  /\ isTtf_ o' = isTtf_ o
  /\ sha1_fingerprint_ o' = sha1_fingerprint_ o
  /\ loadableCodepoints_ o' = loadableCodepoints_ o
  /\ maximumRequestSize_ o' = maximumRequestSize_ o.
Proof.
  unfold font_settings. intros H.
  injection H as H1 H2 H3 H4 H5 H6 H7 H8. repeat split; assumption.
Qed.

(** What a cycle leaves of the manager. *)
Lemma cycle_outcome_state w s s' :
  cycle_outcome w s s' ->
  (refetchedCompact_ (this s') = refetchedCompact_ (this s)
   /\ haveReadFileInfo_ (this s') = haveReadFileInfo_ (this s)
   /\ isTtf_ (this s') = isTtf_ (this s)
   /\ sha1_fingerprint_ (this s') = sha1_fingerprint_ (this s)
   /\ loadableCodepoints_ (this s') = loadableCodepoints_ (this s)
   /\ maximumRequestSize_ (this s') = maximumRequestSize_ (this s))
  /\ (needToSetFont_ (this s) = true -> needToSetFont_ (this s') = true)
  /\ (forall kv,
        In kv (charsToLoad_ (this s')) -> In kv (charsToLoad_ (this s)))
  /\ (timers s' <= S (timers s))%nat.
Proof.
  intros Hcycle.
  destruct (calcNeededChars_effect w (locked s))
    as (_ & Hsettings & _ & Hload).
  destruct (calcNeededChars_trace w (locked s)) as (_ & _ & _ & _ & Htimers).
  apply font_settings_fields in Hsettings
    as (Href & Hneed & Hread & Httf & Hsha & Hloadable & Hmax).
  cbn [locked logged this timers] in *.
  destruct Hcycle as [ok|e s1 Hcalc|s1 Hcalc|charlist r e s2 Hcl Hr Hcalc Hf
                     |charlist r Hcl Hr Hcalc Hreq
                     |charlist r bundle Hcl Hr Hcalc Hreq Hsig].
  - cbn [logged this timers]. repeat split; auto.
  - rewrite Hcalc in *. cbn [snd logged this timers] in *.
    repeat split; auto; congruence.
  - rewrite Hcalc in *. cbn [snd logged this timers] in *.
    repeat split; auto; congruence.
  - rewrite Hcalc in *. cbn [snd] in *.
    destruct (fetchChars_trace w r (state_after_calc w (locked s) charlist)
                Hr) as (Hthis & Hsame & _).
    rewrite Hf in Hthis, Hsame. cbn [snd] in Hthis, Hsame.
    cbn [logged this timers]. rewrite Hthis, Hsame.
    repeat split; auto; congruence.
  - rewrite Hcalc in *. cbn [snd] in *.
    cbn [logged this timers].
    repeat split; auto; congruence.
  - rewrite Hcalc in *. cbn [snd] in *.
    destruct (injectCompact_trace w r bundle
                (noted bundle
                   (logged (state_after_calc w (locked s) charlist)
                      [Called (RequestCodepoints r) true])))
      as (Hthis & Hsame & _).
    cbn [logged this timers]. rewrite Hsame. cbn [noted logged timers].
    set (o' := this (snd (injectCompact w r bundle _))) in *.
    assert (Hfield : forall {A : Type} (f : obj -> A),
              (forall o u, f (set_blobUrl o u) = f o) ->
              (forall o b, f (set_needToSetFont o b) = f o) ->
              f o' = f (this (state_after_calc w (locked s) charlist))).
    { intros A f Hblob Hnote.
      rewrite <- (Hblob o' None), Hthis, Hblob. cbn [noted this logged].
      destruct (glyphCount bundle =? 0); [reflexivity|apply Hnote]. }
    repeat split; try assumption.
    + rewrite <- Href. now apply (Hfield _ refetchedCompact_).
    + rewrite <- Hread. now apply (Hfield _ haveReadFileInfo_).
    + rewrite <- Httf. now apply (Hfield _ isTtf_).
    + rewrite <- Hsha. now apply (Hfield _ sha1_fingerprint_).
    + rewrite <- Hloadable. now apply (Hfield _ loadableCodepoints_).
    + rewrite <- Hmax. now apply (Hfield _ maximumRequestSize_).
    + intros Hset.
      assert (Hnote : needToSetFont_ o'
                      = needToSetFont_
                          (this (noted bundle
                                   (logged
                                      (state_after_calc w (locked s) charlist)
                                      [Called (RequestCodepoints r) true])))).
      { change (needToSetFont_ o')
          with (needToSetFont_ (set_blobUrl o' None)).
        now rewrite Hthis. }
      rewrite Hnote. cbn [noted this logged].
      destruct (glyphCount bundle =? 0); [|reflexivity]. congruence.
    + intros kv Hkv. apply Hload.
      now rewrite <- (Hfield _ charsToLoad_).
Qed.

(** X16: a cycle of [loadChars] never refetches the font base: no cycle
    requests the base, touches the stores of the font's database, clears
    the data stores or reports [INJECT_COMPACT], and the flag of the
    one-time refetch is left as it was. *)
Theorem loadChars_never_refetches w s :
  existsb is_refetch (cycle_events w s) = false
  /\ refetchedCompact_ (this (snd (loadChars w s)))
     = refetchedCompact_ (this s).
Proof.
  split.
  - destruct (cycle_outcome_trace w s _ (loadChars_outcome w s))
      as (ok & calc_ev & rest & Hev & _ & Hcalc & Hrest & _).
    unfold cycle_events. rewrite Hev, skipn_history.
    cbn [existsb is_refetch]. rewrite !existsb_app, Hcalc, Hrest.
    reflexivity.
  - now destruct (cycle_outcome_state w s _ (loadChars_outcome w s))
      as ((H & _) & _).
Qed.



(** X18: a cycle sends at most one request to the backend, for exactly
    the codes [calcNeededChars] returned, which are not empty, and it
    sets at most one timer for a further cycle. *)
Theorem loadChars_one_request w s :
  (length (List.filter is_request (cycle_events w s)) <= 1)%nat
  /\ (timers (snd (loadChars w s)) <= S (timers s))%nat
  /\ forall codes answered,
       In (Called (RequestCodepoints codes) answered) (cycle_events w s) ->
       fst (calcNeededChars w (locked s)) = Resolved codes /\ codes <> [].
Proof.
  destruct (cycle_outcome_trace w s _ (loadChars_outcome w s))
    as (ok & calc_ev & rest & Hev & Hquiet & _ & _ & Hone & Hreq & _).
  assert (Hnone : existsb is_request calc_ev = false).
  { apply (existsb_weaken is_call); [|assumption].
    intros [[]| | | | |]; auto. }
  unfold cycle_events. rewrite Hev, skipn_history.
  split; [|split].
  - cbn [List.filter is_request]. rewrite !List.filter_app.
    rewrite (filter_existsb_false _ _ Hnone). cbn [app List.filter is_request].
    rewrite app_nil_r. exact Hone.
  - now destruct (cycle_outcome_state w s _ (loadChars_outcome w s))
      as (_ & _ & _ & H).
  - intros codes answered [H|Hin]; [discriminate|].
    apply in_app_or in Hin as [Hin|Hin].
    { apply (existsb_false_In _ _ _ Hnone) in Hin. discriminate. }
    apply in_app_or in Hin as [Hin|[H|[]]]; [|discriminate].
    exact (Hreq codes answered Hin).
Qed.

(** X19: a cycle leaves the file information of the font, the request
    size and the set of loadable code points as they were; it never
    resets [needToSetFont_] and adds nothing to [charsToLoad_]. *)
Theorem loadChars_frame w s :
  let o := this s in
  let o' := this (snd (loadChars w s)) in
  (haveReadFileInfo_ o' = haveReadFileInfo_ o
   /\ isTtf_ o' = isTtf_ o
   /\ sha1_fingerprint_ o' = sha1_fingerprint_ o
   /\ loadableCodepoints_ o' = loadableCodepoints_ o
   /\ maximumRequestSize_ o' = maximumRequestSize_ o)
  /\ (needToSetFont_ o = true -> needToSetFont_ o' = true)
  /\ (forall kv, In kv (charsToLoad_ o') -> In kv (charsToLoad_ o)).
Proof.
  cbv zeta.
  destruct (cycle_outcome_state w s _ (loadChars_outcome w s))
    as ((_ & Hfile) & Hneed & Hload & _).
  auto.
Qed.

Lemma calcNeededChars_all_loaded w s charlist :
  compactCharList_ (this s) = Resolved charlist ->
  neededCodes_of s charlist = [] ->
  exists ev,
    calcNeededChars w s = (Resolved [], logged s ev)
    /\ existsb is_call ev = false.
Proof.
  intros Hcl Hnone.
  destruct (charsToLoad_ (this s)) as [|kv rest] eqn:Eload.
  - exists []. rewrite logged_nil.
    split; [now apply calcNeededChars_nothing_requested|reflexivity].
  - exists (miss_logs s charlist).
    split; [|reflexivity].
    apply calcNeededChars_nothing_needed; [congruence|assumption..].
Qed.

(** X20: when every character to load is in the character list already,
    or is not supported by the font, a cycle makes no call but the one
    for the lock and leaves the manager, the database and the timers as
    they were. *)
Theorem loadChars_nothing_to_load w s charlist :
  compactCharList_ (this s) = Resolved charlist ->
  neededCodes_of s charlist = [] ->
  this (snd (loadChars w s)) = this s
  /\ idb (snd (loadChars w s)) = idb s
  /\ timers (snd (loadChars w s)) = timers s
  /\ existsb is_call (tl (cycle_events w s)) = false.
Proof.
  intros Hcl Hnone.
  destruct (calcNeededChars_all_loaded w (locked s) charlist Hcl Hnone)
    as (ev & Hcalc & Hquiet).
  unfold cycle_events.
  destruct (loadChars_outcome w s)
    as [ok|e s1 Hrej|s1 Hres|cl r e s2 _ Hr Hres _|cl r _ Hr Hres _
       |cl r bundle _ Hr Hres _ _];
    try congruence.
  - cbn [logged this idb timers history]. rewrite skipn_history.
    repeat split.
  - assert (s1 = logged (locked s) ev) by congruence. subst s1.
    cbn [locked logged this idb timers history].
    rewrite <- !app_assoc, skipn_history. cbn [app tl].
    repeat split. rewrite existsb_app, Hquiet. reflexivity.
Qed.

Lemma loadChars_nothing_to_load_witness :
  let w := sample_world false (Resolved (Some matching_bundle)) (Resolved tt)
             (Resolved sample_cff) in
  let s := sample_state (sample_font [([120], 1)] None) in
  this (snd (loadChars w s)) = this s
  /\ idb (snd (loadChars w s)) = idb s
  /\ timers (snd (loadChars w s)) = timers s
  /\ existsb is_call (tl (cycle_events w s)) = false.
Proof.
  intros w s. apply (loadChars_nothing_to_load w s ∅); reflexivity.
Defined.

(** ** Saving and returning a fetched base *)

(** X21: the values [saveNewCompactFont] resolves with are the font
    bytes, the file information and the character list it was given, with
    the metadata already stored when there is one (its own otherwise);
    they are what the database holds afterwards, and the database was
    opened, read, written and closed, in this order. *)
Theorem saveNewCompactFont_saves w tables s values :
  fst (saveNewCompactFont w tables s) = Resolved (Some values) ->
  values
  = mkStoreValues (sfnt_fontData tables) (table_fileInfo tables)
      (table_charList tables)
      (match idb s with
       | Stores old => stored_metadata old
       | _ => table_metadata tables
       end)
  /\ idb (snd (saveNewCompactFont w tables s)) = Stores values
  /\ history (snd (saveNewCompactFont w tables s))
     = history s ++ [Called OpenIndexedDb true; Called GetStores true;
                     Called PutStores true; CloseDb].
Proof.
  unfold saveNewCompactFont, openIndexedDb, getStores_metadata, putStores.
  chain_unfold. cbn [snd fst history idb this timers].
  destruct (persist_openIndexedDb w (history s));
    cbn [snd fst history idb this timers]; [|discriminate].
  destruct (persist_getStores w _);
    cbn [snd fst history idb this timers]; [|discriminate].
  destruct (persist_putStores w _);
    cbn [snd fst history idb this timers]; [|discriminate].
  intros [= <-]. unfold id. rewrite <- !app_assoc.
  destruct (idb s); repeat split.
Qed.

Lemma saveNewCompactFont_saves_witness :
  let w := sample_world false (Resolved None) (Resolved tt)
             (Resolved sample_cff) in
  let s := sample_state (sample_font [] None) in
  idb (snd (saveNewCompactFont w sample_tables s)) = Stores sample_stored.
Proof.
  intros w s.
  apply (saveNewCompactFont_saves w sample_tables s sample_stored).
  reflexivity.
Defined.

(** X22: [saveNewCompactFont] rejects only when the database cannot be
    opened.  It resolves with [undefined] exactly when reading or writing
    the stores fails: the database is then closed, nothing is written,
    and the error of the store is dropped. *)
Theorem saveNewCompactFont_failures w tables s :
  let r := saveNewCompactFont w tables s in
  let opened := history s ++ [Called OpenIndexedDb true] in
  (forall e,
     fst r = Rejected e
     <-> persist_openIndexedDb w (history s) = Rejected e)
  /\ (forall e,
        fst r = Rejected e ->
        snd r = logged s [Called OpenIndexedDb false])
  /\ (fst r = Resolved None
      <-> is_rejected (persist_openIndexedDb w (history s)) = false
          /\ (is_rejected (persist_getStores w opened) = true
              \/ is_rejected
                   (persist_putStores w (opened ++ [Called GetStores true]))
                 = true))
  /\ (fst r = Resolved None ->
      idb (snd r)
      = match idb s with NoDatabase => EmptyStores | d => d end
      /\ (history (snd r)
          = history s ++ [Called OpenIndexedDb true; Called GetStores false;
                          CloseDb]
          \/ history (snd r)
             = history s ++ [Called OpenIndexedDb true;
                             Called GetStores true;
                             Called PutStores false; CloseDb])).
Proof.
  cbv zeta.
  unfold saveNewCompactFont, openIndexedDb, getStores_metadata, putStores.
  chain_unfold. cbn [snd fst history idb this timers].
  destruct (persist_openIndexedDb w (history s)) as [ok|e0];
    cbn [snd fst history idb this timers is_rejected].
  2:{ split; [|split; [|split]]; [| | |discriminate].
      - intros e. split; intros [= <-]; reflexivity.
      - intros e _. reflexivity.
      - split; [discriminate|]. intros [H _]. discriminate. }
  destruct (persist_getStores w _);
    cbn [snd fst history idb this timers is_rejected].
  - destruct (persist_putStores w _);
      cbn [snd fst history idb this timers is_rejected].
    + split; [|split; [|split]]; [| | |discriminate].
      * intros e. split; discriminate.
      * intros e. discriminate.
      * split; [discriminate|]. intros [_ [H|H]]; discriminate.
    + split; [|split; [|split]].
      * intros e'. split; discriminate.
      * intros e'. discriminate.
      * split; auto.
      * intros _. unfold id. rewrite <- !app_assoc.
        split; [destruct (idb s); reflexivity|now right].
  - split; [|split; [|split]].
    + intros e'. split; discriminate.
    + intros e'. discriminate.
    + split; auto.
    + intros _. unfold id. rewrite <- !app_assoc.
      split; [destruct (idb s); reflexivity|now left].
Qed.

(** X23: the data [processFontbase] resolves with is the decoded and
    compacted base, and it is in the database by then. *)
Theorem processFontbase_returns_saved w urlBaseBytes s data :
  fst (processFontbase w urlBaseBytes s) = Resolved data ->
  exists tables values,
    transform_decodeBase w urlBaseBytes = Resolved tables
    /\ data
       = mkWorkingData (sfnt_fontData tables) (table_fileInfo tables)
           (table_charList tables)
    /\ idb (snd (processFontbase w urlBaseBytes s)) = Stores values
    /\ stored_fontBytes values = fontBytes data
    /\ stored_fileInfo values = fileInfo data
    /\ stored_charList values = charList data.
Proof.
  unfold processFontbase.
  destruct (transform_decodeBase w urlBaseBytes) as [tables|e].
  2:{ chain_unfold. discriminate. }
  unfold saveNewCompactFont, openIndexedDb, getStores_metadata, putStores,
    clearDataStores.
  chain_unfold. cbn [snd fst history idb this timers].
  destruct (persist_openIndexedDb w _);
    cbn [snd fst history idb this timers].
  2:{ destruct (compactCff_clearDataStores w _); discriminate. }
  destruct (persist_getStores w _);
    cbn [snd fst history idb this timers]; [|discriminate].
  destruct (persist_putStores w _);
    cbn [snd fst history idb this timers]; [|discriminate].
  intros [= <-]. exists tables. eexists. repeat split.
Qed.

Lemma processFontbase_returns_saved_witness :
  let w := sample_world false (Resolved None) (Resolved tt)
             (Resolved sample_cff) in
  let s := sample_state (sample_font [] None) in
  exists tables values,
    transform_decodeBase w [] = Resolved tables
    /\ mkWorkingData [0; 1; 0; 0] sample_fileInfo ∅
       = mkWorkingData (sfnt_fontData tables) (table_fileInfo tables)
           (table_charList tables)
    /\ idb (snd (processFontbase w [] s)) = Stores values
    /\ stored_fontBytes values = [0; 1; 0; 0]
    /\ stored_fileInfo values = sample_fileInfo
    /\ stored_charList values = ∅.
Proof.
  intros w s.
  apply (processFontbase_returns_saved w [] s
           (mkWorkingData [0; 1; 0; 0] sample_fileInfo ∅)).
  reflexivity.
Defined.

(** X24: when [saveNewCompactFont] resolves with [undefined],
    [processFontbase] fails on reading [newData[0]]: it rejects with a
    type error, and the failure of the store is neither reported nor
    followed by clearing the data stores. *)
Theorem processFontbase_unsaved w urlBaseBytes s tables :
  let s0 := logged s [AddLog URL_GET_BASE (elapsed w (history s)) 1] in
  transform_decodeBase w urlBaseBytes = Resolved tables ->
  fst (saveNewCompactFont w tables s0) = Resolved None ->
  processFontbase w urlBaseBytes s
  = (Rejected TypeError, snd (saveNewCompactFont w tables s0)).
Proof.
  cbv zeta. intros Hdecode Hsave.
  unfold processFontbase. rewrite Hdecode.
  unfold then_ at 1. unfold then_ at 1. unfold gets, addLog, emit.
  cbn [fst snd this idb history timers].
  fold (logged s [AddLog URL_GET_BASE (elapsed w (history s)) 1]).
  unfold then_, thenCatch.
  destruct (saveNewCompactFont w tables _) as [[[v|]|e] s1];
    cbn [fst snd] in *; try discriminate.
  reflexivity.
Qed.

Lemma processFontbase_unsaved_witness :
  let w := mkWorld true false (fun _ i => 0) (fun _ => 0)
             (fun _ => Resolved tt) (fun _ _ => Resolved None)
             (fun _ => Resolved []) (fun _ => Resolved tt)
             (fun _ => Resolved tt) (fun _ => Resolved tt)
             (fun _ => Rejected (Failure 5)) (fun _ => Resolved tt)
             (fun _ _ => Resolved sample_cff)
             (fun _ => Resolved "blob:1"%string)
             (fun _ => Resolved sample_tables) in
  let s := sample_state (sample_font [] None) in
  fst (processFontbase w [] s) = Rejected TypeError.
Proof.
  intros w s.
  now rewrite (processFontbase_unsaved w [] s sample_tables eq_refl eq_refl).
Defined.

(** ** Acquiring the base *)

Lemma fold_setBit (codepoints : list Z) :
  forall (bits : SparseBitArray) (k : Z),
    k ∈ fold_left (fun bits codepoint => setBit codepoint bits)
          codepoints bits
    <-> In k codepoints \/ k ∈ bits.
Proof.
  induction codepoints as [|c codepoints IH]; intros bits k; simpl.
  - tauto.
  - rewrite IH. unfold setBit. rewrite elem_of_union, elem_of_singleton.
    intuition congruence.
Qed.

Lemma setFileInfo_isSet fileInfo o k :
  isSet (loadableCodepoints_ (setFileInfo fileInfo o)) k = true
  <-> In k (cmapMapping fileInfo) \/ isSet (loadableCodepoints_ o) k = true.
Proof.
  unfold isSet, setFileInfo. cbn [loadableCodepoints_].
  rewrite !bool_decide_eq_true. apply fold_setBit.
Qed.

(** X25: after [setFileInfo] a code point is loadable exactly when it is
    a key of the [cmapMapping] or was loadable before: bits are never
    cleared.  The file information counts as read, and [checkFingerprint]
    then accepts a bundle exactly when it carries the fingerprint of the
    file information. *)
Theorem setFileInfo_then_checkFingerprint w fileInfo s bundle :
  let s' := mkState (setFileInfo fileInfo (this s)) (idb s) (history s)
              (timers s) in
  (forall k,
     isSet (loadableCodepoints_ (this s')) k = true
     <-> In k (cmapMapping fileInfo)
         \/ isSet (loadableCodepoints_ (this s)) k = true)
  /\ asserts_hold w s' = true
  /\ (fst (checkFingerprint w (Some bundle) s') = Resolved (Some bundle)
      <-> signature bundle = sha1_fingerprint fileInfo).
Proof.
  cbv zeta. split; [|split].
  - intros k. apply setFileInfo_isSet.
  - unfold asserts_hold. cbn. apply orb_true_r.
  - unfold checkFingerprint. chain_unfold.
    cbn [this setFileInfo haveReadFileInfo_ sha1_fingerprint_ negb].
    rewrite andb_false_r.
    change (sha1_fingerprint_
              (this (mkState (setFileInfo fileInfo (this s)) (idb s)
                       (history s) (timers s))))
      with (sha1_fingerprint fileInfo).
    destruct (String.eqb_spec (sha1_fingerprint fileInfo) (signature bundle))
      as [Heq|Hne]; cbn [fst].
    + split; congruence.
    + split; [discriminate|congruence].
Qed.

Lemma processFontbase_base_trace w bytes s :
  this (snd (processFontbase w bytes s)) = this s
  /\ exists ev,
       history (snd (processFontbase w bytes s)) = history s ++ ev
       /\ existsb is_base_request ev = false.
Proof.
  unfold processFontbase, saveNewCompactFont, openIndexedDb,
    getStores_metadata, putStores, clearDataStores.
  chain_unfold. cbn [snd fst history idb this timers].
  split_cases; (split; [reflexivity|]; eexists;
                split; [settle_history|reflexivity]).
Qed.

Section AcquisitionFacts.

Variable w : World.
Variable checkCharacters : FileInfo -> list Z -> charmap -> bool.

Lemma getCompactFontFromPersistence_trace s :
  this (snd (getCompactFontFromPersistence w checkCharacters s)) = this s
  /\ exists ev,
       history (snd (getCompactFontFromPersistence w checkCharacters s))
       = history s ++ ev
       /\ existsb is_base_request ev = false.
Proof.
  unfold getCompactFontFromPersistence, getStores_compact, openIndexedDb.
  chain_unfold. cbn [snd fst history idb this timers].
  destruct (persist_openIndexedDb w (history s));
    cbn [snd fst history idb this timers];
    [destruct (persist_getStores w _);
     cbn [snd fst history idb this timers];
     [destruct (idb s) as [| |v];
      cbn [snd fst history idb this timers];
      try destruct (checkCharacters _ _ _);
      cbn [snd fst history idb this timers]|]|];
    (split; [reflexivity|]; eexists;
     split; [settle_history|reflexivity]).
Qed.

Lemma getCompactFontFromMergedData_trace fontbase s :
  this (snd (getCompactFontFromMergedData w fontbase s)) = this s
  /\ exists ev,
       history (snd (getCompactFontFromMergedData w fontbase s))
       = history s ++ ev
       /\ existsb is_base_request ev = false.
Proof.
  destruct fontbase as [bytes|]; cbn [getCompactFontFromMergedData].
  - apply processFontbase_base_trace.
  - split; [reflexivity|]. exists []. now rewrite app_nil_r.
Qed.

Lemma getCompactFontFromUrl_this s :
  this (snd (getCompactFontFromUrl w s)) = this s.
Proof.
  unfold getCompactFontFromUrl, requestFontBase.
  unfold then_ at 1. unfold call.
  destruct (backend_requestFontBase w (history s)) as [bytes|e];
    [|reflexivity].
  now destruct (processFontbase_base_trace w bytes
                  (mkState (this s) (id (idb s))
                     (history s ++ [Called RequestFontBase true])
                     (timers s))) as [H _].
Qed.

(** The three sources, tried in order. *)
Lemma getCompactFont_sources pending fontbase s :
  getCompactFont w checkCharacters pending fontbase s
  = match getCompactFontFromPersistence w checkCharacters s with
    | (Resolved d, s1) => (Resolved d, adopt pending d s1)
    | (Rejected _, s1) =>
        match getCompactFontFromMergedData w fontbase s1 with
        | (Resolved d, s2) => (Resolved d, adopt pending d s2)
        | (Rejected _, s2) =>
            match getCompactFontFromUrl w s2 with
            | (Resolved d, s3) => (Resolved d, adopt pending d s3)
            | (Rejected e, s3) =>
                (clearDataStores w ;; Promise_reject e)
                  (logged
                     (mkState
                        (if pending
                         then set_compactCharList (this s3)
                                (Rejected NoReason)
                         else this s3)
                        (idb s3) (history s3) (timers s3))
                     [ReportError (FILE_ID ++ GET_COMPACT_FROM_URL)])
            end
        end
    end.
Proof.
  unfold getCompactFont, adopt, compactCharList_settle.
  unfold thenCatch at 1. unfold then_ at 1.
  destruct (getCompactFontFromPersistence w checkCharacters s)
    as [[d|e] s1].
  { destruct pending; reflexivity. }
  unfold thenCatch at 1. unfold then_ at 1.
  destruct (getCompactFontFromMergedData w fontbase s1) as [[d|e'] s2].
  { destruct pending; reflexivity. }
  unfold thenCatch at 1. unfold then_ at 1.
  destruct (getCompactFontFromUrl w s2) as [[d|e''] s3].
  { destruct pending; reflexivity. }
  destruct pending; reflexivity.
Qed.

End AcquisitionFacts.

(** X26: [getCompactFont] always settles the promise of the character
    list.  When it resolves, the promise is resolved with the character
    list of the data it returns and the file information of that data is
    set; when it rejects, the promise is rejected and the failure is
    reported before the data stores are cleared. *)
Theorem getCompactFont_settles w checkCharacters fontbase s :
  let r := getCompactFont w checkCharacters true fontbase s in
  (forall d,
     fst r = Resolved d ->
     compactCharList_ (this (snd r)) = Resolved (charList d)
     /\ haveReadFileInfo_ (this (snd r)) = true
     /\ sha1_fingerprint_ (this (snd r)) = sha1_fingerprint (fileInfo d)
     /\ isTtf_ (this (snd r)) = isTtf (fileInfo d)
     /\ forall k,
          In k (cmapMapping (fileInfo d)) ->
          isSet (loadableCodepoints_ (this (snd r))) k = true)
  /\ (forall e,
        fst r = Rejected e ->
        compactCharList_ (this (snd r)) = Rejected NoReason
        /\ haveReadFileInfo_ (this (snd r)) = haveReadFileInfo_ (this s)
        /\ exists before cleared,
             history (snd r)
             = before ++ [ReportError (FILE_ID ++ GET_COMPACT_FROM_URL);
                          Called ClearDataStores cleared]).
Proof.
  cbv zeta. rewrite getCompactFont_sources.
  assert (Hadopt : forall d s1,
    compactCharList_ (this (adopt true d s1)) = Resolved (charList d)
    /\ haveReadFileInfo_ (this (adopt true d s1)) = true
    /\ sha1_fingerprint_ (this (adopt true d s1))
       = sha1_fingerprint (fileInfo d)
    /\ isTtf_ (this (adopt true d s1)) = isTtf (fileInfo d)
    /\ forall k,
         In k (cmapMapping (fileInfo d)) ->
         isSet (loadableCodepoints_ (this (adopt true d s1))) k = true).
  { intros d s1. repeat split. intros k Hk.
    cbn [adopt this set_compactCharList loadableCodepoints_].
    apply setFileInfo_isSet. now left. }
  pose proof (getCompactFontFromPersistence_trace w checkCharacters s) as [Hp _].
  destruct (getCompactFontFromPersistence w checkCharacters s)
    as [[d|e1] s1]; cbn [snd] in Hp.
  { split; [intros d' [= <-]; apply Hadopt|discriminate]. }
  pose proof (getCompactFontFromMergedData_trace w fontbase s1) as [Hm _].
  destruct (getCompactFontFromMergedData w fontbase s1) as [[d|e2] s2];
    cbn [snd] in Hm.
  { split; [intros d' [= <-]; apply Hadopt|discriminate]. }
  pose proof (getCompactFontFromUrl_this w s2) as Hu.
  destruct (getCompactFontFromUrl w s2) as [[d|e3] s3]; cbn [snd] in Hu.
  { split; [intros d' [= <-]; apply Hadopt|discriminate]. }
  unfold clearDataStores. chain_unfold.
  cbn [snd fst history idb this timers logged].
  destruct (compactCff_clearDataStores w _);
    cbn [snd fst history idb this timers];
    (split; [discriminate|]); intros e' _;
    (split; [reflexivity|]);
    (split; [cbn; congruence|]);
    exists (history s3); eexists; rewrite <- app_assoc; reflexivity.
Qed.

(** X27: the sources are tried in order and the first that answers is
    used.  Data read from the persistent store is returned without any
    further call, and the network is asked for the base only after both
    the persistent store and the merged data have failed. *)
Theorem getCompactFont_network_last w checkCharacters pending fontbase s :
  let r := getCompactFont w checkCharacters pending fontbase s in
  let persisted := getCompactFontFromPersistence w checkCharacters s in
  (forall d,
     fst persisted = Resolved d ->
     fst r = Resolved d
     /\ history (snd r) = history (snd persisted)
     /\ idb (snd r) = idb (snd persisted))
  /\ (existsb is_base_request
        (skipn (length (history s)) (history (snd r))) = true ->
      is_rejected (fst persisted) = true
      /\ is_rejected
           (fst (getCompactFontFromMergedData w fontbase (snd persisted)))
         = true).
Proof.
  cbv zeta. rewrite getCompactFont_sources.
  pose proof (getCompactFontFromPersistence_trace w checkCharacters s)
    as (_ & ev1 & Hev1 & Hnone1).
  destruct (getCompactFontFromPersistence w checkCharacters s)
    as [[d|e1] s1]; cbn [fst snd] in *.
  { split; [intros d' [= <-]; repeat split|].
    cbn [adopt history]. rewrite Hev1, skipn_history. congruence. }
  split; [discriminate|].
  pose proof (getCompactFontFromMergedData_trace w fontbase s1)
    as (_ & ev2 & Hev2 & Hnone2).
  destruct (getCompactFontFromMergedData w fontbase s1) as [[d|e2] s2];
    cbn [fst snd] in *.
  { cbn [adopt history]. rewrite Hev2, Hev1, <- app_assoc, skipn_history.
    rewrite existsb_app, Hnone1, Hnone2. discriminate. }
  intros _. split; reflexivity.
Qed.

(** X28: [getCompactFontFromPersistence] resolves exactly when the
    database opens, the stores are read, the font is stored and the
    check of its characters passes, and then with the stored values.
    Stores without the font make it reject with the message
    [missing: fic] and no report; what is stored is left as it is. *)
Theorem getCompactFontFromPersistence_reads w checkCharacters s :
  let r := getCompactFontFromPersistence w checkCharacters s in
  (forall d,
     fst r = Resolved d
     <-> exists v,
           idb s = Stores v
           /\ d = mkWorkingData (stored_fontBytes v) (stored_fileInfo v)
                    (stored_charList v)
           /\ is_rejected (persist_openIndexedDb w (history s)) = false
           /\ is_rejected
                (persist_getStores w
                   (history s ++ [Called OpenIndexedDb true])) = false
           /\ checkCharacters (stored_fileInfo v) (stored_fontBytes v)
                (stored_charList v) = true)
  /\ (is_rejected (persist_openIndexedDb w (history s)) = false ->
      is_rejected
        (persist_getStores w (history s ++ [Called OpenIndexedDb true]))
      = false ->
      (forall v, idb s <> Stores v) ->
      r = (Rejected (Reason "missing: fic"),
           mkState (this s) EmptyStores
             (history s ++ [Called OpenIndexedDb true;
                            Called GetStores true; CloseDb])
             (timers s)))
  /\ (forall v, idb s = Stores v -> idb (snd r) = Stores v).
Proof.
  cbv zeta.
  unfold getCompactFontFromPersistence, getStores_compact, openIndexedDb.
  chain_unfold. cbn [snd fst history idb this timers].
  destruct (persist_openIndexedDb w (history s)) as [ok|e];
    cbn [snd fst history idb this timers is_rejected].
  2:{ split; [|split]; [|discriminate|auto].
      intros d. split; [discriminate|]. intros (v & _ & _ & H & _).
      discriminate. }
  destruct (persist_getStores w _) as [ok'|e];
    cbn [snd fst history idb this timers is_rejected].
  2:{ split; [|split]; [|discriminate|intros v ->; reflexivity].
      intros d. split; [discriminate|]. intros (v & _ & _ & _ & H & _).
      discriminate. }
  destruct (idb s) as [| |v]; cbn [snd fst history idb this timers].
  - split; [|split]; [| |discriminate].
    + intros d. split; [discriminate|]. intros (v & H & _). discriminate.
    + intros _ _ _. unfold id. rewrite <- !app_assoc. reflexivity.
  - split; [|split]; [| |discriminate].
    + intros d. split; [discriminate|]. intros (v & H & _). discriminate.
    + intros _ _ _. unfold id. rewrite <- !app_assoc. reflexivity.
  - destruct (checkCharacters (stored_fileInfo v) (stored_fontBytes v)
                (stored_charList v)) eqn:Hcheck;
      cbn [snd fst history idb this timers];
      (split; [|split]; [|intros _ _ H; now destruct (H v)|auto]).
    + intros d. split.
      * intros [= <-]. exists v. repeat split. assumption.
      * intros (v' & [= <-] & -> & _). reflexivity.
    + intros d. split; [discriminate|].
      intros (v' & [= <-] & _ & _ & _ & H). congruence.
Qed.

(** ** The listeners on the text of the page *)










(** ** Reporting errors before the reporter exists *)

Lemma reporting_step_keeps p event :
  Permutation
    (map report_of (delayed (reporting_step p event))
       ++ reporter_reportError (reporting_step p event))
    (map report_of (delayed p) ++ reporter_reportError p
       ++ map report_of (errors_of [event])).
Proof.
  destruct p as [r waiting sent].
  destruct event as [errNum errInfo|url|];
    cbn [errors_of map reporting_step].
  - unfold reportError_. cbn [reporter delayed reporter_reportError].
    destruct r; cbn [delayed reporter_reportError].
    + reflexivity.
    + rewrite map_app. cbn [map]. fold (report_of (errNum, errInfo)).
      rewrite <- !app_assoc. apply Permutation_app_head.
      apply Permutation_app_comm.
  - rewrite app_nil_r. unfold initializeReporter. cbn [reporter].
    destruct r; reflexivity.
  - rewrite app_nil_r. cbn [delayed reporter reporter_reportError].
    destruct waiting as [|[errNum errInfo] rest]; [reflexivity|].
    unfold delayedReportError_, reportError_.
    cbn [reporter delayed reporter_reportError fst snd].
    fold (report_of (errNum, errInfo)).
    destruct r; cbn [delayed reporter_reportError map].
    + rewrite app_assoc. symmetry. apply Permutation_cons_append.
    + rewrite map_app. cbn [map].
      change (Permutation
                ((map report_of rest ++ [report_of (errNum, errInfo)])
                   ++ sent)
                (([report_of (errNum, errInfo)] ++ map report_of rest)
                   ++ sent)).
      apply Permutation_app_tail. apply Permutation_app_comm.
Qed.

Lemma errors_of_cons event events :
  errors_of (event :: events) = errors_of [event] ++ errors_of events.
Proof. destruct event; reflexivity. Qed.

Lemma reporting_step_reporter p event url :
  reporter p = Some url -> reporter (reporting_step p event) = Some url.
Proof.
  intros Hset. destruct event as [errNum errInfo|url'|];
    unfold reporting_step, reportError_, initializeReporter,
      delayedReportError_, reportError_.
  - now rewrite Hset.
  - now rewrite Hset.
  - destruct (delayed p); [assumption|].
    cbn [reporter]. now rewrite Hset.
Qed.

Lemma reporting_run_cons event events p :
  reporting_run (event :: events) p
  = reporting_run events (reporting_step p event).
Proof. reflexivity. Qed.

Lemma reporting_timer_delivers url obj waiting sent :
  reporting_step (mkReporting (Some url) (obj :: waiting) sent) TimerFires
  = mkReporting (Some url) waiting (sent ++ [report_of obj]).
Proof. destruct obj. reflexivity. Qed.

Lemma reporting_timers_deliver url : forall waiting sent,
  delayed
    (reporting_run (repeat TimerFires (length waiting))
       (mkReporting (Some url) waiting sent)) = []
  /\ reporter_reportError
       (reporting_run (repeat TimerFires (length waiting))
          (mkReporting (Some url) waiting sent))
     = sent ++ map report_of waiting.
Proof.
  induction waiting as [|obj waiting IH]; intros sent.
  - cbn. now rewrite app_nil_r.
  - cbn [length repeat].
    rewrite reporting_run_cons, reporting_timer_delivers.
    destruct (IH (sent ++ [report_of obj])) as [Hnone Hsent].
    rewrite Hnone, Hsent.
    split; [reflexivity|]. cbn [map]. now rewrite <- app_assoc.
Qed.

(** X30: no error is lost or reported twice.  Whatever the page does,
    the errors waiting on a timer and the errors handed to the reporter
    are, together, the errors waiting or handed over before and the
    errors reported since; the reporter, once initialized, is kept; and
    with a reporter, letting each waiting timer fire hands every waiting
    error to the reporter, in the order they were reported. *)
Theorem reported_errors_are_kept events p :
  Permutation
    (map report_of (delayed (reporting_run events p))
       ++ reporter_reportError (reporting_run events p))
    (map report_of (delayed p) ++ reporter_reportError p
       ++ map report_of (errors_of events))
  /\ (forall url,
        reporter p = Some url ->
        reporter (reporting_run events p) = Some url
        /\ delayed
             (reporting_run (repeat TimerFires (length (delayed p))) p) = []
        /\ reporter_reportError
             (reporting_run (repeat TimerFires (length (delayed p))) p)
           = reporter_reportError p ++ map report_of (delayed p)).
Proof.
  split.
  - revert p. induction events as [|event events IH]; intros p.
    + cbn. now rewrite app_nil_r.
    + rewrite reporting_run_cons.
      rewrite IH, errors_of_cons, map_app.
      rewrite app_assoc, reporting_step_keeps, <- !app_assoc.
      reflexivity.
  - intros url Hset. split.
    + revert p Hset. induction events as [|event events IH]; intros p Hset;
        [assumption|].
      rewrite reporting_run_cons. apply IH.
      now apply reporting_step_reporter.
    + destruct p as [r waiting sent]. cbn [reporter] in Hset. subst r.
      apply reporting_timers_deliver.
Qed.

(** ** Every fault of a cycle and its report *)

Lemma faults_accounted_app previous ev1 ev2 :
  faults_accounted previous ev1 = true ->
  (forall p, faults_accounted p ev2 = true) ->
  faults_accounted previous (ev1 ++ ev2) = true.
Proof.
  intros H1 H2. revert previous H1.
  induction ev1 as [|e ev1 IH]; intros previous H1; [apply H2|].
  cbn [app faults_accounted] in *.
  apply andb_true_iff in H1 as [Hhead Htail].
  apply andb_true_iff. split; [|now apply IH].
  destruct e as [c [|]| | | | |]; try reflexivity.
  apply orb_true_iff in Hhead as [Hswallowed|Hreported];
    apply orb_true_iff; [now left|right].
  destruct (report_of_fault c); [|discriminate].
  rewrite existsb_app, Hreported. reflexivity.
Qed.

Lemma faults_accounted_quiet previous ev :
  existsb is_fault ev = false -> faults_accounted previous ev = true.
Proof.
  revert previous. induction ev as [|e ev IH]; intros previous H;
    [reflexivity|].
  cbn [existsb faults_accounted] in *.
  apply orb_false_iff in H as [Hhead Htail].
  rewrite IH by assumption.
  destruct e as [c [|]| | | | |]; try reflexivity. discriminate.
Qed.

Lemma calls_none_faults_none ev :
  existsb is_call ev = false -> existsb is_fault ev = false.
Proof.
  apply existsb_weaken. intros [c [|]| | | | |]; auto.
Qed.

(** A cycle that holds a fault whose faults are accounted for holds a
    report: the one that follows the fault, or the one before the
    swallowed deletion. *)
Lemma faults_accounted_reports previous ev :
  faults_accounted previous ev = true ->
  existsb is_fault ev = true ->
  existsb is_report ev = true
  \/ exists report, previous = Some report /\ is_report report = true.
Proof.
  revert previous. induction ev as [|e ev IH]; intros previous Hacc Hfault;
    [discriminate|].
  cbn [existsb faults_accounted] in *.
  apply andb_true_iff in Hacc as [Hhead Htail].
  destruct (is_fault e) eqn:Hfe.
  - destruct e as [c [|]| | | | |]; try discriminate.
    apply orb_true_iff in Hhead as [Hswallowed|Hreported].
    + right. unfold swallowed_deletion in Hswallowed.
      destruct previous as [[| r | | | |]|]; try discriminate;
        try (destruct c; discriminate).
      exists (ReportError r). split; reflexivity.
    + left. apply orb_true_iff. right.
      destruct (report_of_fault c) as [errNum|]; [|discriminate].
      apply existsb_exists in Hreported as (x & Hin & Hx).
      apply existsb_exists. exists x. split; [assumption|].
      now destruct x.
  - cbn [orb] in Hfault.
    destruct (IH (Some e) Htail Hfault) as [Hrest|(r & [= <-] & Hr)];
      left; apply orb_true_iff; [now right|now left].
Qed.

Lemma fetchChars_accounted w codes s :
  exists ev,
    history (snd (fetchChars w codes s)) = history s ++ ev
    /\ forall previous, faults_accounted previous ev = true.
Proof.
  unfold fetchChars, handleFingerprintMismatch, dropDb, checkFingerprint,
    requestCodepoints, deleteDatabase.
  chain_unfold. cbn [snd fst history idb this timers].
  split_cases;
    (eexists; split;
     [settle_history; try (rewrite app_nil_r; reflexivity)
     |intros previous; reflexivity]).
Qed.

Lemma injectCompact_accounted w codes bundle s :
  exists ev,
    history (snd (injectCompact w codes bundle s)) = history s ++ ev
    /\ forall previous, faults_accounted previous ev = true.
Proof.
  unfold injectCompact, injectChars, deleteDatabase, setFont,
    compactCharList_resolve.
  chain_unfold. cbn [snd fst history idb this timers].
  split_cases;
    (eexists; split;
     [settle_history; try (rewrite app_nil_r; reflexivity)
     |intros previous; reflexivity]).
Qed.

(** The faults of each of the six ways a cycle ends are accounted for. *)
Lemma cycle_outcome_accounted w s s' :
  cycle_outcome w s s' ->
  exists ev,
    history s' = history s ++ ev /\ faults_accounted None ev = true.
Proof.
  intros Hcycle.
  destruct (calcNeededChars_trace w (locked s))
    as (calc_ev & Hcalc_ev & Hquiet & _).
  apply calls_none_faults_none in Hquiet.
  destruct Hcycle as [ok|e s1 Hcalc|s1 Hcalc|charlist r e s2 Hcl Hr Hcalc Hf
                     |charlist r Hcl Hr Hcalc Hreq
                     |charlist r bundle Hcl Hr Hcalc Hreq Hsig].
  - eexists. split; [reflexivity|]. now destruct ok.
  - rewrite Hcalc in Hcalc_ev. cbn [snd locked logged history] in *.
    exists (Called GetPrecedingPromise true :: calc_ev
            ++ [ReportError (FILE_ID ++ CALC_NEEDED_CHARS); ResolveChained]).
    split; [rewrite Hcalc_ev, <- !app_assoc; reflexivity|].
    apply (faults_accounted_app None [_]); [reflexivity|]. intros p.
    apply faults_accounted_app;
      [now apply faults_accounted_quiet|reflexivity].
  - rewrite Hcalc in Hcalc_ev. cbn [snd locked logged history] in *.
    exists (Called GetPrecedingPromise true :: calc_ev ++ [ResolveChained]).
    split; [rewrite Hcalc_ev, <- !app_assoc; reflexivity|].
    apply (faults_accounted_app None [_]); [reflexivity|]. intros p.
    apply faults_accounted_app;
      [now apply faults_accounted_quiet|reflexivity].
  - rewrite Hcalc in Hcalc_ev. cbn [snd] in Hcalc_ev.
    destruct (fetchChars_accounted w r
                (state_after_calc w (locked s) charlist))
      as (ev & Hev & Hacc).
    rewrite Hf in Hev. cbn [snd] in Hev.
    exists (Called GetPrecedingPromise true :: calc_ev ++ ev
            ++ [ResolveChained]).
    cbn [logged history]. rewrite Hev, Hcalc_ev.
    cbn [locked logged history]. rewrite <- !app_assoc.
    split; [reflexivity|].
    apply (faults_accounted_app None [_]); [reflexivity|]. intros p.
    apply faults_accounted_app; [now apply faults_accounted_quiet|].
    intros p'. apply faults_accounted_app; [apply Hacc|reflexivity].
  - rewrite Hcalc in Hcalc_ev. cbn [snd] in Hcalc_ev.
    exists (Called GetPrecedingPromise true :: calc_ev
            ++ [Called (RequestCodepoints r) true; ResolveChained]).
    cbn [logged history]. rewrite Hcalc_ev.
    cbn [locked logged history]. rewrite <- !app_assoc.
    split; [reflexivity|].
    apply (faults_accounted_app None [_]); [reflexivity|]. intros p.
    apply faults_accounted_app;
      [now apply faults_accounted_quiet|reflexivity].
  - rewrite Hcalc in Hcalc_ev. cbn [snd] in Hcalc_ev.
    destruct (injectCompact_accounted w r bundle
                (noted bundle
                   (logged (state_after_calc w (locked s) charlist)
                      [Called (RequestCodepoints r) true])))
      as (ev & Hev & Hacc).
    exists (Called GetPrecedingPromise true :: calc_ev
            ++ Called (RequestCodepoints r) true :: ev ++ [ResolveChained]).
    cbn [logged history]. rewrite Hev.
    cbn [noted logged history]. rewrite Hcalc_ev.
    cbn [locked logged history]. rewrite <- !app_assoc.
    split; [reflexivity|].
    apply (faults_accounted_app None [_]); [reflexivity|]. intros p.
    apply faults_accounted_app; [now apply faults_accounted_quiet|].
    intros p'. apply (faults_accounted_app p' [_]); [reflexivity|].
    intros p''. apply faults_accounted_app; [apply Hacc|reflexivity].
Qed.

Lemma loadChars_resolves w s : fst (loadChars w s) = Resolved tt.
Proof.
  destruct (chained_getPrecedingPromise w (history s)) as [[]|e] eqn:Hlock.
  2:{ now rewrite (loadChars_lock_fails w s e) by assumption. }
  destruct (asserts_hold w s) eqn:Hassert.
  2:{ now rewrite (loadChars_assert_fails w s tt) by assumption. }
  now rewrite (loadChars_cycle w s tt) by assumption.
Qed.

(** C9, as amended: [loadChars] resolves whatever the collaborators do.
    Every rejection of a collaborator is followed by the report the code
    makes for it: EIF18 for the lock, EIF42 for the request of the code
    points, EIF44 for the deletion of the database in [dropDb], EIF59 for
    the injection and EIF49 for [setFont]; no other collaborator rejects in
    a cycle.  The one exception is the deletion of the database that
    [injectCompact] starts right after it has reported a failed injection
    with EIF59: its rejection is swallowed.  A cycle in which a collaborator
    rejected has therefore reported at least one error. *)
Theorem loadChars_never_rejects w s :
  fst (loadChars w s) = Resolved tt
  /\ faults_accounted None (cycle_events w s) = true
  /\ reports_faults (cycle_events w s).
Proof.
  split; [apply loadChars_resolves|].
  destruct (cycle_outcome_accounted w s _ (loadChars_outcome w s))
    as (ev & Hev & Hacc).
  unfold cycle_events. rewrite Hev, skipn_history.
  split; [assumption|].
  intros Hfault.
  destruct (faults_accounted_reports None ev Hacc Hfault)
    as [Hreport|(report & Hnone & _)]; [assumption|discriminate].
Qed.

(** ** The cycle that the timer starts *)

Lemma run_timers_idle w fuel s : timers s = 0%nat -> run_timers w fuel s = s.
Proof. intros Hnone. destruct fuel; cbn [run_timers]; now rewrite ?Hnone. Qed.

Lemma run_timers_fires w fuel s pending :
  timers s = S pending ->
  run_timers w (S fuel) s
  = run_timers w fuel
      (snd (loadChars w (mkState (this s) (idb s) (history s) pending))).
Proof. intros Hone. cbn [run_timers]. now rewrite Hone. Qed.

(** C6: with a request size of two, the letter a is padded to the sequence
    97, 98, 99.  The cycle requests 97 and 98 and sets the timer for the
    deferred code, the decoy 99, which the padding has marked in the
    character list although no request holds it.  The cycle that the timer
    starts, after the first one has released the chain, finds nothing to
    load: 99 is not requested, and it is not requested either when the page
    asks for the letter c afterwards. *)
Theorem deferred_decoy_is_never_requested :
  let w := sample_world false (Resolved (Some matching_bundle))
             (Resolved tt) (Resolved sample_cff) in
  let s := sample_state (sample_font [([97], 1)] (Some 2)) in
  let sequence := fst (obfuscated_of w (locked s) ∅) in
  let first_request := [Called (RequestCodepoints [97; 98]) true] in
  let s1 := snd (loadChars w s) in
  sequence = [97; 98; 99]
  /\ head_chunk (maximumRequestSize_ (this s)) sequence = [97; 98]
  /\ remaining_chunk (maximumRequestSize_ (this s)) sequence = [99]
  /\ List.filter is_request (history s1) = first_request
  /\ timers s1 = 1%nat
  /\ charsToLoad_ (this s1) = []
  /\ (exists charlist,
        compactCharList_ (this s1) = Resolved charlist
        /\ charlist !! [99] = Some 1)
  /\ forall fuel,
       let s2 := run_timers w (S fuel) s1 in
       let asked :=
         mkState (set_charsToLoad (this s2) [([99], 1)])
           (idb s2) (history s2) (timers s2) in
       timers s2 = 0%nat
       /\ List.filter is_chain_event (history s2)
          = [Called GetPrecedingPromise true; ResolveChained;
             Called GetPrecedingPromise true; ResolveChained]
       /\ List.filter is_request (history s2) = first_request
       /\ List.filter is_request (history (snd (loadChars w asked)))
          = first_request
       /\ timers (snd (loadChars w asked)) = 0%nat.
Proof.
  intros w s sequence first_request s1.
  split; [vm_compute; reflexivity|].
  split; [vm_compute; reflexivity|].
  split; [vm_compute; reflexivity|].
  split; [vm_compute; reflexivity|].
  split; [vm_compute; reflexivity|].
  split; [vm_compute; reflexivity|].
  split.
  { set (settled := compactCharList_ (this s1)). vm_compute in settled.
    subst settled. eexists. split; [reflexivity|].
    vm_compute. reflexivity. }
  intros fuel.
  rewrite (run_timers_fires w fuel s1 0) by (vm_compute; reflexivity).
  rewrite run_timers_idle by (vm_compute; reflexivity).
  cbv zeta. vm_compute. repeat split.
Qed.
